(** * The RocksDB address index of hathor-core

    A shallow embedding of [hathor/indexes/rocksdb_address_index.py] and
    [hathor/indexes/rocksdb_utils.py]: the key codec, the column-family
    lifecycle, the extraction of a transaction's addresses and the index
    operations, over a model of the ordered store and of the event bus. *)

From Stdlib Require Import Strings.String Strings.Ascii Strings.Byte.
From Stdlib Require Import List ZArith NArith Bool Lia Sorting.Sorted.
From Stdlib Require Import Sorting.Permutation.
From Stdlib Require DecimalString.
Import ListNotations.

(** ** Python values *)

(** [bytes] objects. *)
Definition bytes := list byte.

(** [str] objects.  The 8-bit codes above 127 stand for every character
    outside ASCII: [str.encode('ascii')] refuses them all alike. *)
Definition str := list ascii.

(** The exceptions the modelled code can raise. *)
Inductive exn : Set :=
| AssertionError
| UnicodeEncodeError
| UnicodeDecodeError
| StructError
| IndexError
| TransactionDoesNotExist
| RocksDBError.

(** The outcome of a call: a value, or a raised exception. *)
Inductive result (A : Type) : Type :=
| Ok (a : A)
| Raise (e : exn).
Arguments Ok {A} a.
Arguments Raise {A} e.

Definition bind_result {A B} (r : result A) (k : A -> result B) : result B :=
  match r with
  | Ok a => k a
  | Raise e => Raise e
  end.

(** [assert c]. *)
Definition assert (c : bool) : result unit :=
  if c then Ok tt else Raise AssertionError.

Declare Scope result_scope.
Delimit Scope result_scope with result.
Notation "x <- r ;; k" := (bind_result r (fun x => k))
  (at level 61, r at next level, right associativity) : result_scope.
Notation "r ;;; k" := (bind_result r (fun _ => k))
  (at level 61, right associativity) : result_scope.

Definition is_ascii_char (c : ascii) : bool := (N_of_ascii c <? 128)%N.
Definition is_ascii_byte (b : byte) : bool := (Byte.to_N b <? 128)%N.

(** [s.encode('ascii')]. *)
Definition encode_ascii (s : str) : result bytes :=
  if forallb is_ascii_char s then Ok (map byte_of_ascii s)
  else Raise UnicodeEncodeError.

(** [b.decode('ascii')]. *)
Definition decode_ascii (b : bytes) : result str :=
  if forallb is_ascii_byte b then Ok (map ascii_of_byte b)
  else Raise UnicodeDecodeError.

Definition bytes_eqb (a b : bytes) : bool :=
  if list_eq_dec Byte.byte_eq_dec a b then true else false.

Definition str_eqb (a b : str) : bool :=
  if list_eq_dec ascii_dec a b then true else false.

(** Comparison of [bytes]: byte by byte, a proper prefix first.  It is the
    order of Python's [<] on [bytes] and of the store's default comparator. *)
Fixpoint bytes_compare (a b : bytes) : comparison :=
  match a, b with
  | [], [] => Eq
  | [], _ :: _ => Lt
  | _ :: _, [] => Gt
  | x :: a', y :: b' =>
      match (Byte.to_N x ?= Byte.to_N y)%N with
      | Eq => bytes_compare a' b'
      | c => c
      end
  end.

Definition bytes_lt (a b : bytes) : Prop := bytes_compare a b = Lt.

(** ** [struct], format ['>I'] *)

Module struct.

Definition byte_of_Z (z : Z) : byte :=
  match Byte.of_N (Z.to_N z) with
  | Some b => b
  | None => x00
  end.

Definition Z_of_byte (b : byte) : Z := Z.of_N (Byte.to_N b).

(** [struct.pack('>I', n)]: four bytes, most significant first;
    [struct.error] outside [0, 2^32). *)
Definition pack_I (n : Z) : result bytes :=
  if ((0 <=? n) && (n <? 4294967296))%Z then
    Ok [ byte_of_Z (n / 16777216);
         byte_of_Z ((n / 65536) mod 256);
         byte_of_Z ((n / 256) mod 256);
         byte_of_Z (n mod 256) ]
  else Raise StructError.

(** [struct.unpack('>I', b)]: [struct.error] unless [b] has four bytes. *)
Definition unpack_I (b : bytes) : result Z :=
  match b with
  | [b0; b1; b2; b3] =>
      Ok (((Z_of_byte b0 * 256 + Z_of_byte b1) * 256 + Z_of_byte b2) * 256
          + Z_of_byte b3)%Z
  | _ => Raise StructError
  end.

End struct.

(** The number four bytes stand for, most significant first. *)
Definition be32 (b0 b1 b2 b3 : byte) : Z :=
  (((struct.Z_of_byte b0 * 256 + struct.Z_of_byte b1) * 256
    + struct.Z_of_byte b2) * 256 + struct.Z_of_byte b3)%Z.

(** ** Transactions *)

(** Modelled from the spec: the classes of [hathor.transaction], which the
    index only reads.  An input names an output of an earlier transaction
    by that transaction's id and the output's position. *)
Record TxInput : Type := mkTxInput {
  tx_id : bytes;
  index : Z
}.

(** Modelled from the spec: a [TxOutput], of which the index reads the
    script. *)
Record TxOutput : Type := mkTxOutput {
  script : bytes
}.

(** Modelled from the spec: what the index reads of a [BaseTransaction]:
    its hash (assigned or not), its timestamp, its inputs and outputs, and
    the transaction storage it is attached to, through [get_transaction];
    [None] there is [TransactionDoesNotExist]. *)
#[local] Set Warnings "-register-all".
Inductive BaseTransaction : Type := mkTx {
  hash : option bytes;
  timestamp : Z;
  inputs : list TxInput;
  outputs : list TxOutput;
  storage : option (bytes -> option BaseTransaction)
}.

(** [l[i]] on a Python list: a negative [i] counts from the end. *)
Definition py_getitem {A} (l : list A) (i : Z) : result A :=
  let n := Z.of_nat (length l) in
  let j := (if i <? 0 then n + i else i)%Z in
  if ((0 <=? j) && (j <? n))%Z then
    match nth_error l (Z.to_nat j) with
    | Some x => Ok x
    | None => Raise IndexError
    end
  else Raise IndexError.

(** ** The key codec *)

Local Open Scope result_scope.

(** [RocksDBAddressIndex._to_key].  A transaction object is always true in
    [if tx:], so the test is whether one was passed. *)
Definition _to_key (address : str) (tx : option BaseTransaction) : result bytes :=
  assert (length address =? 34) ;;;
  key <- encode_ascii address ;;
  match tx with
  | Some tx =>
      match hash tx with
      | None => Raise AssertionError
      | Some tx_hash =>
          assert (length tx_hash =? 32) ;;;
          ts <- struct.pack_I (timestamp tx) ;;
          let key := key ++ ts ++ tx_hash in
          assert (length key =? 34 + 4 + 32) ;;;
          Ok key
      end
  | None => Ok key
  end.

(** [RocksDBAddressIndex._from_key]. *)
Definition _from_key (key : bytes) : result (str * Z * bytes) :=
  assert (length key =? 34 + 4 + 32) ;;;
  address <- decode_ascii (firstn 34 key) ;;
  timestamp <- struct.unpack_I (firstn 4 (skipn 34 key)) ;;
  let tx_hash := skipn 38 key in
  assert (length address =? 34) ;;;
  assert (length tx_hash =? 32) ;;;
  Ok (address, timestamp, tx_hash).

(** ** The ordered store *)

(** Modelled from the spec: the ordered key-value store, [python-rocksdb],
    an external library.  The model keeps what the index relies on: named
    column families with an identity, each a list of entries in ascending
    key order, with [put], [delete] and forward iterators over the keys. *)

Module rocksdb.

Record ColumnFamily : Type := mkColumnFamily {
  cf_name : bytes;
  cf_id : N;
  cf_data : list (bytes * bytes)
}.

(** A handle names a family by its identity; it is valid as long as the
    database holds a family of that identity. *)
Record ColumnFamilyHandle : Type := mkHandle {
  name : bytes;
  id : N
}.

(** Identities are handed out in increasing order and never reused. *)
Record DB : Type := mkDB {
  column_families : list ColumnFamily;
  max_column_family : N
}.

Fixpoint put_entry (key value : bytes) (l : list (bytes * bytes))
  : list (bytes * bytes) :=
  match l with
  | [] => [(key, value)]
  | (k, v) :: t =>
      match bytes_compare key k with
      | Lt => (key, value) :: (k, v) :: t
      | Eq => (key, value) :: t
      | Gt => (k, v) :: put_entry key value t
      end
  end.

Definition delete_entry (key : bytes) (l : list (bytes * bytes))
  : list (bytes * bytes) :=
  filter (fun e => negb (bytes_eqb (fst e) key)) l.

Definition find_cf (i : N) (cfs : list ColumnFamily) : option ColumnFamily :=
  find (fun cf => (cf_id cf =? i)%N) cfs.

(** The family [find_cf] reaches, with new entries. *)
Fixpoint set_cf (i : N) (data : list (bytes * bytes))
  (cfs : list ColumnFamily) : list ColumnFamily :=
  match cfs with
  | [] => []
  | cf :: t =>
      if (cf_id cf =? i)%N
      then mkColumnFamily (cf_name cf) (cf_id cf) data :: t
      else cf :: set_cf i data t
  end.

Definition is_valid (h : ColumnFamilyHandle) (db : DB) : bool :=
  match find_cf (id h) (column_families db) with
  | Some _ => true
  | None => false
  end.

(** [db.get_column_family(name)]: the handle, or [None]. *)
Definition get_column_family (db : DB) (n : bytes) : option ColumnFamilyHandle :=
  match find (fun cf => bytes_eqb (cf_name cf) n) (column_families db) with
  | Some cf => Some (mkHandle (cf_name cf) (cf_id cf))
  | None => None
  end.

(** [db.drop_column_family(handle)]: the family goes with all its entries. *)
Definition drop_column_family (db : DB) (h : ColumnFamilyHandle) : result DB :=
  if is_valid h db then
    Ok (mkDB (filter (fun cf => negb (cf_id cf =? id h)%N) (column_families db))
             (max_column_family db))
  else Raise RocksDBError.

(** [db.create_column_family(name, options)]: an empty family under a
    new identity; a name already in use is refused. *)
Definition create_column_family (db : DB) (n : bytes)
  : result (ColumnFamilyHandle * DB) :=
  match get_column_family db n with
  | Some _ => Raise RocksDBError
  | None =>
      let i := (max_column_family db + 1)%N in
      Ok (mkHandle n i,
          mkDB (mkColumnFamily n i [] :: column_families db) i)
  end.

(** [db.put((handle, key), value)]. *)
Definition put (db : DB) (at_ : ColumnFamilyHandle * bytes) (value : bytes)
  : result DB :=
  let (h, key) := at_ in
  match find_cf (id h) (column_families db) with
  | Some cf =>
      Ok (mkDB (set_cf (id h) (put_entry key value (cf_data cf))
                  (column_families db))
               (max_column_family db))
  | None => Raise RocksDBError
  end.

(** [db.delete((handle, key))]: nothing happens for an absent key. *)
Definition delete (db : DB) (at_ : ColumnFamilyHandle * bytes) : result DB :=
  let (h, key) := at_ in
  match find_cf (id h) (column_families db) with
  | Some cf =>
      Ok (mkDB (set_cf (id h) (delete_entry key (cf_data cf))
                  (column_families db))
               (max_column_family db))
  | None => Raise RocksDBError
  end.

(** A keys iterator: the keys of the family when it was made, and the
    keys from its position on.  It is valid while some are left. *)
Record KeysIterator : Type := mkIterator {
  it_keys : list bytes;
  it_rest : list bytes
}.

(** [db.iterkeys(handle)]: not positioned yet.  For the handle of a family
    that was dropped the model raises the error of the binding; what the
    library does there is its own business, and what is stated of the
    queries is stated of an index that has its column family. *)
Definition iterkeys (db : DB) (h : ColumnFamilyHandle) : result KeysIterator :=
  match find_cf (id h) (column_families db) with
  | Some cf => Ok (mkIterator (map fst (cf_data cf)) [])
  | None => Raise RocksDBError
  end.

Fixpoint lower_bound (key : bytes) (keys : list bytes) : list bytes :=
  match keys with
  | [] => []
  | k :: t =>
      match bytes_compare k key with
      | Lt => lower_bound key t
      | _ => keys
      end
  end.

(** [it.seek(key)]: at the first key that is not below [key]. *)
Definition seek (it : KeysIterator) (key : bytes) : KeysIterator :=
  mkIterator (it_keys it) (lower_bound key (it_keys it)).

(** [it.get()]: the key under the iterator.  On an iterator that is not
    valid there is none, and RocksDB leaves the call undefined; the model
    takes the empty slice, [b''], for what the binding hands back. *)
Definition get (it : KeysIterator) : bytes :=
  match it_rest it with
  | k :: _ => k
  | [] => []
  end.

(** [for key in it]: the keys from the position on, in order. *)
Definition remaining (it : KeysIterator) : list bytes := it_rest it.

End rocksdb.

(** ** The event bus *)

(** Modelled from the spec: the event kinds of [hathor.pubsub] the index
    subscribes to and publishes. *)
Inductive HathorEvents : Set :=
| STORAGE_TX_VOIDED
| STORAGE_TX_WINNER
| WALLET_ADDRESS_HISTORY.

(** Modelled from the spec: the collaborators the index calls and never
    looks into, [parse_address_script] (the address of an output script, if
    it has one) and [BaseTransaction.to_json_extended]. *)
Class Externals : Type := {
  Json : Type;
  parse_address_script : bytes -> option str;
  to_json_extended : BaseTransaction -> Json
}.

Section World.

Context `{Externals}.

(** A published event with its keyword arguments. *)
Record Publication : Type := mkPublication {
  event : HathorEvents;
  address : str;
  history : Json
}.

(** Modelled from the spec: the [PubSubManager], as who listens to what
    and what was published; handing a publication to its listeners is the
    manager's business.  A listener is the [handle_tx_event] of the index
    on a column family. *)
Record PubSubManager : Type := mkPubSub {
  subscribers : list (HathorEvents * bytes);
  published : list Publication
}.

(** The objects the index shares with its callers. *)
Record World : Type := mkWorld {
  db : rocksdb.DB;
  bus : PubSubManager
}.

(** A method call: it may raise, and whatever it did to the shared
    objects before stays done. *)
Definition M (A : Type) : Type := World -> result A * World.

Definition ret {A} (a : A) : M A := fun w => (Ok a, w).

Definition bind {A B} (m : M A) (k : A -> M B) : M B :=
  fun w =>
    match m w with
    | (Ok a, w') => k a w'
    | (Raise e, w') => (Raise e, w')
    end.

Definition lift {A} (r : result A) : M A := fun w => (r, w).

(** A store call that changes the database. *)
Definition on_db (f : rocksdb.DB -> result rocksdb.DB) : M unit :=
  fun w =>
    match f (db w) with
    | Ok d => (Ok tt, mkWorld d (bus w))
    | Raise e => (Raise e, w)
    end.

Definition read_db {A} (f : rocksdb.DB -> A) : M A := fun w => (Ok (f (db w)), w).

Fixpoint for_each {A} (l : list A) (body : A -> M unit) : M unit :=
  match l with
  | [] => ret tt
  | x :: t => bind (body x) (fun _ => for_each t body)
  end.

End World.

Declare Scope M_scope.
Delimit Scope M_scope with M.
Notation "x <- m ;; k" := (bind m (fun x => k))
  (at level 61, m at next level, right associativity) : M_scope.
Notation "m ;;; k" := (bind m (fun _ => k))
  (at level 61, right associativity) : M_scope.

(** A stored key is well formed: 70 bytes, the first 34 of them ASCII. *)
Definition key_ok (key : bytes) : Prop :=
  length key = 70 /\ forallb is_ascii_byte (firstn 34 key) = true.

(** Entries in strictly ascending key order. *)
Definition sorted_entries (l : list (bytes * bytes)) : Prop :=
  StronglySorted (fun e1 e2 => bytes_lt (fst e1) (fst e2)) l.

(** A database whose families have names of their own and identities of
    their own, none above the last one handed out. *)
Definition db_ok (d : rocksdb.DB) : Prop :=
  NoDup (map rocksdb.cf_name (rocksdb.column_families d)) /\
  NoDup (map rocksdb.cf_id (rocksdb.column_families d)) /\
  Forall (fun cf => (rocksdb.cf_id cf <= rocksdb.max_column_family d)%N)
    (rocksdb.column_families d).

(** ** The column-family lifecycle and the index *)

Section Index.

Context `{Externals}.

Local Open Scope M_scope.

Definition option_N_eqb (a b : option N) : bool :=
  match a, b with
  | Some x, Some y => (x =? y)%N
  | None, None => true
  | _, _ => false
  end.

Definition drop_column_family (h : rocksdb.ColumnFamilyHandle) : M unit :=
  on_db (fun d => rocksdb.drop_column_family d h).

Definition create_column_family (n : bytes) : M rocksdb.ColumnFamilyHandle :=
  fun w =>
    match rocksdb.create_column_family (db w) n with
    | Ok (h, d) => (Ok h, mkWorld d (bus w))
    | Raise e => (Raise e, w)
    end.

(** [RocksDBIndexUtils._fresh_cf].  The logger is bound to the decoded
    name first, which is where a name outside ASCII raises. *)
Definition _fresh_cf (cf_name : bytes) : M rocksdb.ColumnFamilyHandle :=
  lift (decode_ascii cf_name) ;;;
  _cf <- read_db (fun d => rocksdb.get_column_family d cf_name) ;;
  old_id <- match _cf with
            | Some _cf =>
                let old_id := rocksdb.id _cf in
                drop_column_family _cf ;;;
                ret (Some old_id)
            | None => ret None
            end ;;
  _cf <- create_column_family cf_name ;;
  let new_id := rocksdb.id _cf in
  valid <- read_db (rocksdb.is_valid _cf) ;;
  lift (assert valid) ;;;
  lift (assert (negb (option_N_eqb (Some new_id) old_id))) ;;;
  ret _cf.

(** [RocksDBAddressIndex._reset_cf], as the handle it stores in
    [self._cf]. *)
Definition _reset_cf (_cf_name : bytes) : M rocksdb.ColumnFamilyHandle :=
  lift (decode_ascii _cf_name) ;;;
  _cf <- read_db (fun d => rocksdb.get_column_family d _cf_name) ;;
  old_id <- match _cf with
            | Some _cf =>
                let old_id := rocksdb.id _cf in
                drop_column_family _cf ;;;
                ret (Some old_id)
            | None => ret None
            end ;;
  _cf <- create_column_family _cf_name ;;
  let new_id := rocksdb.id _cf in
  valid <- read_db (rocksdb.is_valid _cf) ;;
  lift (assert valid) ;;;
  lift (assert (negb (option_N_eqb (Some new_id) old_id))) ;;;
  ret _cf.

(** The attributes of a [RocksDBAddressIndex].  [pubsub] tells whether a
    [PubSubManager] was passed; the manager itself is in the [World]. *)
Record RocksDBAddressIndex : Type := mkIndex {
  _cf_name : bytes;
  _cf : rocksdb.ColumnFamilyHandle;
  pubsub : bool
}.

Definition _CF_NAME_ADDRESS_INDEX : bytes :=
  String.list_byte_of_string "address-index"%string.

Definition subscribe (ev : HathorEvents) (listener : bytes) : M unit :=
  fun w =>
    (Ok tt,
     mkWorld (db w)
       (mkPubSub (subscribers (bus w) ++ [(ev, listener)]) (published (bus w)))).

Definition publish (ev : HathorEvents) (address : str) (history : Json) : M unit :=
  fun w =>
    (Ok tt,
     mkWorld (db w)
       (mkPubSub (subscribers (bus w))
          (published (bus w) ++ [mkPublication ev address history]))).

(** [RocksDBAddressIndex.subscribe_pubsub_events]. *)
Definition subscribe_pubsub_events (self : RocksDBAddressIndex) : M unit :=
  lift (assert (pubsub self)) ;;;
  let events := [STORAGE_TX_VOIDED; STORAGE_TX_WINNER] in
  for_each events (fun event => subscribe event (_cf_name self)).

(** [RocksDBAddressIndex.__init__]: [cf_name or _CF_NAME_ADDRESS_INDEX]
    takes the default for [None] and for [b'']. *)
Definition __init__ (cf_name : option bytes) (pubsub : bool)
  : M RocksDBAddressIndex :=
  let _cf_name := match cf_name with
                  | Some (b :: n) => b :: n
                  | _ => _CF_NAME_ADDRESS_INDEX
                  end in
  _cf <- _reset_cf _cf_name ;;
  let self := mkIndex _cf_name _cf pubsub in
  (if pubsub then subscribe_pubsub_events self else ret tt) ;;;
  ret self.

(** A [Set[str]] is kept as the list of its members, each once, in the
    order they came in.  Python iterates a set in an order of its own,
    which the list does not stand for: what is stated of a loop over a set
    is stated up to the order of its members. *)
Definition set_add (x : str) (s : list str) : list str :=
  if existsb (str_eqb x) s then s else s ++ [x].

Definition add_address_from_output (output : TxOutput) (addresses : list str)
  : list str :=
  match parse_address_script (script output) with
  | Some address => set_add address addresses
  | None => addresses
  end.

Fixpoint add_addresses_from_inputs (get_transaction : bytes -> option BaseTransaction)
  (txins : list TxInput) (addresses : list str) : result (list str) :=
  match txins with
  | [] => Ok addresses
  | txin :: rest =>
      match get_transaction (tx_id txin) with
      | None => Raise TransactionDoesNotExist
      | Some tx2 =>
          (txout <- py_getitem (outputs tx2) (index txin) ;;
           add_addresses_from_inputs get_transaction rest
             (add_address_from_output txout addresses))%result
      end
  end.

(** [RocksDBAddressIndex._get_addresses]. *)
Definition _get_addresses (tx : BaseTransaction) : result (list str) :=
  match storage tx with
  | None => Raise AssertionError
  | Some get_transaction =>
      (addresses <- add_addresses_from_inputs get_transaction (inputs tx) [] ;;
       Ok (fold_left (fun addresses txout => add_address_from_output txout addresses)
             (outputs tx) addresses))%result
  end.

(** [RocksDBAddressIndex.publish_tx]. *)
Definition publish_tx (self : RocksDBAddressIndex) (tx : BaseTransaction)
  (addresses : option (list str)) : M unit :=
  if negb (pubsub self) then ret tt
  else
    addresses <- match addresses with
                 | None => lift (_get_addresses tx)
                 | Some addresses => ret addresses
                 end ;;
    let data := to_json_extended tx in
    for_each addresses (fun address => publish WALLET_ADDRESS_HISTORY address data).

Definition is_some {A} (o : option A) : bool :=
  match o with Some _ => true | None => false end.

(** [RocksDBAddressIndex.add_tx]. *)
Definition add_tx (self : RocksDBAddressIndex) (tx : BaseTransaction) : M unit :=
  lift (assert (is_some (hash tx))) ;;;
  addresses <- lift (_get_addresses tx) ;;
  for_each addresses (fun address =>
    key <- lift (_to_key address (Some tx)) ;;
    on_db (fun d => rocksdb.put d (_cf self, key) [])) ;;;
  publish_tx self tx (Some addresses).

(** [RocksDBAddressIndex.remove_tx]. *)
Definition remove_tx (self : RocksDBAddressIndex) (tx : BaseTransaction) : M unit :=
  lift (assert (is_some (hash tx))) ;;;
  addresses <- lift (_get_addresses tx) ;;
  for_each addresses (fun address =>
    key <- lift (_to_key address (Some tx)) ;;
    on_db (fun d => rocksdb.delete d (_cf self, key))).

(** The loop of [_get_from_address_iter] over the keys the iterator
    yields: it stops at the first key of another address. *)
Fixpoint scan (address : str) (keys : list bytes) : result (list bytes) :=
  match keys with
  | [] => Ok []
  | key :: rest =>
      (decoded <- _from_key key ;;
       let '(addr, _, tx_hash) := decoded in
       if negb (str_eqb addr address) then Ok []
       else
         hashes <- scan address rest ;;
         Ok (tx_hash :: hashes))%result
  end.

(** [RocksDBAddressIndex._get_from_address_iter], run to its end. *)
Definition _get_from_address_iter (self : RocksDBAddressIndex) (address : str)
  : M (list bytes) :=
  it <- (fun w => (rocksdb.iterkeys (db w) (_cf self), w)) ;;
  prefix <- lift (_to_key address None) ;;
  let it := rocksdb.seek it prefix in
  lift (scan address (rocksdb.remaining it)).

(** [RocksDBAddressIndex.get_from_address]. *)
Definition get_from_address (self : RocksDBAddressIndex) (address : str)
  : M (list bytes) :=
  _get_from_address_iter self address.

(** [RocksDBAddressIndex.get_sorted_from_address]. *)
Definition get_sorted_from_address (self : RocksDBAddressIndex) (address : str)
  : M (list bytes) :=
  _get_from_address_iter self address.

(** [RocksDBAddressIndex.is_address_empty]. *)
Definition is_address_empty (self : RocksDBAddressIndex) (address : str) : M bool :=
  it <- (fun w => (rocksdb.iterkeys (db w) (_cf self), w)) ;;
  prefix <- lift (_to_key address None) ;;
  let it := rocksdb.seek it prefix in
  let key := rocksdb.get it in
  decoded <- lift (_from_key key) ;;
  let '(addr, _, _) := decoded in
  let is_empty := str_eqb addr address in
  ret is_empty.

(** ** What the index holds *)

(** The entries of the column family of the index, if the database still
    has it. *)
Definition keyspace (self : RocksDBAddressIndex) (w : World)
  : option (list (bytes * bytes)) :=
  option_map rocksdb.cf_data
    (rocksdb.find_cf (rocksdb.id (_cf self)) (rocksdb.column_families (db w))).

(** The world with other entries in that family. *)
Definition set_keyspace (self : RocksDBAddressIndex)
  (data : list (bytes * bytes)) (w : World) : World :=
  mkWorld
    (rocksdb.mkDB
       (rocksdb.set_cf (rocksdb.id (_cf self)) data
          (rocksdb.column_families (db w)))
       (rocksdb.max_column_family (db w)))
    (bus w).

(** The keys the loops of [add_tx] and [remove_tx] reach for [tx], one per
    address, up to the first address [_to_key] refuses, and the exception
    it raises there. *)
Fixpoint encoded (tx : BaseTransaction) (addresses : list str)
  : list bytes * option exn :=
  match addresses with
  | [] => ([], None)
  | a :: rest =>
      match _to_key a (Some tx) with
      | Ok key => let (keys, e) := encoded tx rest in (key :: keys, e)
      | Raise e => ([], Some e)
      end
  end.

Definition put_all (keys : list bytes) (data : list (bytes * bytes))
  : list (bytes * bytes) :=
  fold_left (fun data key => rocksdb.put_entry key [] data) keys data.

Definition delete_all (keys : list bytes) (data : list (bytes * bytes))
  : list (bytes * bytes) :=
  fold_left (fun data key => rocksdb.delete_entry key data) keys data.

Definition raised (e : option exn) : result unit :=
  match e with
  | None => Ok tt
  | Some e => Raise e
  end.

(** The keys [add_tx] and [remove_tx] reach for [tx], and what the two
    calls raise before their loop ends, if anything. *)
Definition tx_keys (tx : BaseTransaction) : list bytes :=
  match hash tx, _get_addresses tx with
  | Some _, Ok addresses => fst (encoded tx addresses)
  | _, _ => []
  end.

Definition tx_raised (tx : BaseTransaction) : result unit :=
  match hash tx, _get_addresses tx with
  | None, _ => Raise AssertionError
  | Some _, Raise e => Raise e
  | Some _, Ok addresses => raised (snd (encoded tx addresses))
  end.

(** A world after a call, whatever the call returned. *)
Definition after {A} (m : M A) (w : World) : World := snd (m w).

(** Entries put one after the other under a handle. *)
Definition put_entries (h : rocksdb.ColumnFamilyHandle)
  (entries : list (bytes * bytes)) (w : World) : World :=
  fold_left
    (fun w e => after (on_db (fun d => rocksdb.put d (h, fst e) (snd e))) w)
    entries w.

(** Two opens under one name, with entries put in between: both return;
    the entries are there before the second open; the second handle has
    another identity, is valid, and its family has no key. *)
Definition fresh_twice (open : bytes -> M rocksdb.ColumnFamilyHandle) : Prop :=
  forall (w : World) (n : bytes) (entries : list (bytes * bytes)),
    db_ok (db w) -> forallb is_ascii_byte n = true ->
    exists h1 w1,
      open n w = (Ok h1, w1) /\
      exists keys,
        rocksdb.iterkeys (db (put_entries h1 entries w1)) h1
        = Ok (rocksdb.mkIterator keys []) /\
        (forall e, In e entries -> In (fst e) keys) /\
        exists h2 w2,
          open n (put_entries h1 entries w1) = (Ok h2, w2) /\
          rocksdb.name h2 = n /\
          rocksdb.id h2 <> rocksdb.id h1 /\
          rocksdb.is_valid h2 (db w2) = true /\
          rocksdb.iterkeys (db w2) h2 = Ok (rocksdb.mkIterator [] []).

(** The calls that change an index. *)
Inductive call : Type :=
| call_add_tx (tx : BaseTransaction)
| call_remove_tx (tx : BaseTransaction).

Definition run_call (self : RocksDBAddressIndex) (c : call) (w : World) : World :=
  match c with
  | call_add_tx tx => after (add_tx self tx) w
  | call_remove_tx tx => after (remove_tx self tx) w
  end.

Definition run_calls (self : RocksDBAddressIndex) (cs : list call) (w : World)
  : World :=
  fold_left (fun w c => run_call self c w) cs w.

(** The index has its column family, with well-formed keys in order. *)
Definition index_ok (self : RocksDBAddressIndex) (w : World) : Prop :=
  exists data,
    keyspace self w = Some data /\ sorted_entries data /\
    Forall (fun e => key_ok (fst e)) data.

End Index.

(** Ascending timestamp, ascending hash among equal timestamps. *)
Definition ts_hash_lt (x y : Z * bytes) : Prop :=
  (fst x < fst y)%Z \/ (fst x = fst y /\ bytes_lt (snd x) (snd y)).

(** The [(timestamp, hash)] pairs of the stored keys that carry [address],
    in store order. *)
Fixpoint entries_of (address : str) (keys : list bytes) : list (Z * bytes) :=
  match keys with
  | [] => []
  | key :: rest =>
      match _from_key key with
      | Ok (addr, ts, tx_hash) =>
          if str_eqb addr address then (ts, tx_hash) :: entries_of address rest
          else entries_of address rest
      | Raise _ => entries_of address rest
      end
  end.

(** ** Sample data *)

Module sample.

(** A toy script format: the script of an output is its address in ASCII. *)
Definition externals : Externals := {|
  Json := Z * option bytes;
  parse_address_script := fun script =>
    match decode_ascii script with
    | Ok a => if length a =? 34 then Some a else None
    | Raise _ => None
    end;
  to_json_extended := fun tx => (timestamp tx, hash tx)
|}.

Definition A : str := repeat "A"%char 34.
Definition B : str := repeat "B"%char 34.

Definition pay (a : str) : TxOutput := mkTxOutput (map byte_of_ascii a).

Definition hash1 : bytes := repeat x00 31 ++ [x01].
Definition hash2 : bytes := repeat x00 31 ++ [x02].

Definition no_storage : bytes -> option BaseTransaction := fun _ => None.

Definition hash3 : bytes := repeat x00 31 ++ [x03].

(** [T1] pays [A] at time 100, [T2] pays [A] at time 50, [T3] pays [B]. *)
Definition T1 : BaseTransaction := mkTx (Some hash1) 100 [] [pay A] (Some no_storage).
Definition T2 : BaseTransaction := mkTx (Some hash2) 50 [] [pay A] (Some no_storage).
Definition T3 : BaseTransaction := mkTx (Some hash3) 100 [] [pay B] (Some no_storage).

(** An entry to put by hand. *)
Definition entry1 : bytes * bytes := (hash1, []).

Definition empty_db : rocksdb.DB := rocksdb.mkDB [] 0.

Definition empty_world : @World externals :=
  mkWorld empty_db (mkPubSub [] []).

(** The index on a fresh column family, and the world it leaves. *)
Definition opened : result (@RocksDBAddressIndex) * @World externals :=
  __init__ None true empty_world.

Definition index : RocksDBAddressIndex :=
  match fst opened with
  | Ok self => self
  | Raise _ => mkIndex [] (rocksdb.mkHandle [] 0) false
  end.

Definition world0 : @World externals := snd opened.

End sample.

(** ** Terms for the statements *)

(** The output an input consumes, as [_get_addresses] reaches it. *)
Definition consumes (g : bytes -> option BaseTransaction) (txin : TxInput)
  (out : TxOutput) : Prop :=
  exists tx2, g (tx_id txin) = Some tx2 /\
              py_getitem (outputs tx2) (index txin) = Ok out.

(** The names and identities of the column families, and the last identity
    handed out. *)
Definition shape (d : rocksdb.DB) : list bytes * list N * N :=
  (map rocksdb.cf_name (rocksdb.column_families d),
   map rocksdb.cf_id (rocksdb.column_families d),
   rocksdb.max_column_family d).

(** The column families [_fresh_cf] leaves on a well-formed database. *)
Definition reopened (n : bytes) (d : rocksdb.DB) : rocksdb.DB :=
  let i := (rocksdb.max_column_family d + 1)%N in
  rocksdb.mkDB
    (rocksdb.mkColumnFamily n i []
       :: filter (fun cf => negb (bytes_eqb (rocksdb.cf_name cf) n))
            (rocksdb.column_families d))
    i.

(** The name [__init__] settles on. *)
Definition name_or_default (cf_name : option bytes) : bytes :=
  match cf_name with
  | Some (b :: n) => b :: n
  | _ => _CF_NAME_ADDRESS_INDEX
  end.

Section Histories.

Context `{Externals}.

(** The publications of [tx] for a list of addresses. *)
Definition history_of (tx : BaseTransaction) (addresses : list str)
  : list Publication :=
  map (fun a => mkPublication WALLET_ADDRESS_HISTORY a (to_json_extended tx))
    addresses.

End Histories.

(** ** The oracle data encoder, [hathor/cli/oracle_encode_data.py] *)

Module oracle_encode_data.

(** A command-line string, by code point. *)
Definition unicode := list N.

(** What the encoder can raise. *)
Inductive error : Set :=
| ValueError
| struct_error
| UnicodeEncodeError.

Inductive outcome (A : Type) : Type :=
| Return (a : A)
| Raises (e : error).
Arguments Return {A} a.
Arguments Raises {A} e.

(** The bytes of [n] in [width] bytes, most significant first. *)
Fixpoint be_bytes (width : nat) (n : Z) : bytes :=
  match width with
  | O => []
  | S w => be_bytes w (n / 256) ++ [struct.byte_of_Z (n mod 256)]
  end.

(** [struct.pack('!B' | '!H' | '!I' | '!Q', n)], by the width of the format:
    [struct.error] outside [0, 256^width). *)
Definition pack_unsigned (width : nat) (n : Z) : outcome bytes :=
  if ((0 <=? n) && (n <? 256 ^ Z.of_nat width))%Z
  then Return (be_bytes width n)
  else Raises struct_error.

(** The number a byte string stands for, most significant byte first. *)
Definition be_value (b : bytes) : Z :=
  fold_left (fun acc x => (acc * 256 + struct.Z_of_byte x)%Z) b 0%Z.

Section Encoder.

(** Python's [int] on a string; [None] is its [ValueError]. *)
Variable int : unicode -> option Z.

(** [encode_int]. *)
Definition encode_int (data : unicode) : outcome bytes :=
  match int data with
  | None => Raises ValueError
  | Some d =>
      if (d >? 4294967295)%Z then pack_unsigned 8 d
      else if (d >? 65535)%Z then pack_unsigned 4 d
      else if (d >? 255)%Z then pack_unsigned 2 d
      else pack_unsigned 1 d
  end.

Definition byte_of_N (n : N) : byte := struct.byte_of_Z (Z.of_N n).

(** One character in UTF-8; the surrogates have no encoding. *)
Definition utf8_char (c : N) : option bytes :=
  (if c <? 128 then Some [byte_of_N c]
   else if c <? 2048 then
     Some [byte_of_N (192 + c / 64); byte_of_N (128 + c mod 64)]
   else if (55296 <=? c) && (c <=? 57343) then None
   else if c <? 65536 then
     Some [byte_of_N (224 + c / 4096); byte_of_N (128 + (c / 64) mod 64);
           byte_of_N (128 + c mod 64)]
   else if c <? 1114112 then
     Some [byte_of_N (240 + c / 262144); byte_of_N (128 + (c / 4096) mod 64);
           byte_of_N (128 + (c / 64) mod 64); byte_of_N (128 + c mod 64)]
   else None)%N.

(** [data.encode('utf-8')]. *)
Fixpoint encode_utf8 (data : unicode) : outcome bytes :=
  match data with
  | [] => Return []
  | c :: rest =>
      match utf8_char c with
      | None => Raises UnicodeEncodeError
      | Some b =>
          match encode_utf8 rest with
          | Return bs => Return (b ++ bs)
          | Raises e => Raises e
          end
      end
  end.

(** [str(z)] for an [int]: its decimal digits, after a minus sign when
    negative. *)
Definition str_of_int (z : Z) : unicode :=
  map N_of_ascii
    (list_ascii_of_string (DecimalString.NilZero.string_of_int (Z.to_int z))).

(** [encode_str]: the argument is a string or an [int]. *)
Definition encode_str (data : unicode + Z) : outcome bytes :=
  let data := match data with
              | inr z => str_of_int z
              | inl s => s
              end in
  encode_utf8 data.

(** [d.split(':')]. *)
Fixpoint split_colon (d : unicode) : list unicode :=
  match d with
  | [] => [[]]
  | c :: rest =>
      if (c =? 58)%N then [] :: split_colon rest
      else
        match split_colon rest with
        | part :: parts => (c :: part) :: parts
        | [] => [[c]]
        end
  end.

Definition unicode_eqb (a b : unicode) : bool :=
  if list_eq_dec N.eq_dec a b then true else false.

(** ['int'] and ['str']. *)
Definition int_tag : unicode := [105; 110; 116]%N.
Definition str_tag : unicode := [115; 116; 114]%N.

(** How the loop of [main] over [args.data] ends: with the binary data, or
    at an argument of a wrong type, which [main] prints before it returns
    1. *)
Inductive loop_end : Type :=
| Data (binary_data : bytes)
| WrongType (d : unicode).

(** [bytes([n])]: [ValueError] unless [n] is in [range(256)]. *)
Definition bytes_of_length (n : nat) : outcome bytes :=
  if n <=? 255 then Return [struct.byte_of_Z (Z.of_nat n)] else Raises ValueError.

(** The loop of [main] that builds [binary_data]. *)
Fixpoint main_loop (data : list unicode) (binary_data : bytes) : outcome loop_end :=
  match data with
  | [] => Return (Data binary_data)
  | d :: rest =>
      match split_colon d with
      | [t; _data] =>
          let encoded :=
            if unicode_eqb t int_tag then Some (encode_int _data)
            else if unicode_eqb t str_tag then Some (encode_str (inl _data))
            else None in
          match encoded with
          | None => Return (WrongType d)
          | Some (Raises e) => Raises e
          | Some (Return b) =>
              match bytes_of_length (length b) with
              | Raises e => Raises e
              | Return n => main_loop rest (binary_data ++ (n ++ b))
              end
          end
      | _ => Raises ValueError
      end
  end.

(** An argument and the item the loop makes of it. *)
Definition item_of (d : unicode) (item : bytes) : Prop :=
  exists t _data,
    split_colon d = [t; _data] /\
    ((t = int_tag /\ encode_int _data = Return item) \/
     (t = str_tag /\ encode_str (inl _data) = Return item)).

End Encoder.

(** Reading the items back: each is one byte of length and that many
    bytes. *)
Fixpoint read_items (fuel : nat) (binary_data : bytes) : option (list bytes) :=
  match fuel with
  | O => None
  | S fuel' =>
      match binary_data with
      | [] => Some []
      | n :: rest =>
          let len := Z.to_nat (struct.Z_of_byte n) in
          if length rest <? len then None
          else
            match read_items fuel' (skipn len rest) with
            | Some items => Some (firstn len rest :: items)
            | None => None
            end
      end
  end.

(** Items laid out as the loop of [main] does: one byte of length, then the
    item. *)
Definition frames (items : list bytes) : bytes :=
  concat (map (fun item => struct.byte_of_Z (Z.of_nat (length item)) :: item)
            items).

End oracle_encode_data.

(** ** More sample data *)

Module sample_ledger.

(** A storage that has [T1] under its hash and nothing else. *)
Definition ledger : bytes -> option BaseTransaction :=
  fun id => if bytes_eqb id sample.hash1 then Some sample.T1 else None.

Definition hash4 : bytes := repeat x00 31 ++ [x04].

(** [T4] spends the last output of [T1], which pays [A], and pays [B]. *)
Definition T4 : BaseTransaction :=
  mkTx (Some hash4) 200 [mkTxInput sample.hash1 (-1)] [sample.pay sample.B]
    (Some ledger).

(** The index once [T1] is added. *)
Definition world1 : @World sample.externals :=
  after (add_tx sample.index sample.T1) sample.world0.

(** A stand-in for [int]: plain decimal digits only. *)
Definition digits (s : oracle_encode_data.unicode) : option Z :=
  match s with
  | [] => None
  | _ =>
      fold_left
        (fun acc c =>
           match acc with
           | Some n =>
               if ((48 <=? c) && (c <=? 57))%N
               then Some (n * 10 + Z.of_N (c - 48))%Z
               else None
           | None => None
           end) s (Some 0%Z)
  end.

End sample_ledger.

(** * Theorems *)

(** ** Bytes *)

Lemma to_N_inj (x y : byte) : Byte.to_N x = Byte.to_N y -> x = y.
Proof.
  intro E. pose proof (Byte.of_to_N x) as Hx. rewrite E, Byte.of_to_N in Hx.
  now inversion Hx.
Qed.

Lemma bytes_compare_refl (a : bytes) : bytes_compare a a = Eq.
Proof.
  induction a as [|x a IH]; simpl; [reflexivity|].
  now rewrite N.compare_refl.
Qed.

Lemma bytes_compare_eq (a b : bytes) : bytes_compare a b = Eq -> a = b.
Proof.
  revert b; induction a as [|x a IH]; intros [|y b]; simpl; try easy.
  destruct (N.compare_spec (Byte.to_N x) (Byte.to_N y)) as [E| |]; try easy.
  intro H. apply to_N_inj in E. apply IH in H. now subst.
Qed.

Lemma bytes_compare_antisym (a b : bytes) :
  bytes_compare b a = CompOpp (bytes_compare a b).
Proof.
  revert b; induction a as [|x a IH]; intros [|y b]; simpl; try reflexivity.
  rewrite (N.compare_antisym (Byte.to_N x) (Byte.to_N y)).
  destruct (Byte.to_N x ?= Byte.to_N y)%N; simpl; auto.
Qed.

Lemma bytes_lt_irrefl (a : bytes) : ~ bytes_lt a a.
Proof. unfold bytes_lt. now rewrite bytes_compare_refl. Qed.

Lemma bytes_lt_trans (a b c : bytes) : bytes_lt a b -> bytes_lt b c -> bytes_lt a c.
Proof.
  unfold bytes_lt. revert b c.
  induction a as [|x a IH]; intros [|y b] [|z c]; simpl; try easy.
  destruct (N.compare_spec (Byte.to_N x) (Byte.to_N y)) as [E|L|G]; try easy;
    destruct (N.compare_spec (Byte.to_N y) (Byte.to_N z)) as [E'|L'|G']; try easy;
    intros H1 H2.
  - rewrite E, E', N.compare_refl. eauto.
  - rewrite E. now apply N.compare_lt_iff in L' as ->.
  - rewrite <- E'. now apply N.compare_lt_iff in L as ->.
  - assert (Byte.to_N x < Byte.to_N z)%N as L'' by lia.
    now apply N.compare_lt_iff in L'' as ->.
Qed.

(** Two strings that start with blocks of one length compare by the blocks
    first, by the rests next. *)
Lemma bytes_compare_app (x x' y y' : bytes) :
  length x = length x' ->
  bytes_compare (x ++ y) (x' ++ y') =
  match bytes_compare x x' with
  | Eq => bytes_compare y y'
  | c => c
  end.
Proof.
  revert x'; induction x as [|b x IH]; intros [|b' x']; simpl; try easy.
  intro L. injection L as L.
  destruct (Byte.to_N b ?= Byte.to_N b')%N; auto.
Qed.

Lemma bytes_eqb_eq (a b : bytes) : bytes_eqb a b = true <-> a = b.
Proof. unfold bytes_eqb. destruct (list_eq_dec _ a b); split; easy. Qed.

Lemma str_eqb_eq (a b : str) : str_eqb a b = true <-> a = b.
Proof. unfold str_eqb. destruct (list_eq_dec _ a b); split; easy. Qed.

Lemma str_eqb_refl (a : str) : str_eqb a a = true.
Proof. now apply str_eqb_eq. Qed.

(** ** ASCII *)

Lemma is_ascii_byte_of_ascii (c : ascii) :
  is_ascii_byte (byte_of_ascii c) = is_ascii_char c.
Proof. destruct c as [[] [] [] [] [] [] [] []]; reflexivity. Qed.

Lemma is_ascii_char_of_byte (b : byte) :
  is_ascii_char (ascii_of_byte b) = is_ascii_byte b.
Proof.
  rewrite <- (byte_of_ascii_of_byte b) at 2. now rewrite is_ascii_byte_of_ascii.
Qed.

Lemma forallb_map_comp {A B} (f : A -> B) (p : B -> bool) (l : list A) :
  forallb p (map f l) = forallb (fun x => p (f x)) l.
Proof. induction l as [|x l IH]; simpl; [reflexivity|now rewrite IH]. Qed.

Lemma forallb_pointwise {A} (p q : A -> bool) (l : list A) :
  (forall x, p x = q x) -> forallb p l = forallb q l.
Proof. intro E. induction l as [|x l IH]; simpl; [reflexivity|now rewrite E, IH]. Qed.

Lemma decode_encode_ascii (s : str) (b : bytes) :
  encode_ascii s = Ok b -> decode_ascii b = Ok s.
Proof.
  unfold encode_ascii, decode_ascii.
  destruct (forallb is_ascii_char s) eqn:E; [|discriminate].
  intro H; injection H as <-.
  rewrite forallb_map_comp.
  rewrite (forallb_pointwise _ is_ascii_char) by apply is_ascii_byte_of_ascii.
  rewrite E, map_map. f_equal.
  rewrite <- (map_id s) at 2. apply map_ext, ascii_of_byte_of_ascii.
Qed.

Lemma encode_decode_ascii (b : bytes) (s : str) :
  decode_ascii b = Ok s -> encode_ascii s = Ok b.
Proof.
  unfold encode_ascii, decode_ascii.
  destruct (forallb is_ascii_byte b) eqn:E; [|discriminate].
  intro H; injection H as <-.
  rewrite forallb_map_comp.
  rewrite (forallb_pointwise _ is_ascii_byte) by apply is_ascii_char_of_byte.
  rewrite E, map_map. f_equal.
  rewrite <- (map_id b) at 2. apply map_ext, byte_of_ascii_of_byte.
Qed.

Lemma encode_ascii_length (s : str) (b : bytes) :
  encode_ascii s = Ok b -> length b = length s.
Proof.
  unfold encode_ascii. destruct (forallb is_ascii_char s); [|discriminate].
  intro H; injection H as <-. apply length_map.
Qed.

Lemma decode_ascii_length (b : bytes) (s : str) :
  decode_ascii b = Ok s -> length s = length b.
Proof.
  unfold decode_ascii. destruct (forallb is_ascii_byte b); [|discriminate].
  intro H; injection H as <-. apply length_map.
Qed.

(** ** The 32-bit big-endian field *)

Lemma Z_of_byte_of_Z (z : Z) :
  (0 <= z < 256)%Z -> struct.Z_of_byte (struct.byte_of_Z z) = z.
Proof.
  intro R. unfold struct.Z_of_byte, struct.byte_of_Z.
  destruct (Byte.of_N (Z.to_N z)) as [b|] eqn:E.
  - apply Byte.to_of_N in E. rewrite E. lia.
  - apply Byte.of_N_None_iff in E. lia.
Qed.

Lemma Z_of_byte_range (b : byte) : (0 <= struct.Z_of_byte b < 256)%Z.
Proof. unfold struct.Z_of_byte. pose proof (Byte.to_N_bounded b). lia. Qed.

Lemma be32_range (b0 b1 b2 b3 : byte) : (0 <= be32 b0 b1 b2 b3 < 4294967296)%Z.
Proof.
  unfold be32.
  pose proof (Z_of_byte_range b0); pose proof (Z_of_byte_range b1);
    pose proof (Z_of_byte_range b2); pose proof (Z_of_byte_range b3). lia.
Qed.

(** Byte order and numeric order agree on four-byte fields. *)
Lemma be32_compare (b0 b1 b2 b3 c0 c1 c2 c3 : byte) :
  bytes_compare [b0; b1; b2; b3] [c0; c1; c2; c3]
  = (be32 b0 b1 b2 b3 ?= be32 c0 c1 c2 c3)%Z.
Proof.
  pose proof (Z_of_byte_range b0); pose proof (Z_of_byte_range b1);
    pose proof (Z_of_byte_range b2); pose proof (Z_of_byte_range b3).
  pose proof (Z_of_byte_range c0); pose proof (Z_of_byte_range c1);
    pose proof (Z_of_byte_range c2); pose proof (Z_of_byte_range c3).
  unfold be32 in *. unfold struct.Z_of_byte in *. simpl.
  symmetry.
  destruct (N.compare_spec (Byte.to_N b0) (Byte.to_N c0));
    [destruct (N.compare_spec (Byte.to_N b1) (Byte.to_N c1));
     [destruct (N.compare_spec (Byte.to_N b2) (Byte.to_N c2));
      [destruct (N.compare_spec (Byte.to_N b3) (Byte.to_N c3))| |]| |]| |];
    first [ apply Z.compare_eq_iff | apply Z.compare_lt_iff | apply Z.compare_gt_iff ];
    lia.
Qed.

Lemma unpack_pack_I (n : Z) (b : bytes) :
  struct.pack_I n = Ok b -> struct.unpack_I b = Ok n.
Proof.
  unfold struct.pack_I.
  destruct ((0 <=? n) && (n <? 4294967296))%Z eqn:R; [|discriminate].
  apply andb_true_iff in R as [R1 R2].
  apply Z.leb_le in R1. apply Z.ltb_lt in R2.
  intro E; injection E as <-. unfold struct.unpack_I.
  rewrite !Z_of_byte_of_Z by (Z.div_mod_to_equations; lia).
  f_equal. Z.div_mod_to_equations. lia.
Qed.

Lemma pack_I_ok (n : Z) :
  (0 <= n < 4294967296)%Z -> exists b, struct.pack_I n = Ok b /\ length b = 4.
Proof.
  intro R. unfold struct.pack_I.
  replace ((0 <=? n) && (n <? 4294967296))%Z with true.
  - eexists; split; reflexivity.
  - symmetry. apply andb_true_iff. split; [apply Z.leb_le|apply Z.ltb_lt]; lia.
Qed.

Lemma unpack_I_be32 (b : bytes) (n : Z) :
  struct.unpack_I b = Ok n ->
  exists b0 b1 b2 b3, b = [b0; b1; b2; b3] /\ n = be32 b0 b1 b2 b3.
Proof.
  destruct b as [|b0 [|b1 [|b2 [|b3 [|? ?]]]]]; simpl; try discriminate.
  intro E; injection E as <-. now exists b0, b1, b2, b3.
Qed.

(** C4: for 32-bit timestamps [t1 < t2], the four bytes [struct.pack('>I', t1)]
    come strictly before the four bytes [struct.pack('>I', t2)] in byte order:
    the timestamp field of a key sorts as the timestamps do. *)
Theorem pack_I_strictly_monotone (t1 t2 : Z) :
  (0 <= t1)%Z -> (t1 < t2)%Z -> (t2 < 4294967296)%Z ->
  exists b1 b2,
    struct.pack_I t1 = Ok b1 /\ struct.pack_I t2 = Ok b2 /\ bytes_lt b1 b2.
Proof.
  intros R1 L R2.
  destruct (pack_I_ok t1) as (b1 & E1 & _); [lia|].
  destruct (pack_I_ok t2) as (b2 & E2 & _); [lia|].
  exists b1, b2. repeat split; trivial.
  destruct (unpack_I_be32 _ _ (unpack_pack_I _ _ E1)) as (x0 & x1 & x2 & x3 & -> & V1).
  destruct (unpack_I_be32 _ _ (unpack_pack_I _ _ E2)) as (y0 & y1 & y2 & y3 & -> & V2).
  unfold bytes_lt. rewrite be32_compare, <- V1, <- V2.
  now apply Z.compare_lt_iff.
Qed.

Lemma pack_I_strictly_monotone_witness :
  exists b1 b2,
    struct.pack_I 255 = Ok b1 /\ struct.pack_I 256 = Ok b2 /\ bytes_lt b1 b2.
Proof. apply (pack_I_strictly_monotone 255 256); lia. Defined.

(** ** The key codec *)

Lemma firstn_app_length {A} (n : nat) (x y : list A) :
  length x = n -> firstn n (x ++ y) = x.
Proof.
  intros <-. rewrite firstn_app, Nat.sub_diag, firstn_all. simpl.
  apply app_nil_r.
Qed.

Lemma skipn_app_length {A} (n : nat) (x y : list A) :
  length x = n -> skipn n (x ++ y) = y.
Proof.
  intros <-. rewrite skipn_app, Nat.sub_diag, skipn_all. reflexivity.
Qed.

Lemma encode_ascii_ok (a : str) :
  forallb is_ascii_char a = true -> encode_ascii a = Ok (map byte_of_ascii a).
Proof. intro E. unfold encode_ascii. now rewrite E. Qed.

(** The shape of a full key. *)
Lemma to_key_shape (a : str) (tx : BaseTransaction) (key : bytes) :
  _to_key a (Some tx) = Ok key ->
  exists pre ts h,
    key = pre ++ ts ++ h /\
    length a = 34 /\ encode_ascii a = Ok pre /\ length pre = 34 /\
    struct.pack_I (timestamp tx) = Ok ts /\ length ts = 4 /\
    hash tx = Some h /\ length h = 32.
Proof.
  unfold _to_key.
  destruct (length a =? 34) eqn:La; simpl; [|discriminate].
  apply Nat.eqb_eq in La.
  destruct (encode_ascii a) as [pre|] eqn:Ea; simpl; [|discriminate].
  destruct (hash tx) as [h|]; [|discriminate].
  destruct (length h =? 32) eqn:Lh; simpl; [|discriminate].
  apply Nat.eqb_eq in Lh.
  destruct (struct.pack_I (timestamp tx)) as [ts|] eqn:Et; simpl; [|discriminate].
  destruct (length (pre ++ ts ++ h) =? 70) eqn:Lk; simpl; [|discriminate].
  intro E; injection E as <-.
  exists pre, ts, h. repeat split; trivial.
  - rewrite (encode_ascii_length _ _ Ea). exact La.
  - destruct (unpack_I_be32 _ _ (unpack_pack_I _ _ Et)) as (? & ? & ? & ? & -> & _).
    reflexivity.
Qed.

Lemma to_key_ok (a : str) (tx : BaseTransaction) (h : bytes) :
  length a = 34 -> forallb is_ascii_char a = true ->
  hash tx = Some h -> length h = 32 ->
  (0 <= timestamp tx < 4294967296)%Z ->
  exists ts,
    struct.pack_I (timestamp tx) = Ok ts /\ length ts = 4 /\
    _to_key a (Some tx) = Ok (map byte_of_ascii a ++ ts ++ h).
Proof.
  intros La Aa Hh Lh R.
  destruct (pack_I_ok _ R) as (ts & Et & Lt).
  exists ts. repeat split; trivial.
  unfold _to_key. rewrite La, (encode_ascii_ok _ Aa), Hh, Lh, Et. simpl.
  rewrite !length_app, length_map, La, Lt, Lh. reflexivity.
Qed.

Lemma from_key_parts (pre ts h : bytes) (a : str) (t : Z) :
  length pre = 34 -> length ts = 4 -> length h = 32 ->
  decode_ascii pre = Ok a -> struct.unpack_I ts = Ok t ->
  _from_key (pre ++ ts ++ h) = Ok (a, t, h).
Proof.
  intros Lp Lt Lh Da Ut. unfold _from_key.
  assert ((length (pre ++ ts ++ h) =? 34 + 4 + 32) = true) as ->
    by (rewrite !length_app, Lp, Lt, Lh; reflexivity).
  assert (skipn 38 (pre ++ ts ++ h) = h) as ->.
  { rewrite app_assoc. apply skipn_app_length. rewrite length_app. lia. }
  rewrite (firstn_app_length _ _ _ Lp), (skipn_app_length _ _ _ Lp),
    (firstn_app_length _ _ _ Lt), Da, Ut.
  cbv beta iota zeta delta [bind_result assert].
  rewrite (decode_ascii_length _ _ Da), Lp, Lh. reflexivity.
Qed.

(** C3: for an address [a] of 34 ASCII characters and a transaction whose
    hash has 32 bytes and whose timestamp fits 32 bits, [_to_key] gives a
    70-byte key and [_from_key] of that key is [(a, tx.timestamp, tx.hash)]. *)
Theorem from_key_to_key (a : str) (tx : BaseTransaction) (h : bytes) :
  length a = 34 -> forallb is_ascii_char a = true ->
  hash tx = Some h -> length h = 32 ->
  (0 <= timestamp tx < 4294967296)%Z ->
  exists key,
    _to_key a (Some tx) = Ok key /\ length key = 70 /\
    _from_key key = Ok (a, timestamp tx, h).
Proof.
  intros La Aa Hh Lh R.
  destruct (to_key_ok _ _ _ La Aa Hh Lh R) as (ts & Et & Lt & Ek).
  exists (map byte_of_ascii a ++ ts ++ h). split; [exact Ek|]. split.
  - rewrite !length_app, length_map, La, Lt, Lh. reflexivity.
  - apply from_key_parts; trivial.
    + now rewrite length_map.
    + apply decode_encode_ascii, encode_ascii_ok, Aa.
    + now apply unpack_pack_I.
Qed.

(** ** Sorted entries *)

Lemma bytes_compare_gt (a b : bytes) : bytes_compare a b = Gt -> bytes_lt b a.
Proof.
  intro G. unfold bytes_lt. now rewrite bytes_compare_antisym, G.
Qed.

Lemma bytes_eqb_false_lt (a b : bytes) : bytes_lt a b -> bytes_eqb a b = false.
Proof.
  intro L. destruct (bytes_eqb a b) eqn:E; [|reflexivity].
  apply bytes_eqb_eq in E. subst. now apply bytes_lt_irrefl in L.
Qed.

Lemma sorted_entries_cons (e : bytes * bytes) (l : list (bytes * bytes)) :
  sorted_entries (e :: l) <->
  sorted_entries l /\ Forall (fun e' => bytes_lt (fst e) (fst e')) l.
Proof.
  split.
  - intro S. inversion S; subst. now split.
  - intros [S F]. now constructor.
Qed.

Lemma sorted_put_entry (key value : bytes) (l : list (bytes * bytes)) :
  sorted_entries l ->
  sorted_entries (rocksdb.put_entry key value l) /\
  forall e, In e (rocksdb.put_entry key value l) <->
            e = (key, value) \/ (In e l /\ fst e <> key).
Proof.
  induction l as [|[k v] t IH]; intro S.
  - simpl. split; [repeat constructor|]. intro e. intuition auto.
  - apply sorted_entries_cons in S as [St Ft]. simpl in Ft.
    specialize (IH St) as [IHs IHm].
    rewrite Forall_forall in Ft.
    simpl. destruct (bytes_compare key k) eqn:C.
    + apply bytes_compare_eq in C. subst k. split.
      * apply sorted_entries_cons. split; [exact St|]. now apply Forall_forall.
      * intro e. simpl. split.
        -- intros [<-|I]; [now left|]. right. split; [now right|].
           intro E. apply Ft in I. rewrite E in I. now apply bytes_lt_irrefl in I.
        -- intros [->|[[<-|I] N]]; [now left| now elim N |now right].
    + split.
      * apply sorted_entries_cons. split.
        -- apply sorted_entries_cons. split; [exact St|]. now apply Forall_forall.
        -- constructor; [exact C|]. apply Forall_forall. intros e I.
           eapply bytes_lt_trans; [exact C|]. now apply Ft.
      * intro e. simpl. split.
        -- intros [<-|[<-|I]]; [now left| |].
           ++ right. split; [now left|]. simpl. intros ->.
              now apply bytes_lt_irrefl in C.
           ++ right. split; [now right|]. intro E. apply Ft in I. rewrite E in I.
              apply (bytes_lt_irrefl key). eapply bytes_lt_trans; eassumption.
        -- intros [->|[[<-|I] N]]; auto.
    + apply bytes_compare_gt in C. split.
      * apply sorted_entries_cons. split; [exact IHs|].
        apply Forall_forall. intros e I. apply IHm in I as [->|[I _]].
        -- exact C.
        -- now apply Ft.
      * intro e. simpl. rewrite IHm. split.
        -- intros [<-|[->|[I N]]]; auto.
           right. split; [now left|]. simpl. intros ->.
           now apply bytes_lt_irrefl in C.
        -- intros [->|[[<-|I] N]]; auto.
Qed.

Lemma sorted_delete_entry (key : bytes) (l : list (bytes * bytes)) :
  sorted_entries l -> sorted_entries (rocksdb.delete_entry key l).
Proof.
  unfold rocksdb.delete_entry.
  induction l as [|e t IH]; intro S; [constructor|].
  apply sorted_entries_cons in S as [St Ft]. simpl.
  destruct (negb (bytes_eqb (fst e) key)); [|now apply IH].
  apply sorted_entries_cons. split; [now apply IH|].
  rewrite Forall_forall in *. intros e' I. apply filter_In in I as [I _].
  now apply Ft.
Qed.

Lemma in_delete_entry (key : bytes) (l : list (bytes * bytes)) (e : bytes * bytes) :
  In e (rocksdb.delete_entry key l) <-> In e l /\ fst e <> key.
Proof.
  unfold rocksdb.delete_entry. rewrite filter_In.
  destruct (bytes_eqb (fst e) key) eqn:E; simpl.
  - apply bytes_eqb_eq in E. intuition congruence.
  - assert (fst e <> key) by (intro E'; apply bytes_eqb_eq in E'; congruence).
    intuition auto.
Qed.

(** Deleting a key that is not stored changes nothing. *)
Lemma delete_entry_absent (key : bytes) (l : list (bytes * bytes)) :
  ~ In key (map fst l) -> rocksdb.delete_entry key l = l.
Proof.
  unfold rocksdb.delete_entry. induction l as [|e t IH]; simpl; intro N; [reflexivity|].
  destruct (bytes_eqb (fst e) key) eqn:E; simpl.
  - apply bytes_eqb_eq in E. elim N. now left.
  - f_equal. apply IH. intro I. apply N. now right.
Qed.

(** Sorted entries are determined by their members. *)
Lemma sorted_entries_ext (l1 l2 : list (bytes * bytes)) :
  sorted_entries l1 -> sorted_entries l2 ->
  (forall e, In e l1 <-> In e l2) -> l1 = l2.
Proof.
  revert l2. induction l1 as [|e1 t1 IH]; intros [|e2 t2] S1 S2 M.
  - reflexivity.
  - destruct (proj2 (M e2)). now left.
  - destruct (proj1 (M e1)). now left.
  - apply sorted_entries_cons in S1 as [S1 F1].
    apply sorted_entries_cons in S2 as [S2 F2].
    rewrite Forall_forall in F1, F2.
    assert (e1 = e2) as ->.
    { destruct (proj1 (M e1) (or_introl eq_refl)) as [E|I1]; [now symmetry|].
      destruct (proj2 (M e2) (or_introl eq_refl)) as [E|I2]; [exact E|].
      apply F2 in I1. apply F1 in I2.
      elim (bytes_lt_irrefl (fst e1)). eapply bytes_lt_trans; eassumption. }
    f_equal. apply IH; trivial. intro e. split; intro I.
    + destruct (proj1 (M e) (or_intror I)) as [<-|I']; [|exact I'].
      apply F1 in I. now apply bytes_lt_irrefl in I.
    + destruct (proj2 (M e) (or_intror I)) as [<-|I']; [|exact I'].
      apply F2 in I. now apply bytes_lt_irrefl in I.
Qed.

Lemma sorted_put_all (keys : list bytes) (l : list (bytes * bytes)) :
  sorted_entries l ->
  sorted_entries (put_all keys l) /\
  forall e, In e (put_all keys l) <->
            (In (fst e) keys /\ snd e = []) \/ (In e l /\ ~ In (fst e) keys).
Proof.
  revert l. induction keys as [|k keys IH]; intros l S.
  - simpl. split; [exact S|]. intro e. intuition auto.
  - destruct (sorted_put_entry k [] l S) as [S1 M1].
    destruct (IH _ S1) as [S2 M2].
    split; [exact S2|]. intro e.
    change (put_all (k :: keys) l) with (put_all keys (rocksdb.put_entry k [] l)).
    rewrite M2, M1. simpl. destruct e as [ke ve]. simpl.
    destruct (in_dec (list_eq_dec Byte.byte_eq_dec) ke keys) as [I|NI];
      destruct (list_eq_dec Byte.byte_eq_dec ke k) as [E|N];
      intuition (try congruence; auto).
Qed.

Lemma sorted_delete_all (keys : list bytes) (l : list (bytes * bytes)) :
  sorted_entries l ->
  sorted_entries (delete_all keys l) /\
  forall e, In e (delete_all keys l) <-> In e l /\ ~ In (fst e) keys.
Proof.
  revert l. induction keys as [|k keys IH]; intros l S.
  - simpl. split; [exact S|]. intro e. intuition auto.
  - destruct (IH _ (sorted_delete_entry k l S)) as [S2 M2].
    split; [exact S2|]. intro e.
    change (delete_all (k :: keys) l) with (delete_all keys (rocksdb.delete_entry k l)).
    rewrite M2, in_delete_entry. simpl. intuition auto.
Qed.

Lemma put_all_twice (keys : list bytes) (l : list (bytes * bytes)) :
  sorted_entries l -> put_all keys (put_all keys l) = put_all keys l.
Proof.
  intro S. destruct (sorted_put_all keys l S) as [S1 M1].
  destruct (sorted_put_all keys _ S1) as [S2 M2].
  apply sorted_entries_ext; trivial.
  intro e. rewrite M2, M1. intuition auto.
Qed.

Lemma delete_all_put_all (keys : list bytes) (l : list (bytes * bytes)) :
  sorted_entries l ->
  (forall key, In key keys -> ~ In key (map fst l)) ->
  delete_all keys (put_all keys l) = l.
Proof.
  intros S A. destruct (sorted_put_all keys l S) as [S1 M1].
  destruct (sorted_delete_all keys _ S1) as [S2 M2].
  apply sorted_entries_ext; trivial.
  intro e. rewrite M2, M1. split.
  - intuition auto.
  - intro I. assert (~ In (fst e) keys).
    { intro K. apply (A _ K). now apply in_map. }
    intuition auto.
Qed.

(** ** Column families *)

Lemma find_set_cf (i : N) (d : list (bytes * bytes)) (cfs : list rocksdb.ColumnFamily)
  (cf : rocksdb.ColumnFamily) :
  rocksdb.find_cf i cfs = Some cf ->
  rocksdb.find_cf i (rocksdb.set_cf i d cfs)
  = Some (rocksdb.mkColumnFamily (rocksdb.cf_name cf) (rocksdb.cf_id cf) d).
Proof.
  unfold rocksdb.find_cf. induction cfs as [|c t IH]; simpl; [discriminate|].
  destruct (rocksdb.cf_id c =? i)%N eqn:E; simpl.
  - intro F; injection F as <-. simpl. now rewrite E.
  - rewrite E. exact IH.
Qed.

Lemma find_set_cf_none (i : N) (d : list (bytes * bytes)) (cfs : list rocksdb.ColumnFamily) :
  rocksdb.find_cf i cfs = None -> rocksdb.set_cf i d cfs = cfs.
Proof.
  unfold rocksdb.find_cf. induction cfs as [|c t IH]; simpl; [reflexivity|].
  destruct (rocksdb.cf_id c =? i)%N; [discriminate|].
  intro F. now rewrite IH.
Qed.

Lemma set_cf_same (i : N) (cfs : list rocksdb.ColumnFamily) (cf : rocksdb.ColumnFamily) :
  rocksdb.find_cf i cfs = Some cf -> rocksdb.set_cf i (rocksdb.cf_data cf) cfs = cfs.
Proof.
  unfold rocksdb.find_cf. induction cfs as [|c t IH]; simpl; [discriminate|].
  destruct (rocksdb.cf_id c =? i)%N.
  - intro F; injection F as <-. now destruct c.
  - intro F. now rewrite IH.
Qed.

Lemma set_cf_twice (i : N) (d d' : list (bytes * bytes)) (cfs : list rocksdb.ColumnFamily) :
  rocksdb.set_cf i d (rocksdb.set_cf i d' cfs) = rocksdb.set_cf i d cfs.
Proof.
  induction cfs as [|c t IH]; simpl; [reflexivity|].
  destruct (rocksdb.cf_id c =? i)%N eqn:E; simpl; rewrite E; [reflexivity|].
  now rewrite IH.
Qed.

Lemma set_cf_names (i : N) (d : list (bytes * bytes)) (cfs : list rocksdb.ColumnFamily) :
  map rocksdb.cf_name (rocksdb.set_cf i d cfs) = map rocksdb.cf_name cfs /\
  map rocksdb.cf_id (rocksdb.set_cf i d cfs) = map rocksdb.cf_id cfs.
Proof.
  induction cfs as [|c t [IH1 IH2]]; simpl; [now split|].
  destruct (rocksdb.cf_id c =? i)%N; simpl; [now split|].
  now rewrite IH1, IH2.
Qed.

Section IndexFacts.

Context `{Externals}.

Lemma bind_Ok {A B} (m : M A) (k : A -> M B) (w w' : World) (a : A) :
  m w = (Ok a, w') -> bind m k w = k a w'.
Proof. intro E. unfold bind. now rewrite E. Qed.

Lemma bind_Raise {A B} (m : M A) (k : A -> M B) (w w' : World) (e : exn) :
  m w = (Raise e, w') -> bind m k w = (Raise e, w').
Proof. intro E. unfold bind. now rewrite E. Qed.

Lemma bind_lift {A B} (r : result A) (k : A -> M B) (w : World) :
  bind (lift r) k w = match r with Ok a => k a w | Raise e => (Raise e, w) end.
Proof. unfold bind, lift. now destruct r. Qed.

Variable self : RocksDBAddressIndex.

Lemma keyspace_find (w : World) (data : list (bytes * bytes)) :
  keyspace self w = Some data ->
  exists cf,
    rocksdb.find_cf (rocksdb.id (_cf self)) (rocksdb.column_families (db w)) = Some cf
    /\ rocksdb.cf_data cf = data.
Proof.
  unfold keyspace. destruct (rocksdb.find_cf _ _) as [cf|]; simpl; [|discriminate].
  intro E; injection E as <-. now exists cf.
Qed.

Lemma keyspace_set_keyspace (w : World) (data data' : list (bytes * bytes)) :
  keyspace self w = Some data ->
  keyspace self (set_keyspace self data' w) = Some data'.
Proof.
  intro K. apply keyspace_find in K as (cf & F & _).
  unfold keyspace, set_keyspace. simpl. now rewrite (find_set_cf _ _ _ _ F).
Qed.

Lemma set_keyspace_same (w : World) (data : list (bytes * bytes)) :
  keyspace self w = Some data -> set_keyspace self data w = w.
Proof.
  intro K. apply keyspace_find in K as (cf & F & <-).
  unfold set_keyspace. rewrite (set_cf_same _ _ _ F).
  destruct w as [[cfs m] b]. reflexivity.
Qed.

Lemma set_keyspace_twice (w : World) (d d' : list (bytes * bytes)) :
  set_keyspace self d (set_keyspace self d' w) = set_keyspace self d w.
Proof. unfold set_keyspace. simpl. now rewrite set_cf_twice. Qed.

Lemma bus_set_keyspace (w : World) (d : list (bytes * bytes)) :
  bus (set_keyspace self d w) = bus w.
Proof. reflexivity. Qed.

Lemma put_run (w : World) (data : list (bytes * bytes)) (key value : bytes) :
  keyspace self w = Some data ->
  on_db (fun d => rocksdb.put d (_cf self, key) value) w
  = (Ok tt, set_keyspace self (rocksdb.put_entry key value data) w).
Proof.
  intro K. apply keyspace_find in K as (cf & F & <-).
  unfold on_db, rocksdb.put. now rewrite F.
Qed.

Lemma delete_run (w : World) (data : list (bytes * bytes)) (key : bytes) :
  keyspace self w = Some data ->
  on_db (fun d => rocksdb.delete d (_cf self, key)) w
  = (Ok tt, set_keyspace self (rocksdb.delete_entry key data) w).
Proof.
  intro K. apply keyspace_find in K as (cf & F & <-).
  unfold on_db, rocksdb.delete. now rewrite F.
Qed.

(** The loop of [add_tx] puts the keys of [encoded], in order. *)
Lemma add_loop_run (tx : BaseTransaction) (addresses : list str) :
  forall (w : World) (data : list (bytes * bytes)),
    keyspace self w = Some data ->
    for_each addresses (fun address =>
      key <- lift (_to_key address (Some tx)) ;;
      on_db (fun d => rocksdb.put d (_cf self, key) []))%M w
    = (raised (snd (encoded tx addresses)),
       set_keyspace self (put_all (fst (encoded tx addresses)) data) w).
Proof.
  induction addresses as [|a rest IH]; intros w data K.
  - simpl. unfold ret. now rewrite (set_keyspace_same _ _ K).
  - cbn [for_each encoded].
    destruct (_to_key a (Some tx)) as [key|e].
    + erewrite bind_Ok by (rewrite bind_lift; apply (put_run _ _ key [] K)).
      rewrite (IH _ _ (keyspace_set_keyspace _ _ _ K)).
      destruct (encoded tx rest) as [keys e]. simpl.
      now rewrite set_keyspace_twice.
    + erewrite bind_Raise by (rewrite bind_lift; reflexivity).
      simpl. now rewrite (set_keyspace_same _ _ K).
Qed.

(** The loop of [remove_tx] deletes the same keys. *)
Lemma remove_loop_run (tx : BaseTransaction) (addresses : list str) :
  forall (w : World) (data : list (bytes * bytes)),
    keyspace self w = Some data ->
    for_each addresses (fun address =>
      key <- lift (_to_key address (Some tx)) ;;
      on_db (fun d => rocksdb.delete d (_cf self, key)))%M w
    = (raised (snd (encoded tx addresses)),
       set_keyspace self (delete_all (fst (encoded tx addresses)) data) w).
Proof.
  induction addresses as [|a rest IH]; intros w data K.
  - simpl. unfold ret. now rewrite (set_keyspace_same _ _ K).
  - cbn [for_each encoded].
    destruct (_to_key a (Some tx)) as [key|e].
    + erewrite bind_Ok by (rewrite bind_lift; apply (delete_run _ _ key K)).
      rewrite (IH _ _ (keyspace_set_keyspace _ _ _ K)).
      destruct (encoded tx rest) as [keys e]. simpl.
      now rewrite set_keyspace_twice.
    + erewrite bind_Raise by (rewrite bind_lift; reflexivity).
      simpl. now rewrite (set_keyspace_same _ _ K).
Qed.

(** Publishing leaves the database alone and does not raise. *)
Lemma publish_loop_run (data : Json) (addresses : list str) :
  forall w : World,
    exists b,
      for_each addresses
        (fun address => publish WALLET_ADDRESS_HISTORY address data) w
      = (Ok tt, mkWorld (db w) b).
Proof.
  induction addresses as [|a rest IH]; intro w.
  - exists (bus w). simpl. unfold ret. now destruct w.
  - simpl. unfold bind, publish at 1.
    destruct (IH (mkWorld (db w)
      (mkPubSub (subscribers (bus w))
         (published (bus w) ++ [mkPublication WALLET_ADDRESS_HISTORY a data]))))
      as [b E].
    exists b. exact E.
Qed.

Lemma publish_tx_run (tx : BaseTransaction) (addresses : list str) (w : World) :
  exists b, publish_tx self tx (Some addresses) w = (Ok tt, mkWorld (db w) b).
Proof.
  unfold publish_tx. destruct (pubsub self); simpl.
  - unfold bind, ret. apply publish_loop_run.
  - exists (bus w). unfold ret. now destruct w.
Qed.

End IndexFacts.

(** ** [add_tx] and [remove_tx] *)

Section AddRemove.

Context `{Externals}.

Variable self : RocksDBAddressIndex.

Lemma keyspace_db (w w' : World) : db w = db w' -> keyspace self w = keyspace self w'.
Proof. unfold keyspace. now intros ->. Qed.

(** What [add_tx] returns and what it leaves in the database. *)
Lemma add_tx_run (tx : BaseTransaction) (w : World) (data : list (bytes * bytes)) :
  keyspace self w = Some data ->
  exists b,
    add_tx self tx w
    = (tx_raised tx,
       mkWorld (db (set_keyspace self (put_all (tx_keys tx) data) w)) b).
Proof.
  intro K. unfold add_tx, tx_raised, tx_keys.
  destruct (hash tx) as [h|]; rewrite bind_lift; cbn [is_some assert].
  - rewrite bind_lift.
    destruct (_get_addresses tx) as [addresses|e].
    + destruct (encoded tx addresses) as [keys [e|]] eqn:E.
      * exists (bus w). erewrite bind_Raise;
          [reflexivity | rewrite (add_loop_run _ _ _ _ _ K), E; reflexivity].
      * erewrite bind_Ok by (rewrite (add_loop_run _ _ _ _ _ K), E; reflexivity).
        cbn [fst]. apply publish_tx_run.
    + exists (bus w). change (put_all [] data) with data.
      rewrite (set_keyspace_same _ _ _ K). now destruct w.
  - exists (bus w). change (put_all [] data) with data.
    rewrite (set_keyspace_same _ _ _ K). now destruct w.
Qed.

(** What [remove_tx] returns and what it leaves. *)
Lemma remove_tx_run (tx : BaseTransaction) (w : World) (data : list (bytes * bytes)) :
  keyspace self w = Some data ->
  remove_tx self tx w
  = (tx_raised tx, set_keyspace self (delete_all (tx_keys tx) data) w).
Proof.
  intro K. unfold remove_tx, tx_raised, tx_keys.
  destruct (hash tx) as [h|]; rewrite bind_lift; cbn [is_some assert].
  - rewrite bind_lift.
    destruct (_get_addresses tx) as [addresses|e].
    + now rewrite (remove_loop_run _ _ _ _ _ K).
    + change (delete_all [] data) with data.
      now rewrite (set_keyspace_same _ _ _ K).
  - change (delete_all [] data) with data.
    now rewrite (set_keyspace_same _ _ _ K).
Qed.

Lemma in_encoded (tx : BaseTransaction) (addresses : list str) (key : bytes) :
  In key (fst (encoded tx addresses)) ->
  exists a, In a addresses /\ _to_key a (Some tx) = Ok key.
Proof.
  induction addresses as [|a rest IH]; simpl; [easy|].
  destruct (_to_key a (Some tx)) as [k|e] eqn:E; [|easy].
  destruct (encoded tx rest) as [keys e]. simpl in *.
  intros [<-|I].
  - exists a. auto.
  - destruct (IH I) as (a' & I' & E'). exists a'. auto.
Qed.

(** Each key of [tx] is the key of one of its addresses. *)
Lemma in_tx_keys (tx : BaseTransaction) (key : bytes) :
  In key (tx_keys tx) ->
  exists addresses a,
    _get_addresses tx = Ok addresses /\ In a addresses /\
    _to_key a (Some tx) = Ok key.
Proof.
  unfold tx_keys. destruct (hash tx); [|easy].
  destruct (_get_addresses tx) as [addresses|]; [|easy].
  intro I. apply in_encoded in I as (a & I & E). now exists addresses, a.
Qed.

(** C6: on an index whose entries are in key order, a second [add_tx(tx)]
    right after the first returns as the first did and leaves the database,
    hence the keyspace of the index, exactly as the first left it. *)
Theorem add_tx_twice (tx : BaseTransaction) (w : World) (data : list (bytes * bytes)) :
  keyspace self w = Some data -> sorted_entries data ->
  let w1 := after (add_tx self tx) w in
  let w2 := after (add_tx self tx) w1 in
  db w2 = db w1 /\ keyspace self w2 = keyspace self w1 /\
  fst (add_tx self tx w1) = fst (add_tx self tx w).
Proof.
  intros K S w1 w2.
  destruct (add_tx_run tx w data K) as [b E].
  assert (keyspace self w1 = Some (put_all (tx_keys tx) data)) as K1.
  { unfold w1, after. rewrite E. simpl snd.
    rewrite <- (keyspace_set_keyspace _ _ _ (put_all (tx_keys tx) data) K).
    now apply keyspace_db. }
  destruct (add_tx_run tx w1 _ K1) as [b' E'].
  assert (db w2 = db w1) as D.
  { unfold w2, after. rewrite E'. simpl snd. simpl db at 1.
    rewrite (put_all_twice _ _ S).
    unfold w1, after. rewrite E. simpl. now rewrite set_cf_twice. }
  split; [exact D|]. split; [now apply keyspace_db|].
  now rewrite E', E.
Qed.

End AddRemove.

Section RemoveTx.

Context `{Externals}.

Variable self : RocksDBAddressIndex.

Lemma in_delete_all (keys : list bytes) (l : list (bytes * bytes)) (e : bytes * bytes) :
  In e (delete_all keys l) <-> In e l /\ ~ In (fst e) keys.
Proof.
  revert l. induction keys as [|k keys IH]; intro l.
  - simpl. intuition auto.
  - change (delete_all (k :: keys) l) with (delete_all keys (rocksdb.delete_entry k l)).
    rewrite IH, in_delete_entry. simpl. intuition auto.
Qed.

(** Without its column family the loop of [remove_tx] stops at once. *)
Lemma remove_loop_dead (tx : BaseTransaction) (addresses : list str) (w : World) :
  keyspace self w = None ->
  snd (for_each addresses (fun address =>
         key <- lift (_to_key address (Some tx)) ;;
         on_db (fun d => rocksdb.delete d (_cf self, key)))%M w) = w.
Proof.
  intro K. destruct addresses as [|a rest]; [reflexivity|].
  cbn [for_each]. unfold bind at 1. rewrite bind_lift.
  destruct (_to_key a (Some tx)) as [key|e]; [|reflexivity].
  unfold on_db, rocksdb.delete. unfold keyspace in K.
  destruct (rocksdb.find_cf _ _); [discriminate|reflexivity].
Qed.

Lemma remove_tx_bus (tx : BaseTransaction) (w : World) :
  bus (after (remove_tx self tx) w) = bus w.
Proof.
  destruct (keyspace self w) as [data|] eqn:K.
  - unfold after. now rewrite (remove_tx_run _ _ _ _ K).
  - unfold after, remove_tx. rewrite bind_lift.
    destruct (assert (is_some (hash tx))); [|reflexivity].
    rewrite bind_lift. destruct (_get_addresses tx); [|reflexivity].
    now rewrite remove_loop_dead.
Qed.

Lemma encoded_complete (tx : BaseTransaction) (addresses : list str) (a : str) :
  snd (encoded tx addresses) = None -> In a addresses ->
  exists key, _to_key a (Some tx) = Ok key /\ In key (fst (encoded tx addresses)).
Proof.
  induction addresses as [|a' rest IH]; simpl; [easy|].
  destruct (_to_key a' (Some tx)) as [k|e] eqn:E; [|easy].
  destruct (encoded tx rest) as [keys e]. simpl in *.
  intros N [<-|I].
  - exists k. auto.
  - destruct (IH N I) as (key & E' & I'). exists key. auto.
Qed.

(** C8: [remove_tx(tx)] leaves the event bus as it was, subscribers and
    publications alike.  All it does is delete, from the keyspace of the
    index, the entries under the keys of [tx]; each of those is the key
    [_to_key(address, tx)] of an address of [tx], all of them when the call
    returns; and deleting a key that is not stored changes nothing. *)
Theorem remove_tx_publishes_nothing (tx : BaseTransaction) (w : World) :
  bus (after (remove_tx self tx) w) = bus w /\
  (forall data, keyspace self w = Some data ->
     exists data',
       keyspace self (after (remove_tx self tx) w) = Some data' /\
       forall e, In e data' <-> In e data /\ ~ In (fst e) (tx_keys tx)) /\
  (forall key, In key (tx_keys tx) ->
     exists addresses a,
       _get_addresses tx = Ok addresses /\ In a addresses /\
       _to_key a (Some tx) = Ok key) /\
  (fst (remove_tx self tx w) = Ok tt ->
   forall addresses a,
     _get_addresses tx = Ok addresses -> In a addresses ->
     exists key, _to_key a (Some tx) = Ok key /\ In key (tx_keys tx)) /\
  (forall key data, ~ In key (map fst data) -> rocksdb.delete_entry key data = data).
Proof.
  split; [apply remove_tx_bus|]. split; [|split; [|split]].
  - intros data K. exists (delete_all (tx_keys tx) data). split.
    + unfold after. rewrite (remove_tx_run _ _ _ _ K). simpl snd.
      apply (keyspace_set_keyspace _ _ _ _ K).
    + intro e. apply in_delete_all.
  - apply in_tx_keys.
  - intros R addresses a G I.
    assert (tx_raised tx = Ok tt) as T.
    { destruct (keyspace self w) as [data|] eqn:K.
      - now rewrite (remove_tx_run _ _ _ _ K) in R.
      - revert R. unfold remove_tx, tx_raised. rewrite bind_lift.
        destruct (hash tx); [|easy]. cbn [is_some assert].
        rewrite bind_lift, G.
        destruct addresses as [|a' rest]; [easy|].
        cbn [for_each encoded]. unfold bind at 1. rewrite bind_lift.
        destruct (_to_key a' (Some tx)) as [key|e]; [|easy].
        unfold on_db, rocksdb.delete. unfold keyspace in K.
        destruct (rocksdb.find_cf _ _); [discriminate|easy]. }
    unfold tx_raised, tx_keys in *. destruct (hash tx); [|easy].
    rewrite G in *. apply encoded_complete; trivial.
    now destruct (snd (encoded tx addresses)).
  - apply delete_entry_absent.
Qed.

Lemma is_address_empty_db (a : str) (w w' : World) :
  db w = db w' ->
  fst (is_address_empty self a w) = fst (is_address_empty self a w').
Proof.
  intro D. unfold is_address_empty, bind, lift, ret. rewrite D.
  destruct (rocksdb.iterkeys (db w') (_cf self)); [|reflexivity].
  destruct (_to_key a None); [|reflexivity].
  destruct (_from_key _) as [[[? ?] ?]|]; reflexivity.
Qed.

(** C7, amended: when none of the keys of [tx] is stored before the add,
    [remove_tx(tx)] right after [add_tx(tx)] leaves the database as it was
    before the add; so [is_address_empty(a)] gives after the removal what it
    gave before the add, for every address [a]. *)
Theorem remove_tx_after_add_tx (tx : BaseTransaction) (w : World)
  (data : list (bytes * bytes)) :
  keyspace self w = Some data -> sorted_entries data ->
  (forall addresses a key,
     _get_addresses tx = Ok addresses -> In a addresses ->
     _to_key a (Some tx) = Ok key -> ~ In key (map fst data)) ->
  let w2 := after (remove_tx self tx) (after (add_tx self tx) w) in
  db w2 = db w /\
  forall a, fst (is_address_empty self a w2) = fst (is_address_empty self a w).
Proof.
  intros K S A w2.
  assert (db w2 = db w) as D.
  { destruct (add_tx_run self tx w data K) as [b E].
    assert (keyspace self (after (add_tx self tx) w)
            = Some (put_all (tx_keys tx) data)) as K1.
    { unfold after. rewrite E. simpl snd.
      rewrite <- (keyspace_set_keyspace _ _ _ (put_all (tx_keys tx) data) K).
      now apply keyspace_db. }
    unfold w2, after at 1. rewrite (remove_tx_run _ _ _ _ K1). simpl snd.
    rewrite delete_all_put_all; trivial.
    - unfold after. rewrite E. simpl. rewrite set_cf_twice.
      apply keyspace_find in K as (cf & F & <-).
      rewrite (set_cf_same _ _ _ F). now destruct w as [[? ?] ?].
    - intros key I. apply in_tx_keys in I as (addresses & a & G & Ia & Ek).
      eauto. }
  split; [exact D|]. intro a. now apply is_address_empty_db.
Qed.

End RemoveTx.

(** ** Well-formed keys *)

Lemma key_ok_decode (key : bytes) :
  key_ok key ->
  exists pre b0 b1 b2 b3 h,
    key = pre ++ [b0; b1; b2; b3] ++ h /\
    length pre = 34 /\ length h = 32 /\
    forallb is_ascii_byte pre = true /\
    firstn 34 key = pre /\
    _from_key key = Ok (map ascii_of_byte pre, be32 b0 b1 b2 b3, h).
Proof.
  intros [L A].
  pose proof (firstn_skipn 34 key) as E1.
  pose proof (firstn_skipn 4 (skipn 34 key)) as E2.
  assert (length (firstn 34 key) = 34) as Lp by (rewrite length_firstn; lia).
  assert (length (firstn 4 (skipn 34 key)) = 4) as Lt
    by (rewrite length_firstn, length_skipn; lia).
  assert (length (skipn 4 (skipn 34 key)) = 32) as Lh
    by (rewrite !length_skipn; lia).
  destruct (firstn 4 (skipn 34 key)) as [|b0 [|b1 [|b2 [|b3 [|? ?]]]]] eqn:T;
    try discriminate.
  exists (firstn 34 key), b0, b1, b2, b3, (skipn 4 (skipn 34 key)).
  assert (key = firstn 34 key ++ [b0; b1; b2; b3] ++ skipn 4 (skipn 34 key)) as K
    by (now rewrite E2, E1).
  repeat split; trivial.
  rewrite K at 1. apply from_key_parts; trivial.
  unfold decode_ascii. now rewrite A.
Qed.

Lemma to_key_key_ok (a : str) (tx : BaseTransaction) (key : bytes) :
  _to_key a (Some tx) = Ok key -> key_ok key.
Proof.
  intro E. apply to_key_shape in E
    as (pre & ts & h & -> & La & Ea & Lp & Et & Lt & Hh & Lh).
  split.
  - rewrite !length_app. lia.
  - rewrite (firstn_app_length _ _ _ Lp).
    apply decode_encode_ascii in Ea. unfold decode_ascii in Ea.
    now destruct (forallb is_ascii_byte pre).
Qed.

Lemma to_key_prefix (a : str) :
  length a = 34 -> forallb is_ascii_char a = true ->
  _to_key a None = Ok (map byte_of_ascii a).
Proof.
  intros L A. unfold _to_key. now rewrite L, (encode_ascii_ok _ A).
Qed.

Lemma map_ascii_of_byte_of_ascii (a : str) :
  map ascii_of_byte (map byte_of_ascii a) = a.
Proof.
  rewrite map_map. rewrite <- (map_id a) at 2. apply map_ext, ascii_of_byte_of_ascii.
Qed.

Lemma map_byte_of_ascii_of_byte (b : bytes) :
  map byte_of_ascii (map ascii_of_byte b) = b.
Proof.
  rewrite map_map. rewrite <- (map_id b) at 2. apply map_ext, byte_of_ascii_of_byte.
Qed.

(** A key decodes to [a] exactly when it starts with the bytes of [a]. *)
Lemma key_ok_address (key : bytes) (a : str) :
  key_ok key ->
  exists addr ts h,
    _from_key key = Ok (addr, ts, h) /\
    (str_eqb addr a = true <-> firstn 34 key = map byte_of_ascii a).
Proof.
  intro K. destruct (key_ok_decode _ K)
    as (pre & b0 & b1 & b2 & b3 & h & _ & _ & _ & _ & F & D).
  exists (map ascii_of_byte pre), (be32 b0 b1 b2 b3), h. split; [exact D|].
  rewrite F, str_eqb_eq. split.
  - intros <-. now rewrite map_byte_of_ascii_of_byte.
  - intros ->. apply map_ascii_of_byte_of_ascii.
Qed.

Lemma bytes_lt_le_trans (a b c : bytes) :
  bytes_lt a b -> bytes_compare b c <> Gt -> bytes_lt a c.
Proof.
  intros L N. destruct (bytes_compare b c) eqn:C; [| |easy].
  - apply bytes_compare_eq in C. now subst.
  - eapply bytes_lt_trans; eassumption.
Qed.

Lemma bytes_le_lt_trans (a b c : bytes) :
  bytes_compare a b <> Gt -> bytes_lt b c -> bytes_lt a c.
Proof.
  intros N L. destruct (bytes_compare a b) eqn:C; [| |easy].
  - apply bytes_compare_eq in C. now subst.
  - eapply bytes_lt_trans; eassumption.
Qed.

(** A full key against a 34-byte prefix: the address part decides, and a key
    that starts with the prefix comes after it. *)
Lemma key_compare_prefix (key p : bytes) :
  key_ok key -> length p = 34 ->
  bytes_compare key p =
  match bytes_compare (firstn 34 key) p with
  | Eq => Gt
  | c => c
  end.
Proof.
  intros K Lp. destruct (key_ok_decode _ K)
    as (pre & b0 & b1 & b2 & b3 & h & E & L & _ & _ & F & _).
  rewrite F. rewrite E at 1. rewrite <- (app_nil_r p) at 1.
  rewrite bytes_compare_app by congruence. reflexivity.
Qed.

(** Keys in order have their address parts in order. *)
Lemma key_lt_address (k k' : bytes) :
  key_ok k -> key_ok k' -> bytes_lt k k' ->
  bytes_compare (firstn 34 k) (firstn 34 k') <> Gt.
Proof.
  intros K K' L.
  destruct (key_ok_decode _ K) as (pre & b0 & b1 & b2 & b3 & h & E & Lp & _ & _ & F & _).
  destruct (key_ok_decode _ K')
    as (pre' & c0 & c1 & c2 & c3 & h' & E' & Lp' & _ & _ & F' & _).
  rewrite F, F'. unfold bytes_lt in L. rewrite E, E' in L.
  rewrite bytes_compare_app in L by congruence.
  destruct (bytes_compare pre pre'); congruence.
Qed.

(** Among keys of one address, key order is timestamp order, then hash
    order. *)
Lemma key_lt_ts_hash (k k' : bytes) (a : str) (ts ts' : Z) (h h' : bytes) :
  key_ok k -> key_ok k' -> bytes_lt k k' ->
  _from_key k = Ok (a, ts, h) -> _from_key k' = Ok (a, ts', h') ->
  ts_hash_lt (ts, h) (ts', h').
Proof.
  intros K K' L D D'.
  destruct (key_ok_decode _ K)
    as (pre & b0 & b1 & b2 & b3 & g & E & Lp & _ & _ & _ & D1).
  destruct (key_ok_decode _ K')
    as (pre' & c0 & c1 & c2 & c3 & g' & E' & Lp' & _ & _ & _ & D1').
  rewrite D1 in D. rewrite D1' in D'.
  injection D as Ea <- <-. injection D' as Ea' <- <-.
  assert (pre = pre') as <-.
  { rewrite <- (map_byte_of_ascii_of_byte pre), Ea, <- Ea'.
    apply map_byte_of_ascii_of_byte. }
  unfold bytes_lt in L. rewrite E, E' in L.
  rewrite bytes_compare_app, bytes_compare_refl in L by reflexivity.
  rewrite (bytes_compare_app [b0; b1; b2; b3] [c0; c1; c2; c3]) in L by reflexivity.
  rewrite be32_compare in L. unfold ts_hash_lt. simpl.
  destruct (Z.compare_spec (be32 b0 b1 b2 b3) (be32 c0 c1 c2 c3)); auto.
  discriminate.
Qed.

Lemma byte_of_Z_of_byte (b : byte) : struct.byte_of_Z (struct.Z_of_byte b) = b.
Proof.
  unfold struct.byte_of_Z, struct.Z_of_byte. rewrite N2Z.id.
  now rewrite Byte.of_to_N.
Qed.

Lemma pack_I_be32 (b0 b1 b2 b3 : byte) :
  struct.pack_I (be32 b0 b1 b2 b3) = Ok [b0; b1; b2; b3].
Proof.
  pose proof (be32_range b0 b1 b2 b3) as R.
  pose proof (Z_of_byte_range b0); pose proof (Z_of_byte_range b1);
    pose proof (Z_of_byte_range b2); pose proof (Z_of_byte_range b3).
  unfold struct.pack_I.
  replace ((0 <=? be32 b0 b1 b2 b3) && (be32 b0 b1 b2 b3 <? 4294967296))%Z
    with true
    by (symmetry; apply andb_true_iff; split;
        [apply Z.leb_le|apply Z.ltb_lt]; lia).
  unfold be32 in *.
  replace ((((struct.Z_of_byte b0 * 256 + struct.Z_of_byte b1) * 256
             + struct.Z_of_byte b2) * 256 + struct.Z_of_byte b3) / 16777216)%Z
    with (struct.Z_of_byte b0) by (Z.div_mod_to_equations; lia).
  replace (((((struct.Z_of_byte b0 * 256 + struct.Z_of_byte b1) * 256
              + struct.Z_of_byte b2) * 256 + struct.Z_of_byte b3) / 65536)
           mod 256)%Z
    with (struct.Z_of_byte b1) by (Z.div_mod_to_equations; lia).
  replace (((((struct.Z_of_byte b0 * 256 + struct.Z_of_byte b1) * 256
              + struct.Z_of_byte b2) * 256 + struct.Z_of_byte b3) / 256)
           mod 256)%Z
    with (struct.Z_of_byte b2) by (Z.div_mod_to_equations; lia).
  replace ((((struct.Z_of_byte b0 * 256 + struct.Z_of_byte b1) * 256
             + struct.Z_of_byte b2) * 256 + struct.Z_of_byte b3) mod 256)%Z
    with (struct.Z_of_byte b3) by (Z.div_mod_to_equations; lia).
  now rewrite !byte_of_Z_of_byte.
Qed.

Lemma from_key_key_ok (key : bytes) (r : str * Z * bytes) :
  _from_key key = Ok r -> key_ok key.
Proof.
  unfold _from_key, key_ok.
  destruct (length key =? 34 + 4 + 32) eqn:L; [|discriminate].
  apply Nat.eqb_eq in L. cbv beta iota delta [bind_result assert].
  unfold decode_ascii.
  destruct (forallb is_ascii_byte (firstn 34 key)); [|discriminate].
  intros _. now split.
Qed.

(** ** The prefix scan *)

Lemma entries_of_in (a : str) (keys : list bytes) (ts : Z) (h : bytes) :
  In (ts, h) (entries_of a keys) <->
  exists key, In key keys /\ _from_key key = Ok (a, ts, h).
Proof.
  induction keys as [|k t IH]; simpl.
  - split; [easy|]. now intros (key & [] & _).
  - destruct (_from_key k) as [[[addr ts0] h0]|e] eqn:D.
    + destruct (str_eqb addr a) eqn:E.
      * apply str_eqb_eq in E. subst addr. simpl. rewrite IH. split.
        -- intros [P|(key & I & D')].
           ++ injection P as <- <-. exists k. auto.
           ++ exists key. auto.
        -- intros (key & [<-|I] & D').
           ++ left. congruence.
           ++ right. exists key. auto.
      * rewrite IH. split.
        -- intros (key & I & D'). exists key. auto.
        -- intros (key & [<-|I] & D').
           ++ rewrite D in D'. injection D' as -> _ _.
              now rewrite str_eqb_refl in E.
           ++ exists key. auto.
    + rewrite IH. split.
      * intros (key & I & D'). exists key. auto.
      * intros (key & [<-|I] & D'); [congruence|]. exists key. auto.
Qed.

Lemma entries_of_none (a : str) (keys : list bytes) :
  Forall key_ok keys ->
  (forall key, In key keys -> firstn 34 key <> map byte_of_ascii a) ->
  entries_of a keys = [].
Proof.
  induction keys as [|k t IH]; intros F N; [reflexivity|].
  inversion F as [|? ? K Ft]; subst. simpl.
  destruct (key_ok_address k a K) as (addr & ts & h & D & A).
  rewrite D. destruct (str_eqb addr a).
  - elim (N k (or_introl eq_refl)). now apply A.
  - apply IH; trivial. intros key I. apply N. now right.
Qed.

Section Scan.

Variable a : str.
Hypothesis a_length : length a = 34.

Lemma p_length : length (map byte_of_ascii a) = 34.
Proof. now rewrite length_map. Qed.

(** From a position where no key is below the prefix, the loop yields the
    hashes of the keys of [a] and stops. *)
Lemma scan_from (keys : list bytes) :
  StronglySorted bytes_lt keys -> Forall key_ok keys ->
  (forall key, In key keys ->
     bytes_compare (firstn 34 key) (map byte_of_ascii a) <> Lt) ->
  scan a keys = Ok (map snd (entries_of a keys)).
Proof.
  induction keys as [|k t IH]; intros S F N; [reflexivity|].
  inversion S as [|? ? St Ft]; subst. inversion F as [|? ? K Fk]; subst.
  rewrite Forall_forall in Ft, Fk.
  destruct (key_ok_address k a K) as (addr & ts & h & D & A).
  simpl. rewrite D. cbn [bind_result].
  destruct (str_eqb addr a) eqn:E; cbn [negb].
  - rewrite IH; trivial.
    + now apply Forall_forall.
    + intros key I. apply N. now right.
  - rewrite entries_of_none; [reflexivity|now apply Forall_forall|].
    intros key I Ek.
    assert (bytes_lt (map byte_of_ascii a) (firstn 34 k)) as Lk.
    { specialize (N k (or_introl eq_refl)).
      destruct (bytes_compare (firstn 34 k) (map byte_of_ascii a)) eqn:C;
        [|easy|].
      - apply bytes_compare_eq in C. apply A in C. congruence.
      - now apply bytes_compare_gt. }
    apply (bytes_lt_irrefl (map byte_of_ascii a)).
    apply (bytes_lt_le_trans _ _ _ Lk).
    rewrite <- Ek. apply key_lt_address; auto.
Qed.

(** After the seek to the prefix of [a], the loop yields the hashes of all
    the stored keys of [a], in store order. *)
Lemma scan_lower_bound (keys : list bytes) :
  StronglySorted bytes_lt keys -> Forall key_ok keys ->
  scan a (rocksdb.lower_bound (map byte_of_ascii a) keys)
  = Ok (map snd (entries_of a keys)).
Proof.
  induction keys as [|k t IH]; intros S F; [reflexivity|].
  inversion S as [|? ? St Ft]; subst. inversion F as [|? ? K Fk]; subst.
  rewrite Forall_forall in Ft, Fk.
  pose proof (key_compare_prefix k (map byte_of_ascii a) K p_length) as C.
  assert (bytes_compare k (map byte_of_ascii a) <> Lt ->
          scan a (k :: t) = Ok (map snd (entries_of a (k :: t)))) as G.
  { intro NL. apply scan_from; trivial.
    intros key [<-|I] L.
    - apply NL. now rewrite C, L.
    - apply NL. rewrite C.
      assert (bytes_lt (firstn 34 k) (map byte_of_ascii a)) as ->;
        [|reflexivity].
      eapply bytes_le_lt_trans; [|exact L]. apply key_lt_address; auto. }
  cbn [rocksdb.lower_bound].
  destruct (bytes_compare k (map byte_of_ascii a)) eqn:Ck;
    try (apply G; discriminate).
  rewrite IH; trivial; [|now apply Forall_forall].
  simpl. destruct (key_ok_address k a K) as (addr & ts & h & D & A).
  rewrite D. destruct (str_eqb addr a); [|reflexivity].
  assert (firstn 34 k = map byte_of_ascii a) as E by now apply A.
  rewrite E, bytes_compare_refl in C. discriminate.
Qed.

Lemma entries_of_sorted (keys : list bytes) :
  StronglySorted bytes_lt keys -> Forall key_ok keys ->
  StronglySorted ts_hash_lt (entries_of a keys).
Proof.
  induction keys as [|k t IH]; intros S F; [constructor|].
  inversion S as [|? ? St Ft]; subst. inversion F as [|? ? K Fk]; subst.
  rewrite Forall_forall in Ft, Fk.
  simpl. destruct (_from_key k) as [[[addr ts] h]|e] eqn:D.
  - destruct (str_eqb addr a) eqn:E.
    + apply str_eqb_eq in E. subst addr. constructor.
      * apply IH; trivial. now apply Forall_forall.
      * apply Forall_forall. intros [ts' h'] I.
        apply entries_of_in in I as (key & I & D').
        apply (key_lt_ts_hash k key a); auto.
    + apply IH; trivial. now apply Forall_forall.
  - apply IH; trivial. now apply Forall_forall.
Qed.

End Scan.

(** ** The queries *)

Lemma sorted_entries_keys (data : list (bytes * bytes)) :
  sorted_entries data -> StronglySorted bytes_lt (map fst data).
Proof.
  induction data as [|e t IH]; intro S; [constructor|].
  apply sorted_entries_cons in S as [St Ft]. simpl. constructor; [now apply IH|].
  rewrite Forall_forall in *. intros k I.
  apply in_map_iff in I as (e' & <- & I). now apply Ft.
Qed.

Lemma Forall_key_ok_keys (data : list (bytes * bytes)) :
  Forall (fun e => key_ok (fst e)) data -> Forall key_ok (map fst data).
Proof. intro F. now apply Forall_map. Qed.

(** The hashes of the entries of [a] are the last 32 bytes of the stored
    keys that start with the bytes of [a], in store order. *)
Lemma entries_of_raw (a : str) (keys : list bytes) :
  Forall key_ok keys ->
  map snd (entries_of a keys)
  = map (skipn 38)
      (filter (fun key => bytes_eqb (firstn 34 key) (map byte_of_ascii a)) keys).
Proof.
  induction keys as [|k t IH]; intro F; [reflexivity|].
  inversion F as [|? ? K Ft]; subst. cbn [entries_of filter].
  destruct (key_ok_decode _ K)
    as (pre & b0 & b1 & b2 & b3 & h & E & Lp & Lh & A & Fp & D).
  rewrite D.
  assert (skipn 38 k = h) as Sk.
  { rewrite E, app_assoc. apply skipn_app_length. rewrite length_app, Lp.
    reflexivity. }
  destruct (str_eqb (map ascii_of_byte pre) a) eqn:Ea.
  - apply str_eqb_eq in Ea.
    assert (bytes_eqb (firstn 34 k) (map byte_of_ascii a) = true) as ->.
    { apply bytes_eqb_eq. rewrite Fp, <- Ea. symmetry.
      apply map_byte_of_ascii_of_byte. }
    cbn [map snd]. rewrite Sk, IH; trivial.
  - assert (bytes_eqb (firstn 34 k) (map byte_of_ascii a) = false) as ->.
    { destruct (bytes_eqb (firstn 34 k) (map byte_of_ascii a)) eqn:B;
        [|reflexivity].
      apply bytes_eqb_eq in B. rewrite Fp in B.
      rewrite B, map_ascii_of_byte_of_ascii, str_eqb_refl in Ea. discriminate. }
    now apply IH.
Qed.

(** An entry [(ts, h)] of [a] is there exactly when the key made of the
    bytes of [a], the four bytes of [ts] and the 32 bytes of [h] is stored. *)
Lemma entries_of_bytes (a : str) (keys : list bytes) (ts : Z) (h : bytes) :
  length a = 34 -> forallb is_ascii_char a = true ->
  (In (ts, h) (entries_of a keys) <->
   exists field,
     struct.pack_I ts = Ok field /\ length h = 32 /\
     In (map byte_of_ascii a ++ field ++ h) keys).
Proof.
  intros L A. rewrite entries_of_in. split.
  - intros (key & I & D). pose proof (from_key_key_ok _ _ D) as K.
    destruct (key_ok_decode _ K)
      as (pre & b0 & b1 & b2 & b3 & g & E & Lp & Lg & Ap & _ & D').
    rewrite D' in D. injection D as <- <- <-.
    exists [b0; b1; b2; b3]. split; [apply pack_I_be32|]. split; [exact Lg|].
    now rewrite map_byte_of_ascii_of_byte, <- E.
  - intros (field & P & Lh & I). exists (map byte_of_ascii a ++ field ++ h).
    split; [exact I|].
    pose proof (unpack_pack_I _ _ P) as U.
    destruct (unpack_I_be32 _ _ U) as (b0 & b1 & b2 & b3 & -> & _).
    apply from_key_parts; trivial.
    + now rewrite length_map.
    + apply decode_encode_ascii, encode_ascii_ok, A.
Qed.

(** The key [_to_key] makes for [a] and [tx] is stored exactly when the
    entry of [tx] is among those of [a]. *)
Lemma entries_of_to_key (a : str) (keys : list bytes) (tx : BaseTransaction)
  (h key : bytes) :
  hash tx = Some h -> _to_key a (Some tx) = Ok key ->
  (In key keys <-> In (timestamp tx, h) (entries_of a keys)).
Proof.
  intros Hh E. pose proof E as Sh. apply to_key_shape in Sh
    as (pre & field & g & -> & La & Ea & Lp & Et & Lt & Hg & Lg).
  assert (g = h) as -> by congruence.
  assert (forallb is_ascii_char a = true) as A
    by (unfold encode_ascii in Ea; now destruct (forallb is_ascii_char a)).
  rewrite (encode_ascii_ok _ A) in Ea. injection Ea as <-.
  rewrite (entries_of_bytes a keys (timestamp tx) h La A). split.
  - intro I. exists field. auto.
  - intros (field' & P & _ & I). rewrite P in Et. injection Et as <-. exact I.
Qed.

Section Queries.

Context `{Externals}.

Variable self : RocksDBAddressIndex.

Lemma iterkeys_run (w : World) (data : list (bytes * bytes)) :
  keyspace self w = Some data ->
  rocksdb.iterkeys (db w) (_cf self) = Ok (rocksdb.mkIterator (map fst data) []).
Proof.
  intro K. apply keyspace_find in K as (cf & F & <-).
  unfold rocksdb.iterkeys. now rewrite F.
Qed.

Lemma get_from_address_iter_run (a : str) (w : World) (data : list (bytes * bytes)) :
  keyspace self w = Some data -> sorted_entries data ->
  Forall (fun e => key_ok (fst e)) data ->
  length a = 34 -> forallb is_ascii_char a = true ->
  _get_from_address_iter self a w
  = (Ok (map snd (entries_of a (map fst data))), w).
Proof.
  intros K S F L A. unfold _get_from_address_iter.
  erewrite bind_Ok by (rewrite (iterkeys_run _ _ K); reflexivity).
  rewrite bind_lift, (to_key_prefix _ L A).
  unfold lift, rocksdb.remaining, rocksdb.seek. cbn [rocksdb.it_rest rocksdb.it_keys].
  rewrite scan_lower_bound; trivial.
  - now apply sorted_entries_keys.
  - now apply Forall_key_ok_keys.
Qed.

(** C2: on an index whose column family holds well-formed keys in order,
    [get_from_address(a)], for a 34-character ASCII address [a], returns the
    hashes of exactly the stored keys of address [a], keys of other addresses
    left out, in ascending order of timestamp and, among equal timestamps,
    of hash bytes; [get_sorted_from_address(a)] returns the same list.  The
    stored keys of [a] are those that start with the 34 bytes of [a], and
    the hash returned for a key is its last 32 bytes: the list is
    [key[38:]] for the keys that start with the bytes of [a], in store
    order.  An entry [(ts, h)] is found exactly when the key made of the
    bytes of [a], [struct.pack('>I', ts)] and [h] is stored; so the key
    [_to_key(a, tx)] is stored exactly when the entry of [tx] is found.  In
    terms of [_from_key], the entries found are those of the stored keys
    that decode to address [a]. *)
Theorem get_from_address_prefix_scan (a : str) (w : World) :
  index_ok self w -> length a = 34 -> forallb is_ascii_char a = true ->
  exists data,
    keyspace self w = Some data /\
    let keys := map fst data in
    let found := entries_of a keys in
    get_from_address self a w = (Ok (map snd found), w) /\
    get_sorted_from_address self a w = (Ok (map snd found), w) /\
    StronglySorted ts_hash_lt found /\
    map snd found
    = map (skipn 38)
        (filter (fun key => bytes_eqb (firstn 34 key) (map byte_of_ascii a))
           keys) /\
    (forall ts h,
       In (ts, h) found <->
       exists field,
         struct.pack_I ts = Ok field /\ length h = 32 /\
         In (map byte_of_ascii a ++ field ++ h) keys) /\
    (forall tx h key,
       hash tx = Some h -> _to_key a (Some tx) = Ok key ->
       (In key keys <-> In (timestamp tx, h) found)) /\
    forall ts h,
      In (ts, h) found <->
      exists key, In key keys /\ _from_key key = Ok (a, ts, h).
Proof.
  intros (data & K & S & F) L A. exists data. split; [exact K|].
  cbv zeta. unfold get_from_address, get_sorted_from_address.
  rewrite (get_from_address_iter_run a w data K S F L A).
  split; [reflexivity|]. split; [reflexivity|]. split.
  { apply entries_of_sorted.
    - now apply sorted_entries_keys.
    - now apply Forall_key_ok_keys. }
  split; [apply entries_of_raw; now apply Forall_key_ok_keys|].
  split; [intros ts h; now apply entries_of_bytes|].
  split; [intros tx h key; apply entries_of_to_key|].
  intros ts h. apply entries_of_in.
Qed.

(** [is_address_empty] on a well-formed index: it raises when the seek runs
    past the last key, and otherwise answers [True] exactly when some stored
    key has the address. *)
Lemma is_address_empty_run (a : str) (w : World) (data : list (bytes * bytes)) :
  keyspace self w = Some data -> sorted_entries data ->
  Forall (fun e => key_ok (fst e)) data ->
  length a = 34 -> forallb is_ascii_char a = true ->
  is_address_empty self a w
  = (match rocksdb.lower_bound (map byte_of_ascii a) (map fst data) with
     | [] => Raise AssertionError
     | _ :: _ =>
         Ok (match entries_of a (map fst data) with
             | [] => false
             | _ :: _ => true
             end)
     end, w).
Proof.
  intros K S F L A. unfold is_address_empty.
  erewrite bind_Ok by (rewrite (iterkeys_run _ _ K); reflexivity).
  rewrite bind_lift, (to_key_prefix _ L A).
  unfold rocksdb.get, rocksdb.seek. cbn [rocksdb.it_rest rocksdb.it_keys].
  pose proof (scan_lower_bound a L (map fst data)
                (sorted_entries_keys _ S) (Forall_key_ok_keys _ F)) as Sc.
  destruct (rocksdb.lower_bound (map byte_of_ascii a) (map fst data))
    as [|k rest]; [reflexivity|].
  rewrite bind_lift. cbn [scan] in Sc.
  destruct (_from_key k) as [[[addr ts] h]|e]; [|discriminate].
  cbn [bind_result] in Sc. unfold ret.
  destruct (str_eqb addr a); cbn [negb] in Sc.
  - destruct (scan a rest); [|discriminate]. cbn [bind_result] in Sc.
    injection Sc as Sc. now destruct (entries_of a (map fst data)).
  - injection Sc as Sc. now destruct (entries_of a (map fst data)).
Qed.

(** Whenever [is_address_empty] returns on a well-formed index, it returns
    [True] exactly when a stored key has the address. *)
Lemma is_address_empty_true_iff_stored (a : str) (w w' : World)
  (data : list (bytes * bytes)) (b : bool) :
  keyspace self w = Some data -> sorted_entries data ->
  Forall (fun e => key_ok (fst e)) data ->
  length a = 34 -> forallb is_ascii_char a = true ->
  is_address_empty self a w = (Ok b, w') ->
  (b = true <->
   exists key ts h, In key (map fst data) /\ _from_key key = Ok (a, ts, h)).
Proof.
  intros K S F L A. rewrite (is_address_empty_run a w data K S F L A).
  destruct (rocksdb.lower_bound _ _); [discriminate|].
  intro E; injection E as <- _.
  destruct (entries_of a (map fst data)) as [|[ts h] t] eqn:En.
  - split; [discriminate|]. intros (key & ts & h & I & D).
    assert (In (ts, h) (entries_of a (map fst data))) as X
      by (apply entries_of_in; eauto).
    rewrite En in X. destruct X.
  - split; [|reflexivity]. intros _.
    assert (In (ts, h) (entries_of a (map fst data))) as X
      by (rewrite En; now left).
    apply entries_of_in in X as (key & I & D). eauto.
Qed.

End Queries.

(** ** The column-family lifecycle *)

Lemma find_in_some {A} (f : A -> bool) (l : list A) (x : A) :
  In x l -> f x = true -> exists y, find f l = Some y.
Proof.
  intros I T. destruct (find f l) as [y|] eqn:E; [now exists y|].
  now rewrite (find_none _ _ E _ I) in T.
Qed.

Lemma bytes_eqb_refl (a : bytes) : bytes_eqb a a = true.
Proof. now apply bytes_eqb_eq. Qed.

Section Lifecycle.

Context `{Externals}.

Lemma reset_cf_fresh_cf : _reset_cf = _fresh_cf.
Proof. reflexivity. Qed.

(** One run of [_fresh_cf]: a family of the name, if any, goes; an empty
    one comes first, under the next identity. *)
Lemma fresh_cf_run (n : bytes) (w : World) :
  forallb is_ascii_byte n = true ->
  (forall cf cf',
     In cf (rocksdb.column_families (db w)) ->
     In cf' (rocksdb.column_families (db w)) ->
     rocksdb.cf_name cf = n -> rocksdb.cf_name cf' = n ->
     rocksdb.cf_id cf = rocksdb.cf_id cf') ->
  (forall cf,
     In cf (rocksdb.column_families (db w)) -> rocksdb.cf_name cf = n ->
     rocksdb.cf_id cf <> (rocksdb.max_column_family (db w) + 1)%N) ->
  let i := (rocksdb.max_column_family (db w) + 1)%N in
  exists rest,
    _fresh_cf n w
    = (Ok (rocksdb.mkHandle n i),
       mkWorld (rocksdb.mkDB (rocksdb.mkColumnFamily n i [] :: rest) i) (bus w))
    /\ forall cf, In cf rest ->
         In cf (rocksdb.column_families (db w)) /\ rocksdb.cf_name cf <> n.
Proof.
  intros A Hname Hid i. destruct w as [[cfs m] b]. simpl in *.
  assert (forall l,
            (forall cf, In cf l -> In cf cfs /\ rocksdb.cf_name cf <> n) ->
            find (fun cf => bytes_eqb (rocksdb.cf_name cf) n) l = None) as NoName.
  { intros l P. destruct (find _ l) as [cf|] eqn:E; [|reflexivity].
    apply find_some in E as [I E]. apply bytes_eqb_eq in E.
    now destruct (P cf I). }
  unfold _fresh_cf. rewrite bind_lift. unfold decode_ascii. rewrite A.
  unfold bind at 1, read_db at 1. cbn [db].
  unfold rocksdb.get_column_family at 1. cbn [rocksdb.column_families].
  destruct (find (fun cf => bytes_eqb (rocksdb.cf_name cf) n) cfs) as [cf0|] eqn:F.
  - apply find_some in F as [I0 N0]. apply bytes_eqb_eq in N0.
    exists (filter (fun cf => negb (rocksdb.cf_id cf =? rocksdb.cf_id cf0)%N) cfs).
    assert (forall cf,
              In cf (filter (fun cf => negb (rocksdb.cf_id cf =? rocksdb.cf_id cf0)%N) cfs) ->
              In cf cfs /\ rocksdb.cf_name cf <> n) as P.
    { intros cf I. apply filter_In in I as [I D]. split; [exact I|].
      intro E. rewrite (Hname cf cf0 I I0 E N0), N.eqb_refl in D. discriminate. }
    split; [|exact P].
    destruct (find_in_some (fun cf => (rocksdb.cf_id cf =? rocksdb.cf_id cf0)%N)
                cfs cf0 I0 (N.eqb_refl _)) as [y Fy].
    unfold bind, drop_column_family, on_db, rocksdb.drop_column_family,
      rocksdb.is_valid, rocksdb.find_cf, ret, create_column_family,
      rocksdb.create_column_family, rocksdb.get_column_family, read_db, lift.
    cbn [db rocksdb.id rocksdb.column_families rocksdb.max_column_family bus].
    rewrite Fy. cbn [db rocksdb.column_families rocksdb.max_column_family bus].
    rewrite (NoName _ P).
    cbn [db rocksdb.id rocksdb.column_families rocksdb.max_column_family bus
         find rocksdb.cf_id].
    rewrite N.eqb_refl. cbn [assert option_N_eqb].
    assert ((m + 1 =? rocksdb.cf_id cf0)%N = false) as ->.
    { apply N.eqb_neq. intro E. now apply (Hid cf0 I0 N0). }
    reflexivity.
  - exists cfs. split.
    + unfold bind, ret, create_column_family, rocksdb.create_column_family,
        rocksdb.get_column_family, read_db, lift, rocksdb.is_valid, rocksdb.find_cf.
      cbn [db rocksdb.id rocksdb.column_families rocksdb.max_column_family bus].
      rewrite F.
      cbn [db rocksdb.id rocksdb.column_families rocksdb.max_column_family bus
           find rocksdb.cf_id].
      rewrite N.eqb_refl. reflexivity.
    + intros cf I. split; [exact I|]. intro E.
      pose proof (find_none _ _ F cf I) as D. simpl in D.
      rewrite E, bytes_eqb_refl in D. discriminate.
Qed.

(** A run of [_reset_cf] that returns leaves an empty family under the
    handle. *)
Lemma reset_cf_returns (n : bytes) (w w' : World) (h : rocksdb.ColumnFamilyHandle) :
  _reset_cf n w = (Ok h, w') ->
  exists cf,
    rocksdb.find_cf (rocksdb.id h) (rocksdb.column_families (db w')) = Some cf
    /\ rocksdb.cf_data cf = [].
Proof.
  assert (forall (v : World) (old_id : option N),
            (_cf <- create_column_family n ;;
             valid <- read_db (rocksdb.is_valid _cf) ;;
             lift (assert valid) ;;;
             lift (assert (negb (option_N_eqb (Some (rocksdb.id _cf)) old_id))) ;;;
             ret _cf)%M v = (Ok h, w') ->
            exists cf,
              rocksdb.find_cf (rocksdb.id h) (rocksdb.column_families (db w')) = Some cf
              /\ rocksdb.cf_data cf = []) as Tail.
  { intros v old_id E. unfold bind at 1 in E.
    unfold create_column_family, rocksdb.create_column_family in E.
    destruct (rocksdb.get_column_family (db v) n); [discriminate|].
    unfold bind at 1, read_db at 1 in E. rewrite bind_lift in E.
    destruct (assert _); [|discriminate]. rewrite bind_lift in E.
    destruct (assert _); [|discriminate]. unfold ret in E.
    injection E as <- <-. simpl. unfold rocksdb.find_cf. simpl.
    rewrite N.eqb_refl. eexists; split; reflexivity. }
  unfold _reset_cf. rewrite bind_lift.
  destruct (decode_ascii n); [|discriminate].
  unfold bind at 1, read_db at 1.
  destruct (rocksdb.get_column_family (db w) n) as [h0|].
  - unfold bind at 1. unfold bind at 1.
    destruct (drop_column_family h0 w) as [[[]|e] v]; [|discriminate].
    unfold ret at 1. apply Tail.
  - unfold bind at 1, ret at 1. apply Tail.
Qed.

End Lifecycle.

Lemma NoDup_map_eq {A B} (f : A -> B) (l : list A) (x y : A) :
  NoDup (map f l) -> In x l -> In y l -> f x = f y -> x = y.
Proof.
  induction l as [|z l IH]; simpl; [easy|].
  intro N. inversion N as [|? ? Nz Nl]; subst.
  intros [->|Ix] [->|Iy] E; trivial.
  - elim Nz. rewrite E. now apply in_map.
  - elim Nz. rewrite <- E. now apply in_map.
  - now apply IH.
Qed.

Lemma put_entry_keeps_keys (key value : bytes) (l : list (bytes * bytes)) (k : bytes) :
  sorted_entries l ->
  k = key \/ In k (map fst l) -> In k (map fst (rocksdb.put_entry key value l)).
Proof.
  intros S I. destruct (sorted_put_entry key value l S) as [_ M].
  destruct (list_eq_dec Byte.byte_eq_dec k key) as [->|N].
  - apply in_map_iff. exists (key, value). split; [reflexivity|]. apply M. now left.
  - destruct I as [->|I]; [easy|].
    apply in_map_iff in I as (e & <- & I).
    apply in_map. apply M. right. now split.
Qed.

Section FreshTwice.

Context `{Externals}.

Lemma put_entries_run (n : bytes) (i : N) (rest : list rocksdb.ColumnFamily)
  (b : PubSubManager) (entries : list (bytes * bytes)) :
  forall data,
    sorted_entries data ->
    exists data',
      put_entries (rocksdb.mkHandle n i) entries
        (mkWorld (rocksdb.mkDB (rocksdb.mkColumnFamily n i data :: rest) i) b)
      = mkWorld (rocksdb.mkDB (rocksdb.mkColumnFamily n i data' :: rest) i) b
      /\ sorted_entries data'
      /\ forall k, In k (map fst data) \/ In k (map fst entries) ->
                   In k (map fst data').
Proof.
  induction entries as [|[k v] t IH]; intros data S.
  - exists data. repeat split; trivial. now intros k [I|[]].
  - destruct (sorted_put_entry k v data S) as [S1 _].
    destruct (IH _ S1) as (data' & E & S' & K).
    exists data'. split; [|split; [exact S'|]].
    + rewrite <- E. unfold put_entries. cbn [fold_left]. f_equal.
      unfold after, on_db, rocksdb.put, rocksdb.find_cf. simpl.
      now rewrite N.eqb_refl.
    + intros k' I. apply K. simpl in I.
      destruct I as [I|[<-|I]]; auto; left;
        apply put_entry_keeps_keys; auto.
Qed.

Lemma fresh_twice_of_fresh_cf : fresh_twice _fresh_cf.
Proof.
  intros w n entries (Nn & _ & Fi) A.
  rewrite Forall_forall in Fi.
  destruct (fresh_cf_run n w A) as (rest & E1 & R1).
  { intros cf cf' I I' E E'. f_equal.
    apply (NoDup_map_eq rocksdb.cf_name _ _ _ Nn I I'). congruence. }
  { intros cf I _. specialize (Fi cf I). lia. }
  set (i := (rocksdb.max_column_family (db w) + 1)%N) in *.
  eexists (rocksdb.mkHandle n i), _. split; [exact E1|].
  destruct (put_entries_run n i rest (bus w) entries [])
    as (data & E2 & S2 & K2); [constructor|].
  rewrite E2.
  exists (map fst data). split; [|split].
  - unfold rocksdb.iterkeys, rocksdb.find_cf. simpl. now rewrite N.eqb_refl.
  - intros e I. apply K2. right. now apply in_map.
  - destruct (fresh_cf_run n
      (mkWorld (rocksdb.mkDB (rocksdb.mkColumnFamily n i data :: rest) i) (bus w)) A)
      as (rest' & E3 & R3).
    { simpl. intros cf cf' [<-|I] [<-|I'] E E'; trivial.
      - now destruct (R1 _ I').
      - now destruct (R1 _ I).
      - now destruct (R1 _ I). }
    { simpl. intros cf [<-|I] E; simpl; [lia|]. now destruct (R1 _ I). }
    simpl in E3. eexists _, _. split; [exact E3|].
    repeat split.
    + simpl. lia.
    + unfold rocksdb.is_valid, rocksdb.find_cf. simpl. now rewrite N.eqb_refl.
    + unfold rocksdb.iterkeys, rocksdb.find_cf. simpl. now rewrite N.eqb_refl.
Qed.

(** C9: on a well-formed database and for an ASCII name, [_fresh_cf] (and
    [_reset_cf], which is the same code) returns a handle; whatever entries
    are then put under that handle, they are stored, and a second call with
    the same name returns too, with a valid handle of a different identity
    whose column family holds no key. *)
Theorem fresh_cf_twice : fresh_twice _fresh_cf /\ fresh_twice _reset_cf.
Proof.
  split.
  - exact fresh_twice_of_fresh_cf.
  - rewrite reset_cf_fresh_cf. exact fresh_twice_of_fresh_cf.
Qed.

End FreshTwice.

(** ** The invariant of the keyspace *)

Section Invariant.

Context `{Externals}.

Lemma subscribe_pubsub_events_db (self : RocksDBAddressIndex) (w : World) :
  db (snd (subscribe_pubsub_events self w)) = db w.
Proof.
  unfold subscribe_pubsub_events. rewrite bind_lift.
  destruct (assert (pubsub self)); reflexivity.
Qed.

(** A returning [__init__] leaves the index on an empty column family. *)
Lemma init_returns (cf_name : option bytes) (ps : bool) (w0 w : World)
  (self : RocksDBAddressIndex) :
  __init__ cf_name ps w0 = (Ok self, w) -> keyspace self w = Some [].
Proof.
  unfold __init__.
  generalize (match cf_name with
              | Some (b :: n) => b :: n
              | _ => _CF_NAME_ADDRESS_INDEX
              end).
  intro n. unfold bind at 1.
  destruct (_reset_cf n w0) as [[h|e] w1] eqn:R; [|discriminate].
  apply reset_cf_returns in R as (cf & F & D).
  unfold bind.
  destruct ps.
  - pose proof (subscribe_pubsub_events_db (mkIndex n h true) w1) as Db.
    destruct (subscribe_pubsub_events (mkIndex n h true) w1) as [[[]|e] w2];
      [|discriminate].
    unfold ret. intro E; injection E as <- <-.
    unfold keyspace. cbn [_cf snd] in *. rewrite Db, F. cbn [option_map].
    now rewrite D.
  - unfold ret. intro E; injection E as <- <-.
    unfold keyspace. cbn [_cf]. rewrite F. cbn [option_map]. now rewrite D.
Qed.

Variable self : RocksDBAddressIndex.

Lemma index_ok_add_tx (tx : BaseTransaction) (w : World) :
  index_ok self w -> index_ok self (after (add_tx self tx) w).
Proof.
  intros (data & K & S & F).
  destruct (add_tx_run self tx w data K) as [b E].
  destruct (sorted_put_all (tx_keys tx) data S) as [S' M].
  exists (put_all (tx_keys tx) data). split; [|split; [exact S'|]].
  - unfold after. rewrite E. simpl snd.
    rewrite <- (keyspace_set_keyspace _ _ _ (put_all (tx_keys tx) data) K).
    now apply keyspace_db.
  - rewrite Forall_forall in *. intros e I. apply M in I as [[I _]|[I _]].
    + apply in_tx_keys in I as (addresses & a & _ & _ & E').
      now apply to_key_key_ok in E'.
    + now apply F.
Qed.

Lemma index_ok_remove_tx (tx : BaseTransaction) (w : World) :
  index_ok self w -> index_ok self (after (remove_tx self tx) w).
Proof.
  intros (data & K & S & F).
  destruct (sorted_delete_all (tx_keys tx) data S) as [S' M].
  exists (delete_all (tx_keys tx) data). split; [|split; [exact S'|]].
  - unfold after. rewrite (remove_tx_run _ _ _ _ K). simpl snd.
    apply (keyspace_set_keyspace _ _ _ _ K).
  - rewrite Forall_forall in *. intros e I. apply M in I as [I _]. now apply F.
Qed.

Lemma index_ok_run_calls (cs : list call) :
  forall w, index_ok self w -> index_ok self (run_calls self cs w).
Proof.
  induction cs as [|c cs IH]; intros w O; [exact O|].
  apply IH. destruct c; simpl.
  - now apply index_ok_add_tx.
  - now apply index_ok_remove_tx.
Qed.

(** C10: after a returning [__init__] the keyspace of the index is empty,
    and after any sequence of [add_tx] and [remove_tx] calls on it, returning
    or raising, the column family is there with its keys in strict key order,
    each 70 bytes long with 34 ASCII bytes first.  So [_from_key] decodes
    every stored key, to an address of 34 characters whose ASCII encoding is
    those 34 bytes; [get_from_address] and [get_sorted_from_address] return
    for every 34-character ASCII address; and [is_address_empty] returns
    whenever its seek lands on a stored key. *)
Theorem stored_keys_well_formed (cf_name : option bytes) (ps : bool)
  (w0 w : World) (cs : list call) :
  __init__ cf_name ps w0 = (Ok self, w) ->
  keyspace self w = Some [] /\
  let w' := run_calls self cs w in
  exists data,
    keyspace self w' = Some data /\
    sorted_entries data /\
    Forall (fun e =>
              key_ok (fst e) /\
              exists a ts h,
                _from_key (fst e) = Ok (a, ts, h) /\
                length a = 34 /\ encode_ascii a = Ok (firstn 34 (fst e))) data /\
    forall a,
      length a = 34 -> forallb is_ascii_char a = true ->
      (exists hashes,
         get_from_address self a w' = (Ok hashes, w') /\
         get_sorted_from_address self a w' = (Ok hashes, w')) /\
      (rocksdb.lower_bound (map byte_of_ascii a) (map fst data) <> [] ->
       exists b, is_address_empty self a w' = (Ok b, w')).
Proof.
  intro I. pose proof (init_returns _ _ _ _ _ I) as K0.
  split; [exact K0|]. intro w'.
  assert (index_ok self w') as (data & K & S & F).
  { apply index_ok_run_calls. exists []. repeat split; trivial; constructor. }
  exists data. repeat split; trivial.
  - rewrite Forall_forall in *. intros e Ie. specialize (F e Ie).
    split; [exact F|].
    destruct (key_ok_decode _ F)
      as (pre & b0 & b1 & b2 & b3 & h & _ & Lp & _ & A & Fp & D).
    exists (map ascii_of_byte pre), (be32 b0 b1 b2 b3), h.
    split; [exact D|]. split; [now rewrite length_map|].
    rewrite Fp. apply encode_decode_ascii. unfold decode_ascii. now rewrite A.
  - exists (map snd (entries_of a (map fst data))).
    unfold get_from_address, get_sorted_from_address.
    now rewrite (get_from_address_iter_run self a w' data K S F).
  - intro N. rewrite (is_address_empty_run self a w' data K S F) by trivial.
    destruct (rocksdb.lower_bound _ _); [easy|]. eexists; reflexivity.
Qed.

End Invariant.

(** ** The sample index *)

Module sample_facts.

Import sample.

(** The sample index is the one [__init__] returns on the empty database. *)
Lemma opened_ok : opened = (Ok index, world0).
Proof. reflexivity. Qed.

Lemma world0_ok : @index_ok externals index world0.
Proof.
  exists []. split; [reflexivity|]. split; constructor.
Qed.

(** The scenario of the specification: [T1] at time 100, then [T2] at time
    50, both to [A]; the earlier one comes first. *)
Example scenario :
  let w1 := after (@add_tx externals index T1) world0 in
  let w2 := after (@add_tx externals index T2) w1 in
  fst (get_from_address index A w1) = Ok [hash1] /\
  fst (get_sorted_from_address index A w2) = Ok [hash2; hash1].
Proof. split; vm_compute; reflexivity. Qed.

End sample_facts.

(** C1: [is_address_empty] answers the wrong way round.  With the one entry
    of [T1] under address [A] stored, [is_address_empty(A)] returns [True];
    with the one entry of [T3] under address [B] stored and none under [A],
    [is_address_empty(A)] returns [False]. *)
Theorem is_address_empty_inverted :
  let wA := after (@add_tx sample.externals sample.index sample.T1) sample.world0 in
  let wB := after (@add_tx sample.externals sample.index sample.T3) sample.world0 in
  (exists key,
     option_map (map fst) (keyspace sample.index wA) = Some [key] /\
     _from_key key = Ok (sample.A, 100%Z, sample.hash1)) /\
  fst (is_address_empty sample.index sample.A wA) = Ok true /\
  (exists key,
     option_map (map fst) (keyspace sample.index wB) = Some [key] /\
     _from_key key = Ok (sample.B, 100%Z, sample.hash3)) /\
  fst (is_address_empty sample.index sample.A wB) = Ok false.
Proof.
  cbv zeta. split; [|split; [|split]].
  - eexists. split; (vm_compute; reflexivity).
  - vm_compute; reflexivity.
  - eexists. split; (vm_compute; reflexivity).
  - vm_compute; reflexivity.
Qed.

(** C5: on the fresh, empty keyspace [is_address_empty] does not return: the
    iterator is not valid after the seek, [_from_key] gets [b''] and its
    length assertion fails. *)
Theorem is_address_empty_on_empty_keyspace :
  @keyspace sample.externals sample.index sample.world0 = Some [] /\
  rocksdb.get (rocksdb.mkIterator [] []) = [] /\
  _from_key [] = Raise AssertionError /\
  fst (is_address_empty sample.index sample.A sample.world0) = Raise AssertionError.
Proof. split; [|split; [|split]]; vm_compute; reflexivity. Qed.

(** C7, as stated, fails where the entry of [tx] is stored already: [A] has
    the entry of [T1] and none of another transaction; after [add_tx(T1)] and
    [remove_tx(T1)] the answer of [is_address_empty(A)] has changed. *)
Lemma remove_tx_after_add_tx_counterexample :
  let w := after (@add_tx sample.externals sample.index sample.T3)
             (after (add_tx sample.index sample.T1) sample.world0) in
  let w2 := after (remove_tx sample.index sample.T1)
              (after (add_tx sample.index sample.T1) w) in
  hash sample.T1 = Some sample.hash1 /\
  @_get_addresses sample.externals sample.T1 = Ok [sample.A] /\
  (forall data key ts h,
     keyspace sample.index w = Some data -> In key (map fst data) ->
     _from_key key = Ok (sample.A, ts, h) -> h = sample.hash1) /\
  fst (is_address_empty sample.index sample.A w) = Ok true /\
  fst (is_address_empty sample.index sample.A w2) = Ok false.
Proof.
  cbv zeta. split; [reflexivity|]. split; [reflexivity|]. split.
  - intros data key ts h K. vm_compute in K. injection K as <-.
    intros [<-|[<-|[]]] D; vm_compute in D.
    + now injection D as <-.
    + discriminate.
  - split; vm_compute; reflexivity.
Qed.

(** ** Instances on the sample index *)

Lemma get_from_address_prefix_scan_witness :
  let w := run_calls sample.index
             [call_add_tx sample.T1; call_add_tx sample.T2; call_add_tx sample.T3]
             sample.world0 in
  (@index_ok sample.externals sample.index w /\
   option_map (@length _) (keyspace sample.index w) = Some 3 /\
   fst (get_from_address sample.index sample.A w)
   = Ok [sample.hash2; sample.hash1]) /\
  exists data,
    keyspace sample.index w = Some data /\
    let keys := map fst data in
    let found := entries_of sample.A keys in
    get_from_address sample.index sample.A w = (Ok (map snd found), w) /\
    get_sorted_from_address sample.index sample.A w = (Ok (map snd found), w) /\
    StronglySorted ts_hash_lt found /\
    map snd found
    = map (skipn 38)
        (filter (fun key =>
                   bytes_eqb (firstn 34 key) (map byte_of_ascii sample.A))
           keys) /\
    (forall ts h,
       In (ts, h) found <->
       exists field,
         struct.pack_I ts = Ok field /\ length h = 32 /\
         In (map byte_of_ascii sample.A ++ field ++ h) keys) /\
    (forall tx h key,
       hash tx = Some h -> _to_key sample.A (Some tx) = Ok key ->
       (In key keys <-> In (timestamp tx, h) found)) /\
    forall ts h,
      In (ts, h) found <->
      exists key, In key keys /\ _from_key key = Ok (sample.A, ts, h).
Proof.
  cbv zeta.
  assert (@index_ok sample.externals sample.index
            (run_calls sample.index
               [call_add_tx sample.T1; call_add_tx sample.T2; call_add_tx sample.T3]
               sample.world0)) as O
    by (apply index_ok_run_calls; exact sample_facts.world0_ok).
  split.
  - split; [exact O|]. split; vm_compute; reflexivity.
  - apply (get_from_address_prefix_scan sample.index sample.A _ O);
      reflexivity.
Defined.

Lemma from_key_to_key_witness :
  exists key,
    _to_key sample.A (Some sample.T1) = Ok key /\ length key = 70 /\
    _from_key key = Ok (sample.A, 100%Z, sample.hash1).
Proof.
  apply (from_key_to_key sample.A sample.T1 sample.hash1);
    try reflexivity. simpl. lia.
Defined.

Lemma add_tx_twice_witness :
  let w1 := after (@add_tx sample.externals sample.index sample.T1) sample.world0 in
  let w2 := after (add_tx sample.index sample.T1) w1 in
  db w2 = db w1 /\ keyspace sample.index w2 = keyspace sample.index w1 /\
  fst (add_tx sample.index sample.T1 w1)
  = fst (add_tx sample.index sample.T1 sample.world0).
Proof.
  apply (@add_tx_twice sample.externals sample.index sample.T1 sample.world0 []).
  - reflexivity.
  - constructor.
Defined.

Lemma remove_tx_after_add_tx_witness :
  let w := after (@add_tx sample.externals sample.index sample.T3) sample.world0 in
  let w1 := after (add_tx sample.index sample.T1) w in
  let w2 := after (remove_tx sample.index sample.T1) w1 in
  (fst (is_address_empty sample.index sample.A w) = Ok false /\
   fst (is_address_empty sample.index sample.A w1) = Ok true /\
   fst (is_address_empty sample.index sample.A w2) = Ok false /\
   db w1 <> db w) /\
  db w2 = db w /\
  forall a, fst (is_address_empty sample.index a w2)
            = fst (is_address_empty sample.index a w).
Proof.
  cbv zeta. split.
  - split; [vm_compute; reflexivity|]. split; [vm_compute; reflexivity|].
    split; [vm_compute; reflexivity|]. vm_compute. discriminate.
  - eapply (@remove_tx_after_add_tx sample.externals sample.index sample.T1
              (after (add_tx sample.index sample.T3) sample.world0)).
    + vm_compute. reflexivity.
    + repeat constructor.
    + intros addresses a key G. vm_compute in G. injection G as <-.
      intros [<-|[]] E. vm_compute in E. injection E as <-.
      intros [X|[]]. vm_compute in X. discriminate X.
Defined.

Lemma remove_tx_publishes_nothing_witness :
  let w := after (@add_tx sample.externals sample.index sample.T1) sample.world0 in
  bus (after (remove_tx sample.index sample.T1) w) = bus w /\
  length (published (bus w)) = 1.
Proof.
  split.
  - apply (@remove_tx_publishes_nothing sample.externals sample.index sample.T1).
  - reflexivity.
Defined.

Lemma fresh_cf_twice_witness :
  exists h1 w1,
    _fresh_cf _CF_NAME_ADDRESS_INDEX sample.empty_world = (Ok h1, w1) /\
    exists keys,
      rocksdb.iterkeys (db (put_entries h1 [sample.entry1] w1)) h1
      = Ok (rocksdb.mkIterator keys []) /\
      (forall e, In e [sample.entry1] -> In (fst e) keys) /\
      exists h2 w2,
        _fresh_cf _CF_NAME_ADDRESS_INDEX (put_entries h1 [sample.entry1] w1)
        = (Ok h2, w2) /\
        rocksdb.name h2 = _CF_NAME_ADDRESS_INDEX /\
        rocksdb.id h2 <> rocksdb.id h1 /\
        rocksdb.is_valid h2 (db w2) = true /\
        rocksdb.iterkeys (db w2) h2 = Ok (rocksdb.mkIterator [] []).
Proof.
  apply (proj1 (@fresh_cf_twice sample.externals)).
  - repeat split; constructor.
  - reflexivity.
Defined.

Lemma stored_keys_well_formed_witness :
  @keyspace sample.externals sample.index sample.world0 = Some [] /\
  let w' := run_calls sample.index
              [call_add_tx sample.T1; call_remove_tx sample.T2; call_add_tx sample.T3]
              sample.world0 in
  exists data,
    keyspace sample.index w' = Some data /\
    sorted_entries data /\
    Forall (fun e =>
              key_ok (fst e) /\
              exists a ts h,
                _from_key (fst e) = Ok (a, ts, h) /\
                length a = 34 /\ encode_ascii a = Ok (firstn 34 (fst e))) data /\
    forall a,
      length a = 34 -> forallb is_ascii_char a = true ->
      (exists hashes,
         get_from_address sample.index a w' = (Ok hashes, w') /\
         get_sorted_from_address sample.index a w' = (Ok hashes, w')) /\
      (rocksdb.lower_bound (map byte_of_ascii a) (map fst data) <> [] ->
       exists b, is_address_empty sample.index a w' = (Ok b, w')).
Proof.
  apply (@stored_keys_well_formed sample.externals sample.index None true
           sample.empty_world sample.world0).
  reflexivity.
Defined.

(** * Further properties *)

(** ** The key codec, both ways *)

(** X1: [_to_key(address, tx)] returns exactly when the address has 34 ASCII
    characters, the hash of [tx] is assigned with 32 bytes and its timestamp
    fits 32 bits; the key it returns starts with the seek prefix
    [_to_key(address)] and goes on with 36 more bytes. *)
Theorem to_key_returns_iff (a : str) (tx : BaseTransaction) :
  ((exists key, _to_key a (Some tx) = Ok key) <->
   length a = 34 /\ forallb is_ascii_char a = true /\
   (exists h, hash tx = Some h /\ length h = 32) /\
   (0 <= timestamp tx < 4294967296)%Z) /\
  (forall key,
     _to_key a (Some tx) = Ok key ->
     exists prefix rest,
       _to_key a None = Ok prefix /\ key = prefix ++ rest /\ length rest = 36).
Proof.
  split; [split|].
  - intros [key E]. apply to_key_shape in E
      as (pre & ts & h & _ & La & Ea & _ & Et & _ & Hh & Lh).
    split; [exact La|]. split.
    + unfold encode_ascii in Ea. now destruct (forallb is_ascii_char a).
    + split; [now exists h|].
      unfold struct.pack_I in Et.
      destruct ((0 <=? timestamp tx) && (timestamp tx <? 4294967296))%Z eqn:R;
        [|discriminate].
      apply andb_true_iff in R as [R1 R2].
      apply Z.leb_le in R1. apply Z.ltb_lt in R2. lia.
  - intros (La & Aa & (h & Hh & Lh) & R).
    destruct (to_key_ok a tx h La Aa Hh Lh R) as (ts & _ & _ & E).
    eexists. exact E.
  - intros key E. apply to_key_shape in E
      as (pre & ts & h & -> & La & Ea & _ & _ & Lt & _ & Lh).
    exists pre, (ts ++ h). split; [|split; [reflexivity|]].
    + unfold _to_key. rewrite La, Ea. reflexivity.
    + rewrite length_app. lia.
Qed.

(** X2: two full keys compare, in byte order, as their addresses' ASCII
    bytes do; for one address, as the timestamps do; for one address and
    one timestamp, as the hashes do. *)
Theorem to_key_order (a a' : str) (tx tx' : BaseTransaction) (h h' key key' : bytes) :
  _to_key a (Some tx) = Ok key -> _to_key a' (Some tx') = Ok key' ->
  hash tx = Some h -> hash tx' = Some h' ->
  bytes_compare key key' =
  match bytes_compare (map byte_of_ascii a) (map byte_of_ascii a') with
  | Eq =>
      match (timestamp tx ?= timestamp tx')%Z with
      | Eq => bytes_compare h h'
      | c => c
      end
  | c => c
  end.
Proof.
  intros E E' Hh Hh'.
  apply to_key_shape in E as (pre & ts & g & -> & La & Ea & Lp & Et & Lt & Hg & Lg).
  apply to_key_shape in E'
    as (pre' & ts' & g' & -> & La' & Ea' & Lp' & Et' & Lt' & Hg' & Lg').
  assert (g = h) as -> by congruence. assert (g' = h') as -> by congruence.
  assert (pre = map byte_of_ascii a) as ->.
  { unfold encode_ascii in Ea. destruct (forallb is_ascii_char a); congruence. }
  assert (pre' = map byte_of_ascii a') as ->.
  { unfold encode_ascii in Ea'. destruct (forallb is_ascii_char a'); congruence. }
  rewrite bytes_compare_app by congruence.
  destruct (bytes_compare (map byte_of_ascii a) (map byte_of_ascii a')); trivial.
  rewrite bytes_compare_app by congruence.
  destruct (unpack_I_be32 _ _ (unpack_pack_I _ _ Et)) as (x0 & x1 & x2 & x3 & -> & V).
  destruct (unpack_I_be32 _ _ (unpack_pack_I _ _ Et'))
    as (y0 & y1 & y2 & y3 & -> & V').
  now rewrite be32_compare, <- V, <- V'.
Qed.

Lemma to_key_order_witness :
  exists key key',
    _to_key sample.A (Some sample.T2) = Ok key /\
    _to_key sample.A (Some sample.T1) = Ok key' /\
    bytes_compare key key' = Lt.
Proof.
  eexists _, _. split; [reflexivity|]. split; [reflexivity|].
  rewrite (to_key_order sample.A sample.A sample.T2 sample.T1
             sample.hash2 sample.hash1 _ _ eq_refl eq_refl eq_refl eq_refl).
  reflexivity.
Defined.

Lemma to_key_of_from_key (key : bytes) (a : str) (ts : Z) (h : bytes)
  (tx : BaseTransaction) :
  _from_key key = Ok (a, ts, h) ->
  timestamp tx = ts -> hash tx = Some h ->
  _to_key a (Some tx) = Ok key.
Proof.
  intros D Ets Eh. pose proof (from_key_key_ok _ _ D) as K.
  destruct (key_ok_decode _ K)
    as (pre & b0 & b1 & b2 & b3 & g & -> & Lp & Lg & A & _ & D').
  rewrite D' in D. injection D as <- <- <-.
  unfold _to_key. rewrite length_map, Lp.
  rewrite (encode_decode_ascii pre (map ascii_of_byte pre))
    by (unfold decode_ascii; now rewrite A).
  cbv beta iota delta [bind_result assert Nat.eqb].
  rewrite Eh, Lg, Ets, pack_I_be32.
  cbv beta iota zeta delta [bind_result assert Nat.eqb].
  rewrite !length_app, Lp, Lg. reflexivity.
Qed.

(** X3: what [_from_key] decodes, [_to_key] encodes back: when [_from_key(key)]
    returns [(address, timestamp, tx_hash)], [_to_key] of that address and of
    any transaction with that timestamp and hash returns [key]. *)
Theorem to_key_from_key (key : bytes) (a : str) (ts : Z) (h : bytes)
  (tx : BaseTransaction) :
  _from_key key = Ok (a, ts, h) ->
  timestamp tx = ts -> hash tx = Some h ->
  _to_key a (Some tx) = Ok key.
Proof. apply to_key_of_from_key. Qed.

Lemma to_key_from_key_witness :
  let key := map byte_of_ascii sample.A ++ [x00; x00; x00; x64] ++ sample.hash1 in
  _from_key key = Ok (sample.A, 100%Z, sample.hash1) /\
  _to_key sample.A (Some sample.T1) = Ok key.
Proof.
  cbv zeta.
  assert (_from_key (map byte_of_ascii sample.A ++ [x00; x00; x00; x64]
                       ++ sample.hash1)
          = Ok (sample.A, 100%Z, sample.hash1)) as D by (vm_compute; reflexivity).
  split; [exact D|].
  apply (to_key_from_key _ _ _ _ sample.T1 D); reflexivity.
Defined.

(** X4: [_from_key] raises [AssertionError] on every key that is not 70
    bytes long, [UnicodeDecodeError] on every 70-byte key with a byte above
    127 among its first 34, and returns on every other key, with an address of
    34 characters, a timestamp in [0, 2^32) and a hash of 32 bytes. *)
Theorem from_key_outcomes (key : bytes) :
  (length key <> 70 -> _from_key key = Raise AssertionError) /\
  (length key = 70 -> forallb is_ascii_byte (firstn 34 key) = false ->
   _from_key key = Raise UnicodeDecodeError) /\
  (length key = 70 -> forallb is_ascii_byte (firstn 34 key) = true ->
   exists a ts h,
     _from_key key = Ok (a, ts, h) /\
     length a = 34 /\ (0 <= ts < 4294967296)%Z /\ length h = 32).
Proof.
  split; [|split].
  - intro N. unfold _from_key.
    apply Nat.eqb_neq in N. change (34 + 4 + 32) with 70. now rewrite N.
  - intros L A. unfold _from_key, decode_ascii.
    change (34 + 4 + 32) with 70. rewrite L, Nat.eqb_refl, A. reflexivity.
  - intros L A.
    destruct (key_ok_decode key (conj L A))
      as (pre & b0 & b1 & b2 & b3 & h & _ & Lp & Lh & _ & _ & D).
    exists (map ascii_of_byte pre), (be32 b0 b1 b2 b3), h.
    split; [exact D|]. split; [now rewrite length_map|].
    split; [apply be32_range|exact Lh].
Qed.

Lemma from_key_outcomes_witness :
  _from_key [] = Raise AssertionError /\
  _from_key (repeat xff 70) = Raise UnicodeDecodeError.
Proof.
  split.
  - apply (proj1 (from_key_outcomes [])). discriminate.
  - apply (proj1 (proj2 (from_key_outcomes (repeat xff 70)))); reflexivity.
Defined.

(** ** The addresses of a transaction *)

Lemma py_getitem_returns_iff {A} (l : list A) (i : Z) :
  (exists x, py_getitem l i = Ok x) <->
  (- Z.of_nat (length l) <= i < Z.of_nat (length l))%Z.
Proof.
  unfold py_getitem.
  destruct (Z.ltb_spec i 0) as [Neg|Pos].
  - destruct ((0 <=? Z.of_nat (length l) + i)
              && (Z.of_nat (length l) + i <? Z.of_nat (length l)))%Z eqn:R.
    + apply andb_true_iff in R as [R1 R2].
      apply Z.leb_le in R1. apply Z.ltb_lt in R2.
      destruct (nth_error l (Z.to_nat (Z.of_nat (length l) + i))) as [x|] eqn:E.
      * split; [intros _; lia|intros _; now exists x].
      * apply nth_error_None in E. lia.
    + split; [intros [x E]; discriminate|].
      intro B. apply andb_false_iff in R as [R|R].
      * apply Z.leb_gt in R. lia.
      * apply Z.ltb_ge in R. lia.
  - destruct ((0 <=? i) && (i <? Z.of_nat (length l)))%Z eqn:R.
    + apply andb_true_iff in R as [R1 R2].
      apply Z.leb_le in R1. apply Z.ltb_lt in R2.
      destruct (nth_error l (Z.to_nat i)) as [x|] eqn:E.
      * split; [intros _; lia|intros _; now exists x].
      * apply nth_error_None in E. lia.
    + split; [intros [x E]; discriminate|].
      intro B. apply andb_false_iff in R as [R|R].
      * apply Z.leb_gt in R. lia.
      * apply Z.ltb_ge in R. lia.
Qed.

Lemma py_getitem_raises {A} (l : list A) (i : Z) (e : exn) :
  py_getitem l i = Raise e -> e = IndexError.
Proof.
  unfold py_getitem. destruct (_ && _)%bool; [|congruence].
  destruct (nth_error _ _); congruence.
Qed.

Section Addresses.

Context `{Externals}.

Lemma in_set_add (x y : str) (s : list str) :
  In x (set_add y s) <-> x = y \/ In x s.
Proof.
  unfold set_add. destruct (existsb (str_eqb y) s) eqn:E.
  - apply existsb_exists in E as (z & I & E). apply str_eqb_eq in E. subst z.
    split; [now right|]. now intros [->|I'].
  - rewrite in_app_iff. simpl. intuition auto.
Qed.

Lemma NoDup_set_add (y : str) (s : list str) : NoDup s -> NoDup (set_add y s).
Proof.
  intro N. unfold set_add. destruct (existsb (str_eqb y) s) eqn:E; [exact N|].
  assert (~ In y s) as NI.
  { intro I. assert (existsb (str_eqb y) s = true) as T
      by (apply existsb_exists; exists y; split; [exact I|apply str_eqb_refl]).
    congruence. }
  clear E. induction s as [|z s IH]; simpl.
  - constructor; [easy|constructor].
  - inversion N as [|? ? Nz Ns]; subst. constructor.
    + rewrite in_app_iff. simpl. intros [I|[E|[]]]; [easy|].
      apply NI. now left.
    + apply IH; trivial. intro I. apply NI. now right.
Qed.

Lemma in_add_address_from_output (out : TxOutput) (acc : list str) (a : str) :
  In a (add_address_from_output out acc) <->
  In a acc \/ parse_address_script (script out) = Some a.
Proof.
  unfold add_address_from_output.
  destruct (parse_address_script (script out)) as [b|].
  - rewrite in_set_add. split.
    + intros [->|I]; auto.
    + intros [I|E]; auto. left. congruence.
  - split; [auto|]. now intros [I|E].
Qed.

Lemma NoDup_add_address_from_output (out : TxOutput) (acc : list str) :
  NoDup acc -> NoDup (add_address_from_output out acc).
Proof.
  intro N. unfold add_address_from_output.
  destruct (parse_address_script (script out)); [now apply NoDup_set_add|exact N].
Qed.

Lemma outputs_loop (outs : list TxOutput) :
  forall acc,
    (NoDup acc ->
     NoDup (fold_left (fun addresses txout => add_address_from_output txout addresses)
              outs acc)) /\
    forall a,
      In a (fold_left (fun addresses txout => add_address_from_output txout addresses)
              outs acc) <->
      In a acc \/
      exists out, In out outs /\ parse_address_script (script out) = Some a.
Proof.
  induction outs as [|o outs IH]; intro acc; simpl.
  - split; [auto|]. intro a. split; [auto|]. now intros [I|(out & [] & _)].
  - destruct (IH (add_address_from_output o acc)) as [IN IM]. split.
    + intro N. now apply IN, NoDup_add_address_from_output.
    + intro a. rewrite IM, in_add_address_from_output. split.
      * intros [[I|E]|(out & I & E)]; auto.
        -- right. exists o. auto.
        -- right. exists out. auto.
      * intros [I|(out & [<-|I] & E)]; auto.
        right. exists out. auto.
Qed.

Lemma inputs_loop (g : bytes -> option BaseTransaction) (ins : list TxInput) :
  forall acc r,
    add_addresses_from_inputs g ins acc = Ok r ->
    (NoDup acc -> NoDup r) /\
    forall a,
      In a r <->
      In a acc \/
      exists txin out,
        In txin ins /\ consumes g txin out /\
        parse_address_script (script out) = Some a.
Proof.
  induction ins as [|i ins IH]; intros acc r; simpl.
  - intro E; injection E as <-. split; [auto|]. intro a. split; [auto|].
    now intros [I|(txin & out & [] & _)].
  - destruct (g (tx_id i)) as [tx2|] eqn:G; [|discriminate].
    destruct (py_getitem (outputs tx2) (index i)) as [out|] eqn:P; [|discriminate].
    cbn [bind_result]. intro E. destruct (IH _ _ E) as [IN IM]. split.
    + intro N. now apply IN, NoDup_add_address_from_output.
    + intro a. rewrite IM, in_add_address_from_output. split.
      * intros [[I|E']|(txin & o & I & C & E')]; auto.
        -- right. exists i, out. split; [now left|]. split; [|exact E'].
           now exists tx2.
        -- right. exists txin, o. auto.
      * intros [I|(txin & o & [<-|I] & C & E')]; auto.
        -- left. right. destruct C as (tx2' & G' & P').
           rewrite G in G'. injection G' as <-. rewrite P in P'.
           injection P' as <-. exact E'.
        -- right. exists txin, o. auto.
Qed.

Lemma inputs_loop_returns (g : bytes -> option BaseTransaction) (ins : list TxInput) :
  forall acc,
    (exists r, add_addresses_from_inputs g ins acc = Ok r) <->
    forall txin, In txin ins -> exists out, consumes g txin out.
Proof.
  induction ins as [|i ins IH]; intro acc; simpl.
  - split; [easy|]. intros _. now exists acc.
  - destruct (g (tx_id i)) as [tx2|] eqn:G.
    + destruct (py_getitem (outputs tx2) (index i)) as [out|] eqn:P;
        cbn [bind_result].
      * rewrite IH. split.
        -- intros A txin [<-|I]; [|now apply A]. exists out, tx2. auto.
        -- intros A txin I. apply A. now right.
      * split; [intros [r E]; discriminate|].
        intro A. destruct (A i (or_introl eq_refl)) as (out & tx2' & G' & P').
        congruence.
    + split; [intros [r E]; discriminate|].
      intro A. destruct (A i (or_introl eq_refl)) as (out & tx2' & G' & P').
      congruence.
Qed.

Lemma inputs_loop_raises (g : bytes -> option BaseTransaction) (ins : list TxInput) :
  forall acc e,
    add_addresses_from_inputs g ins acc = Raise e ->
    e = TransactionDoesNotExist \/ e = IndexError.
Proof.
  induction ins as [|i ins IH]; intros acc e; simpl; [discriminate|].
  destruct (g (tx_id i)) as [tx2|]; [|intro E; injection E as <-; now left].
  destruct (py_getitem (outputs tx2) (index i)) as [out|] eqn:P; cbn [bind_result].
  - apply IH.
  - intro E; injection E as <-. right. eapply py_getitem_raises, P.
Qed.

Lemma get_addresses_NoDup (tx : BaseTransaction) (addresses : list str) :
  _get_addresses tx = Ok addresses -> NoDup addresses.
Proof.
  unfold _get_addresses. destruct (storage tx) as [g|]; [|discriminate].
  destruct (add_addresses_from_inputs g (inputs tx) []) as [r|] eqn:E;
    [|discriminate].
  cbn [bind_result]. intro R; injection R as <-.
  destruct (inputs_loop g (inputs tx) [] r E) as [IN _].
  destruct (outputs_loop (outputs tx) r) as [ON _].
  apply ON, IN. constructor.
Qed.

(** X5: when [_get_addresses(tx)] returns, the set it returns holds each
    address once, and an address is in it exactly when the script of an
    output of [tx], or of the output one of the inputs of [tx] consumes
    (the output at the input's index in the transaction the storage gives
    for the input's id), parses to it. *)
Theorem get_addresses_members (tx : BaseTransaction) (addresses : list str) :
  _get_addresses tx = Ok addresses ->
  NoDup addresses /\
  exists g,
    storage tx = Some g /\
    forall a,
      In a addresses <->
      (exists out, In out (outputs tx) /\ parse_address_script (script out) = Some a) \/
      (exists txin out,
         In txin (inputs tx) /\ consumes g txin out /\
         parse_address_script (script out) = Some a).
Proof.
  unfold _get_addresses. destruct (storage tx) as [g|]; [|discriminate].
  destruct (add_addresses_from_inputs g (inputs tx) []) as [r|] eqn:E;
    [|discriminate].
  cbn [bind_result]. intro R; injection R as <-.
  destruct (inputs_loop g (inputs tx) [] r E) as [IN IM].
  destruct (outputs_loop (outputs tx) r) as [ON OM]. split.
  - apply ON, IN. constructor.
  - exists g. split; [reflexivity|]. intro a. rewrite OM, IM. simpl.
    intuition auto.
Qed.

(** X6: [_get_addresses(tx)] raises [AssertionError] when [tx] has no
    storage.  With a storage it returns exactly when the storage has the
    transaction of every input and the input's index [i] is within that
    transaction's [n] outputs, counting from the end when negative
    ([-n <= i < n]); otherwise it raises [TransactionDoesNotExist] or
    [IndexError]. *)
Theorem get_addresses_returns_iff (tx : BaseTransaction) :
  (storage tx = None -> _get_addresses tx = Raise AssertionError) /\
  forall g,
    storage tx = Some g ->
    ((exists addresses, _get_addresses tx = Ok addresses) <->
     forall txin,
       In txin (inputs tx) ->
       exists tx2,
         g (tx_id txin) = Some tx2 /\
         (- Z.of_nat (length (outputs tx2)) <= index txin
          < Z.of_nat (length (outputs tx2)))%Z) /\
    forall e,
      _get_addresses tx = Raise e ->
      e = TransactionDoesNotExist \/ e = IndexError.
Proof.
  split.
  - intro S. unfold _get_addresses. now rewrite S.
  - intros g S. unfold _get_addresses. rewrite S. split.
    + transitivity (exists r, add_addresses_from_inputs g (inputs tx) [] = Ok r).
      * destruct (add_addresses_from_inputs g (inputs tx) []) as [r|e];
          cbn [bind_result].
        -- split; intros _; eexists; reflexivity.
        -- split; intros [x E]; discriminate.
      * rewrite inputs_loop_returns. split.
        -- intros A txin I. destruct (A txin I) as (out & tx2 & G & P).
           exists tx2. split; [exact G|].
           apply py_getitem_returns_iff. now exists out.
        -- intros A txin I. destruct (A txin I) as (tx2 & G & B).
           apply py_getitem_returns_iff in B as [out P].
           exists out, tx2. auto.
    + intros e. destruct (add_addresses_from_inputs g (inputs tx) []) as [r|e']
        eqn:E; cbn [bind_result]; [discriminate|].
      intro R; injection R as <-. eapply inputs_loop_raises, E.
Qed.

End Addresses.

(** ** Publishing *)

Section Publishing.

Context `{Externals}.

Variable self : RocksDBAddressIndex.

Lemma publish_loop_exact (tx : BaseTransaction) (addresses : list str) :
  forall w : World,
    for_each addresses
      (fun address => publish WALLET_ADDRESS_HISTORY address (to_json_extended tx)) w
    = (Ok tt,
       mkWorld (db w)
         (mkPubSub (subscribers (bus w))
            (published (bus w) ++ history_of tx addresses))).
Proof.
  induction addresses as [|a rest IH]; intro w.
  - simpl. unfold ret. rewrite app_nil_r. now destruct w as [d [s p]].
  - cbn [for_each]. unfold bind, publish at 1. rewrite IH. simpl.
    now rewrite <- app_assoc.
Qed.

Lemma publish_tx_given (tx : BaseTransaction) (l : list str) (w : World) :
  publish_tx self tx (Some l) w
  = (Ok tt,
     mkWorld (db w)
       (mkPubSub (subscribers (bus w))
          (published (bus w) ++ (if pubsub self then history_of tx l else [])))).
Proof.
  unfold publish_tx. destruct (pubsub self); cbn [negb].
  - unfold bind, ret. apply publish_loop_exact.
  - unfold ret. rewrite app_nil_r. now destruct w as [d [s p]].
Qed.

(** X7: without a pubsub [publish_tx] does nothing, whatever it is given.
    With one and with the addresses given as a sequence, it returns after
    appending one [WALLET_ADDRESS_HISTORY] publication per address, in the
    order of the sequence, each with the JSON of [tx].  With one and no
    addresses given, it takes the set of [_get_addresses] and appends one
    such publication for each address of the set, in some order.  In both
    cases it leaves the database and the subscribers alone.  When
    [_get_addresses] raises it raises the same and publishes nothing. *)
Theorem publish_tx_outcome (tx : BaseTransaction) (addresses : option (list str))
  (w : World) :
  (pubsub self = false -> publish_tx self tx addresses w = (Ok tt, w)) /\
  (pubsub self = true ->
   forall l,
     addresses = Some l ->
     publish_tx self tx addresses w
     = (Ok tt,
        mkWorld (db w)
          (mkPubSub (subscribers (bus w))
             (published (bus w) ++ history_of tx l)))) /\
  (pubsub self = true ->
   forall l,
     addresses = None -> _get_addresses tx = Ok l ->
     exists news,
       publish_tx self tx addresses w
       = (Ok tt,
          mkWorld (db w)
            (mkPubSub (subscribers (bus w)) (published (bus w) ++ news))) /\
       Permutation news (history_of tx l) /\ NoDup l) /\
  (pubsub self = true ->
   forall e,
     addresses = None -> _get_addresses tx = Raise e ->
     publish_tx self tx addresses w = (Raise e, w)).
Proof.
  split; [|split; [|split]].
  - intro P. unfold publish_tx. now rewrite P.
  - intros P l ->. now rewrite publish_tx_given, P.
  - intros P l -> G. exists (history_of tx l). split; [|split].
    + unfold publish_tx. rewrite P. cbn [negb].
      rewrite bind_lift, G. apply publish_loop_exact.
    + apply Permutation_refl.
    + exact (get_addresses_NoDup tx l G).
  - intros P e -> G. unfold publish_tx. rewrite P. cbn [negb].
    now rewrite bind_lift, G.
Qed.

Lemma add_loop_bus (tx : BaseTransaction) (addresses : list str) :
  forall w : World,
    bus (snd (for_each addresses (fun address =>
                key <- lift (_to_key address (Some tx)) ;;
                on_db (fun d => rocksdb.put d (_cf self, key) []))%M w))
    = bus w.
Proof.
  induction addresses as [|a rest IH]; intro w; [reflexivity|].
  cbn [for_each]. unfold bind at 1. rewrite bind_lift.
  destruct (_to_key a (Some tx)) as [key|e]; [|reflexivity].
  unfold on_db.
  destruct (rocksdb.put (db w) (_cf self, key) []) as [d|e]; [|reflexivity].
  now rewrite IH.
Qed.

(** X8: [add_tx] publishes only once every put is done.  When it raises,
    the event bus is as it was; when it returns, the bus has gained, after
    what was published before, one publication of [tx] for each address of
    [tx], in some order, if the index has a pubsub, and nothing otherwise.
    The subscribers never change. *)
Theorem add_tx_publishes (tx : BaseTransaction) (w : World) :
  let w' := after (add_tx self tx) w in
  subscribers (bus w') = subscribers (bus w) /\
  (forall e, fst (add_tx self tx w) = Raise e -> bus w' = bus w) /\
  (fst (add_tx self tx w) = Ok tt ->
   exists addresses news,
     _get_addresses tx = Ok addresses /\ NoDup addresses /\
     published (bus w') = published (bus w) ++ news /\
     Permutation news (if pubsub self then history_of tx addresses else [])).
Proof.
  cbv zeta. unfold after, add_tx. rewrite bind_lift.
  destruct (assert (is_some (hash tx)));
    [|split; [reflexivity|split; [reflexivity|discriminate]]].
  rewrite bind_lift.
  destruct (_get_addresses tx) as [addresses|e] eqn:G;
    [|split; [reflexivity|split; [reflexivity|discriminate]]].
  pose proof (add_loop_bus tx addresses w) as B.
  unfold bind.
  destruct (for_each addresses _ w) as [[[]|e] w1]; cbn [snd] in B.
  - rewrite publish_tx_given. cbn [fst snd bus subscribers published].
    rewrite B. split; [reflexivity|]. split; [discriminate|].
    intros _. exists addresses, (if pubsub self then history_of tx addresses else []).
    split; [reflexivity|]. split; [exact (get_addresses_NoDup tx addresses G)|].
    split; [reflexivity|apply Permutation_refl].
  - cbn [fst snd]. rewrite B. split; [reflexivity|split; [reflexivity|discriminate]].
Qed.

End Publishing.

(** ** Adding, removing, looking up *)

Lemma from_key_of_to_key (a : str) (tx : BaseTransaction) (h key : bytes) :
  _to_key a (Some tx) = Ok key -> hash tx = Some h ->
  _from_key key = Ok (a, timestamp tx, h).
Proof.
  intros E Hh. apply to_key_shape in E
    as (pre & ts & g & -> & La & Ea & Lp & Et & Lt & Hg & Lg).
  assert (g = h) as -> by congruence.
  apply from_key_parts; trivial.
  - now apply decode_encode_ascii.
  - now apply unpack_pack_I.
Qed.

Lemma to_key_address_ok (a : str) (tx : BaseTransaction) (key : bytes) :
  _to_key a (Some tx) = Ok key ->
  length a = 34 /\ forallb is_ascii_char a = true.
Proof.
  intro E. apply to_key_shape in E as (pre & ts & g & _ & La & Ea & _).
  split; [exact La|]. unfold encode_ascii in Ea.
  now destruct (forallb is_ascii_char a).
Qed.

Lemma ts_hash_lt_irrefl (x : Z * bytes) : ~ ts_hash_lt x x.
Proof.
  intros [L|[_ L]]; [lia|]. now apply bytes_lt_irrefl in L.
Qed.

Lemma ts_hash_lt_trans (x y z : Z * bytes) :
  ts_hash_lt x y -> ts_hash_lt y z -> ts_hash_lt x z.
Proof.
  unfold ts_hash_lt. intros [L|[E L]] [L'|[E' L']].
  - left; lia.
  - left; lia.
  - left; lia.
  - right. split; [lia|]. eapply bytes_lt_trans; eassumption.
Qed.

(** Lists in strict [(timestamp, hash)] order are determined by their
    members. *)
Lemma ts_hash_sorted_ext (l1 l2 : list (Z * bytes)) :
  StronglySorted ts_hash_lt l1 -> StronglySorted ts_hash_lt l2 ->
  (forall x, In x l1 <-> In x l2) -> l1 = l2.
Proof.
  revert l2. induction l1 as [|x1 t1 IH]; intros [|x2 t2] S1 S2 M.
  - reflexivity.
  - destruct (proj2 (M x2)). now left.
  - destruct (proj1 (M x1)). now left.
  - inversion S1 as [|? ? S1' F1]; subst. inversion S2 as [|? ? S2' F2]; subst.
    rewrite Forall_forall in F1, F2.
    assert (x1 = x2) as ->.
    { destruct (proj1 (M x1) (or_introl eq_refl)) as [E|I1]; [now symmetry|].
      destruct (proj2 (M x2) (or_introl eq_refl)) as [E|I2]; [exact E|].
      apply F2 in I1. apply F1 in I2.
      elim (ts_hash_lt_irrefl x1). eapply ts_hash_lt_trans; eassumption. }
    f_equal. apply IH; trivial. intro x. split; intro I.
    + destruct (proj1 (M x) (or_intror I)) as [<-|I']; [|exact I'].
      apply F1 in I. now apply ts_hash_lt_irrefl in I.
    + destruct (proj2 (M x) (or_intror I)) as [<-|I']; [|exact I'].
      apply F2 in I. now apply ts_hash_lt_irrefl in I.
Qed.

Section Lookup.

Context `{Externals}.

Variable self : RocksDBAddressIndex.

Lemma keyspace_after_add_tx (tx : BaseTransaction) (w : World)
  (data : list (bytes * bytes)) :
  keyspace self w = Some data ->
  keyspace self (after (add_tx self tx) w) = Some (put_all (tx_keys tx) data).
Proof.
  intro K. destruct (add_tx_run self tx w data K) as [b E].
  unfold after. rewrite E. cbn [snd].
  rewrite <- (keyspace_set_keyspace _ _ _ (put_all (tx_keys tx) data) K).
  now apply keyspace_db.
Qed.

Lemma keyspace_after_remove_tx (tx : BaseTransaction) (w : World)
  (data : list (bytes * bytes)) :
  keyspace self w = Some data ->
  keyspace self (after (remove_tx self tx) w)
  = Some (delete_all (tx_keys tx) data).
Proof.
  intro K. unfold after. rewrite (remove_tx_run _ _ _ _ K). cbn [snd].
  apply (keyspace_set_keyspace _ _ _ _ K).
Qed.

Lemma encoded_none_iff (tx : BaseTransaction) (addresses : list str) :
  snd (encoded tx addresses) = None <->
  forall a, In a addresses -> exists key, _to_key a (Some tx) = Ok key.
Proof.
  induction addresses as [|a rest IH]; simpl.
  - split; [easy|reflexivity].
  - destruct (_to_key a (Some tx)) as [k|e] eqn:E.
    + destruct (encoded tx rest) as [keys e]. simpl in *. rewrite IH. split.
      * intros A a' [<-|I]; [now exists k|now apply A].
      * intros A a' I. apply A. now right.
    + simpl. split; [discriminate|].
      intro A. destruct (A a (or_introl eq_refl)) as [key E']. congruence.
Qed.

Lemma tx_raised_ok_iff (tx : BaseTransaction) :
  tx_raised tx = Ok tt <->
  exists h addresses,
    hash tx = Some h /\ _get_addresses tx = Ok addresses /\
    forall a, In a addresses -> exists key, _to_key a (Some tx) = Ok key.
Proof.
  unfold tx_raised. destruct (hash tx) as [h|].
  - destruct (_get_addresses tx) as [addresses|e].
    + split.
      * intro R. exists h, addresses. repeat split.
        apply encoded_none_iff. now destruct (snd (encoded tx addresses)).
      * intros (h' & l & _ & E & A). injection E as <-.
        apply encoded_none_iff in A. now rewrite A.
    + split; [discriminate|]. now intros (h' & l & _ & E & _).
  - split; [discriminate|]. now intros (h' & l & E & _).
Qed.

(** X9: on an index that has its column family, [add_tx(tx)] and
    [remove_tx(tx)] return under one and the same condition: the hash of [tx]
    is assigned, [_get_addresses(tx)] returns, and [_to_key] returns for each
    of the addresses.  A transaction without addresses passes whatever
    its timestamp and the length of its hash. *)
Theorem add_tx_returns_iff (tx : BaseTransaction) (w : World)
  (data : list (bytes * bytes)) :
  keyspace self w = Some data ->
  let returns :=
    exists h addresses,
      hash tx = Some h /\ _get_addresses tx = Ok addresses /\
      forall a, In a addresses -> exists key, _to_key a (Some tx) = Ok key in
  (fst (add_tx self tx w) = Ok tt <-> returns) /\
  (fst (remove_tx self tx w) = Ok tt <-> returns).
Proof.
  intros K returns. destruct (add_tx_run self tx w data K) as [b E].
  rewrite E, (remove_tx_run _ _ _ _ K). cbn [fst].
  split; apply tx_raised_ok_iff.
Qed.

Lemma tx_keys_complete (tx : BaseTransaction) (addresses : list str) (a : str) :
  tx_raised tx = Ok tt -> _get_addresses tx = Ok addresses -> In a addresses ->
  exists key, _to_key a (Some tx) = Ok key /\ In key (tx_keys tx).
Proof.
  intros R G I. unfold tx_raised, tx_keys in *.
  destruct (hash tx); [|discriminate]. rewrite G in *.
  apply encoded_complete; trivial. now destruct (snd (encoded tx addresses)).
Qed.

(** X10: after an [add_tx(tx)] that returned, on a well-formed index,
    [get_from_address] returns, for every address of [tx], a list that holds
    the hash of [tx]. *)
Theorem add_tx_then_get_from_address (tx : BaseTransaction) (w : World)
  (h : bytes) (addresses : list str) (a : str) :
  index_ok self w -> fst (add_tx self tx w) = Ok tt ->
  hash tx = Some h -> _get_addresses tx = Ok addresses -> In a addresses ->
  let w' := after (add_tx self tx) w in
  exists hashes,
    get_from_address self a w' = (Ok hashes, w') /\ In h hashes.
Proof.
  intros O R Hh G I w'.
  pose proof (index_ok_add_tx self tx w O) as (data' & K' & S' & F').
  destruct O as (data & K & S & F).
  assert (tx_raised tx = Ok tt) as T.
  { destruct (add_tx_run self tx w data K) as [b E]. now rewrite E in R. }
  destruct (tx_keys_complete tx addresses a T G I) as (key & E & Ik).
  destruct (to_key_address_ok _ _ _ E) as [La Aa].
  exists (map snd (entries_of a (map fst data'))). split.
  - apply get_from_address_iter_run; trivial.
  - apply (in_map snd _ (timestamp tx, h)). apply entries_of_in.
    exists key. split; [|now apply from_key_of_to_key].
    fold w' in K'. unfold w' in K'.
    rewrite (keyspace_after_add_tx tx w data K) in K'. injection K' as <-.
    destruct (sorted_put_all (tx_keys tx) data S) as [_ M].
    apply (in_map fst _ (key, [])). apply M. left. now split.
Qed.

(** The entries of an address depend on the keys stored for it alone. *)
Lemma entries_of_same (b : str) (data data' : list (bytes * bytes)) :
  sorted_entries data -> Forall (fun e => key_ok (fst e)) data ->
  sorted_entries data' -> Forall (fun e => key_ok (fst e)) data' ->
  (forall key ts h,
     _from_key key = Ok (b, ts, h) ->
     (In key (map fst data) <-> In key (map fst data'))) ->
  entries_of b (map fst data) = entries_of b (map fst data').
Proof.
  intros S F S' F' M. apply ts_hash_sorted_ext.
  - apply entries_of_sorted; [now apply sorted_entries_keys|
                              now apply Forall_key_ok_keys].
  - apply entries_of_sorted; [now apply sorted_entries_keys|
                              now apply Forall_key_ok_keys].
  - intros [ts h]. rewrite !entries_of_in. split.
    + intros (key & I & D). exists key. split; [|exact D].
      now apply (M key ts h D).
    + intros (key & I & D). exists key. split; [|exact D].
      now apply (M key ts h D).
Qed.

Lemma in_keys_put_all (keys : list bytes) (data : list (bytes * bytes)) (key : bytes) :
  sorted_entries data ->
  (In key (map fst (put_all keys data)) <-> In key keys \/ In key (map fst data)).
Proof.
  intro S. destruct (sorted_put_all keys data S) as [_ M]. split.
  - intro I. apply in_map_iff in I as ([k v] & <- & I).
    apply M in I as [[I _]|[I _]]; [now left|right].
    now apply (in_map fst) in I.
  - intros [I|I].
    + apply (in_map fst _ (key, [])). apply M. left. now split.
    + destruct (in_dec (list_eq_dec Byte.byte_eq_dec) key keys) as [Ik|N].
      * apply (in_map fst _ (key, [])). apply M. left. now split.
      * apply in_map_iff in I as (e & <- & I). apply in_map. apply M. right.
        now split.
Qed.

Lemma in_keys_delete_all (keys : list bytes) (data : list (bytes * bytes)) (key : bytes) :
  In key (map fst (delete_all keys data)) <-> In key (map fst data) /\ ~ In key keys.
Proof.
  split.
  - intro I. apply in_map_iff in I as (e & <- & I).
    apply in_delete_all in I as [I N]. split; [now apply in_map|exact N].
  - intros [I N]. apply in_map_iff in I as (e & <- & I).
    apply in_map. apply in_delete_all. now split.
Qed.

(** X11: [add_tx(tx)] and [remove_tx(tx)] change nothing of what
    [get_from_address] returns for an address that is not one of [tx]: on a
    well-formed index and for a 34-character ASCII address [b] outside the
    addresses of [tx], the list is the same before and after either call. *)
Theorem other_address_untouched (tx : BaseTransaction) (w : World) (b : str) :
  index_ok self w -> length b = 34 -> forallb is_ascii_char b = true ->
  (forall addresses, _get_addresses tx = Ok addresses -> ~ In b addresses) ->
  fst (get_from_address self b (after (add_tx self tx) w))
  = fst (get_from_address self b w) /\
  fst (get_from_address self b (after (remove_tx self tx) w))
  = fst (get_from_address self b w).
Proof.
  intros O L A N.
  pose proof (index_ok_add_tx self tx w O) as (d1 & K1 & S1 & F1).
  pose proof (index_ok_remove_tx self tx w O) as (d2 & K2 & S2 & F2).
  destruct O as (data & K & S & F).
  rewrite (keyspace_after_add_tx tx w data K) in K1. injection K1 as <-.
  rewrite (keyspace_after_remove_tx tx w data K) in K2. injection K2 as <-.
  assert (forall key ts h,
            _from_key key = Ok (b, ts, h) -> ~ In key (tx_keys tx)) as Other.
  { intros key ts h D I. apply in_tx_keys in I as (addresses & a & G & Ia & E).
    destruct (hash tx) as [g|] eqn:Hh.
    - rewrite (from_key_of_to_key a tx g key E Hh) in D.
      injection D as -> _ _. now apply (N addresses G).
    - unfold _to_key in E. rewrite Hh in E.
      destruct (assert _); [|discriminate]. cbn [bind_result] in E.
      destruct (encode_ascii a); discriminate. }
  unfold get_from_address.
  rewrite (get_from_address_iter_run self b _ _
             (keyspace_after_add_tx tx w data K) S1 F1 L A).
  rewrite (get_from_address_iter_run self b _ _
             (keyspace_after_remove_tx tx w data K) S2 F2 L A).
  rewrite (get_from_address_iter_run self b w data K S F L A).
  cbn [fst]. split; f_equal; f_equal; apply entries_of_same; trivial.
  - intros key ts h D. rewrite in_keys_put_all by exact S.
    specialize (Other key ts h D). intuition auto.
  - intros key ts h D. rewrite in_keys_delete_all.
    specialize (Other key ts h D). intuition auto.
Qed.

(** X12: after a [remove_tx(tx)] that returned, on a well-formed index, the
    entries [get_from_address] goes through for an address of [tx] no longer
    hold the one of [tx], and hold every other one they held. *)
Theorem remove_tx_then_entries (tx : BaseTransaction) (w : World)
  (h : bytes) (addresses : list str) (a : str) :
  index_ok self w -> fst (remove_tx self tx w) = Ok tt ->
  hash tx = Some h -> _get_addresses tx = Ok addresses -> In a addresses ->
  let w' := after (remove_tx self tx) w in
  exists data data',
    keyspace self w = Some data /\ keyspace self w' = Some data' /\
    get_from_address self a w'
    = (Ok (map snd (entries_of a (map fst data'))), w') /\
    forall x,
      In x (entries_of a (map fst data')) <->
      In x (entries_of a (map fst data)) /\ x <> (timestamp tx, h).
Proof.
  intros O R Hh G I w'.
  pose proof (index_ok_remove_tx self tx w O) as (data' & K' & S' & F').
  destruct O as (data & K & S & F).
  exists data, data'. split; [exact K|]. split; [exact K'|].
  assert (tx_raised tx = Ok tt) as T.
  { now rewrite (remove_tx_run _ _ _ _ K) in R. }
  destruct (tx_keys_complete tx addresses a T G I) as (key & E & Ik).
  destruct (to_key_address_ok _ _ _ E) as [La Aa].
  split; [now apply get_from_address_iter_run|].
  fold w' in K'. unfold w' in K'.
  rewrite (keyspace_after_remove_tx tx w data K) in K'. injection K' as <-.
  intros [ts g]. rewrite !entries_of_in. split.
  - intros (k & Ik' & D). apply in_keys_delete_all in Ik' as [Ik' Nk]. split.
    + exists k. auto.
    + intro X. injection X as -> ->. apply Nk.
      pose proof (to_key_of_from_key k a (timestamp tx) h tx D eq_refl Hh) as E2.
      rewrite E in E2. injection E2 as <-. exact Ik.
  - intros [(k & Ik' & D) Nx]. exists k. split; [|exact D].
    apply in_keys_delete_all. split; [exact Ik'|].
    intro It. apply in_tx_keys in It as (l & a' & _ & _ & E').
    rewrite (from_key_of_to_key a' tx h k E' Hh) in D. injection D as _ <- <-.
    now apply Nx.
Qed.

End Lookup.

(** ** Calls in sequence *)

Section Sequences.

Context `{Externals}.

Variable self : RocksDBAddressIndex.

Lemma db_after_add_tx (tx : BaseTransaction) (w : World) (data : list (bytes * bytes)) :
  keyspace self w = Some data ->
  db (after (add_tx self tx) w)
  = rocksdb.mkDB
      (rocksdb.set_cf (rocksdb.id (_cf self)) (put_all (tx_keys tx) data)
         (rocksdb.column_families (db w)))
      (rocksdb.max_column_family (db w)).
Proof.
  intro K. destruct (add_tx_run self tx w data K) as [b E].
  unfold after. now rewrite E.
Qed.

Lemma db_after_remove_tx (tx : BaseTransaction) (w : World) (data : list (bytes * bytes)) :
  keyspace self w = Some data ->
  db (after (remove_tx self tx) w)
  = rocksdb.mkDB
      (rocksdb.set_cf (rocksdb.id (_cf self)) (delete_all (tx_keys tx) data)
         (rocksdb.column_families (db w)))
      (rocksdb.max_column_family (db w)).
Proof.
  intro K. unfold after. now rewrite (remove_tx_run _ _ _ _ K).
Qed.

Lemma put_all_commute (k1 k2 : list bytes) (data : list (bytes * bytes)) :
  sorted_entries data ->
  put_all k2 (put_all k1 data) = put_all k1 (put_all k2 data).
Proof.
  intro S.
  destruct (sorted_put_all k1 data S) as [S1 M1].
  destruct (sorted_put_all k2 data S) as [S2 M2].
  destruct (sorted_put_all k2 _ S1) as [S21 M21].
  destruct (sorted_put_all k1 _ S2) as [S12 M12].
  apply sorted_entries_ext; trivial.
  intro e. rewrite M21, M12, M1, M2.
  destruct (in_dec (list_eq_dec Byte.byte_eq_dec) (fst e) k1);
    destruct (in_dec (list_eq_dec Byte.byte_eq_dec) (fst e) k2);
    intuition auto.
Qed.

(** X13: on an index whose entries are in key order, two [add_tx] calls
    leave the same database in either order, whether they return or raise:
    what is stored does not depend on the order transactions come in. *)
Theorem add_tx_commute (tx1 tx2 : BaseTransaction) (w : World)
  (data : list (bytes * bytes)) :
  keyspace self w = Some data -> sorted_entries data ->
  db (after (add_tx self tx2) (after (add_tx self tx1) w))
  = db (after (add_tx self tx1) (after (add_tx self tx2) w)).
Proof.
  intros K S.
  rewrite (db_after_add_tx tx2 _ _ (keyspace_after_add_tx self tx1 w data K)).
  rewrite (db_after_add_tx tx1 _ _ (keyspace_after_add_tx self tx2 w data K)).
  rewrite !(db_after_add_tx _ w data K). cbn [rocksdb.column_families
                                                rocksdb.max_column_family].
  rewrite !set_cf_twice. now rewrite (put_all_commute _ _ _ S).
Qed.

(** X14: on an index whose entries are in key order, a second
    [remove_tx(tx)] right after the first changes nothing more, and a
    [remove_tx(tx)] when no key of [tx] is stored changes nothing at all. *)
Theorem remove_tx_twice (tx : BaseTransaction) (w : World)
  (data : list (bytes * bytes)) :
  keyspace self w = Some data -> sorted_entries data ->
  let w1 := after (remove_tx self tx) w in
  db (after (remove_tx self tx) w1) = db w1 /\
  ((forall key, In key (tx_keys tx) -> ~ In key (map fst data)) -> w1 = w).
Proof.
  intros K S w1. destruct (sorted_delete_all (tx_keys tx) data S) as [S1 M1].
  split.
  - unfold w1.
    rewrite (db_after_remove_tx tx _ _ (keyspace_after_remove_tx self tx w data K)).
    rewrite (db_after_remove_tx tx w data K).
    cbn [rocksdb.column_families rocksdb.max_column_family].
    rewrite set_cf_twice. f_equal. f_equal.
    destruct (sorted_delete_all (tx_keys tx) _ S1) as [S2 M2].
    apply sorted_entries_ext; trivial.
    intro e. rewrite M2, M1. intuition auto.
  - intro A. unfold w1, after. rewrite (remove_tx_run _ _ _ _ K). cbn [snd].
    assert (delete_all (tx_keys tx) data = data) as ->.
    { apply sorted_entries_ext; trivial. intro e. rewrite M1. split.
      - now intros [I _].
      - intro I. split; [exact I|]. intro Ik. apply (A _ Ik). now apply in_map. }
    now apply set_keyspace_same.
Qed.

End Sequences.

Lemma add_tx_commute_witness :
  let w := sample.world0 in
  @db sample.externals
    (after (add_tx sample.index sample.T2) (after (add_tx sample.index sample.T1) w))
  = db (after (add_tx sample.index sample.T1)
          (after (add_tx sample.index sample.T2) w)).
Proof.
  apply (@add_tx_commute sample.externals sample.index sample.T1 sample.T2
           sample.world0 []).
  - reflexivity.
  - constructor.
Defined.

Lemma remove_tx_twice_witness :
  let w := after (@add_tx sample.externals sample.index sample.T1) sample.world0 in
  let w1 := after (remove_tx sample.index sample.T1) w in
  db (after (remove_tx sample.index sample.T1) w1) = db w1.
Proof.
  cbv zeta.
  refine (proj1 (@remove_tx_twice sample.externals sample.index sample.T1
                   (after (@add_tx sample.externals sample.index sample.T1)
                      sample.world0)
                   (put_all (@tx_keys sample.externals sample.T1) []) _ _)).
  - vm_compute. reflexivity.
  - apply sorted_put_all. constructor.
Defined.

(** ** Opening an index *)

Lemma filter_all {A} (f : A -> bool) (l : list A) :
  (forall x, In x l -> f x = true) -> filter f l = l.
Proof.
  induction l as [|x l IH]; intro T; simpl; [reflexivity|].
  rewrite (T x (or_introl eq_refl)). f_equal. apply IH.
  intros y I. apply T. now right.
Qed.

Lemma NoDup_map_filter {A B} (f : A -> B) (g : A -> bool) (l : list A) :
  NoDup (map f l) -> NoDup (map f (filter g l)).
Proof.
  induction l as [|x l IH]; simpl; intro N; [constructor|].
  inversion N as [|? ? Nx Nl]; subst.
  destruct (g x); simpl; [|now apply IH].
  constructor; [|now apply IH].
  intro I. apply Nx. apply in_map_iff in I as (y & E & I).
  apply filter_In in I as [I _]. rewrite <- E. now apply in_map.
Qed.

Lemma find_filter {A} (f g : A -> bool) (l : list A) (x : A) :
  find f l = Some x -> g x = true -> find f (filter g l) = Some x.
Proof.
  induction l as [|y l IH]; simpl; [discriminate|].
  destruct (f y) eqn:Fy.
  - intro E; injection E as ->. intros ->. simpl. now rewrite Fy.
  - intros E G. destruct (g y); simpl; [rewrite Fy|]; now apply IH.
Qed.

Lemma db_ok_same_shape (d d' : rocksdb.DB) :
  map rocksdb.cf_name (rocksdb.column_families d')
  = map rocksdb.cf_name (rocksdb.column_families d) ->
  map rocksdb.cf_id (rocksdb.column_families d')
  = map rocksdb.cf_id (rocksdb.column_families d) ->
  rocksdb.max_column_family d' = rocksdb.max_column_family d ->
  db_ok d -> db_ok d'.
Proof.
  intros En Ei Em (Nn & Ni & F). unfold db_ok. rewrite En, Ei, Em.
  split; [exact Nn|]. split; [exact Ni|].
  apply (Forall_map rocksdb.cf_id
           (fun i => (i <= rocksdb.max_column_family d)%N)).
  rewrite Ei.
  now apply (Forall_map rocksdb.cf_id
               (fun i => (i <= rocksdb.max_column_family d)%N)).
Qed.

Lemma db_ok_shape (d d' : rocksdb.DB) : shape d' = shape d -> db_ok d -> db_ok d'.
Proof.
  unfold shape. intro E. injection E as En Ei Em. now apply db_ok_same_shape.
Qed.

Lemma put_shape (d d' : rocksdb.DB) (at_ : rocksdb.ColumnFamilyHandle * bytes)
  (v : bytes) :
  rocksdb.put d at_ v = Ok d' -> shape d' = shape d.
Proof.
  destruct at_ as [h k]. unfold rocksdb.put.
  destruct (rocksdb.find_cf _ _); [|discriminate].
  intro E; injection E as <-. unfold shape. simpl.
  now destruct (set_cf_names (rocksdb.id h) (rocksdb.put_entry k v (rocksdb.cf_data c))
                  (rocksdb.column_families d)) as [-> ->].
Qed.

Lemma delete_shape (d d' : rocksdb.DB) (at_ : rocksdb.ColumnFamilyHandle * bytes) :
  rocksdb.delete d at_ = Ok d' -> shape d' = shape d.
Proof.
  destruct at_ as [h k]. unfold rocksdb.delete.
  destruct (rocksdb.find_cf _ _); [|discriminate].
  intro E; injection E as <-. unfold shape. simpl.
  now destruct (set_cf_names (rocksdb.id h) (rocksdb.delete_entry k (rocksdb.cf_data c))
                  (rocksdb.column_families d)) as [-> ->].
Qed.

Lemma find_cf_same_ids (i : N) (cfs cfs' : list rocksdb.ColumnFamily) :
  map rocksdb.cf_id cfs' = map rocksdb.cf_id cfs ->
  rocksdb.find_cf i cfs = None -> rocksdb.find_cf i cfs' = None.
Proof.
  revert cfs'. induction cfs as [|c t IH]; intros [|c' t'] E;
    try discriminate; [reflexivity|].
  injection E as E0 E. unfold rocksdb.find_cf. cbn [find]. rewrite E0.
  destruct (rocksdb.cf_id c =? i)%N; [discriminate|]. exact (IH t' E).
Qed.

Section Opening.

Context `{Externals}.

Lemma on_db_shape (f : rocksdb.DB -> result rocksdb.DB) (w : World) :
  (forall d d', f d = Ok d' -> shape d' = shape d) ->
  shape (db (snd (on_db f w))) = shape (db w).
Proof.
  intro P. unfold on_db. destruct (f (db w)) as [d|e] eqn:E; [|reflexivity].
  simpl. now apply P.
Qed.

Lemma loop_shape (tx : BaseTransaction)
  (f : rocksdb.DB -> bytes -> result rocksdb.DB) (addresses : list str) :
  (forall d d' k, f d k = Ok d' -> shape d' = shape d) ->
  forall w : World,
    shape (db (snd (for_each addresses (fun address =>
                      key <- lift (_to_key address (Some tx)) ;;
                      on_db (fun d => f d key))%M w)))
    = shape (db w).
Proof.
  intro P. induction addresses as [|a rest IH]; intro w; [reflexivity|].
  cbn [for_each]. unfold bind at 1. rewrite bind_lift.
  destruct (_to_key a (Some tx)) as [key|e]; [|reflexivity].
  pose proof (on_db_shape (fun d => f d key) w (fun d d' => P d d' key)) as S.
  destruct (on_db (fun d => f d key) w) as [[[]|e] w1]; [|exact S].
  rewrite IH. exact S.
Qed.

Lemma run_call_shape (self : RocksDBAddressIndex) (c : call) (w : World) :
  shape (db (run_call self c w)) = shape (db w).
Proof.
  destruct c as [tx|tx]; unfold run_call, after.
  - unfold add_tx. rewrite bind_lift.
    destruct (assert (is_some (hash tx))); [|reflexivity].
    rewrite bind_lift. destruct (_get_addresses tx) as [addresses|e]; [|reflexivity].
    pose proof (loop_shape tx (fun d key => rocksdb.put d (_cf self, key) [])
                  addresses (fun d d' k => put_shape d d' _ [])) as S.
    specialize (S w). unfold bind.
    destruct (for_each addresses _ w) as [[[]|e] w1]; [|exact S].
    rewrite publish_tx_given. exact S.
  - unfold remove_tx. rewrite bind_lift.
    destruct (assert (is_some (hash tx))); [|reflexivity].
    rewrite bind_lift. destruct (_get_addresses tx) as [addresses|e]; [|reflexivity].
    apply (loop_shape tx (fun d key => rocksdb.delete d (_cf self, key))
             addresses (fun d d' k => delete_shape d d' _)).
Qed.

Lemma run_calls_shape (self : RocksDBAddressIndex) (cs : list call) :
  forall w : World, shape (db (run_calls self cs w)) = shape (db w).
Proof.
  induction cs as [|c cs IH]; intro w; [reflexivity|].
  unfold run_calls. cbn [fold_left]. fold (run_calls self cs (run_call self c w)).
  rewrite IH. apply run_call_shape.
Qed.

Lemma fresh_cf_exact (n : bytes) (w : World) :
  db_ok (db w) -> forallb is_ascii_byte n = true ->
  _fresh_cf n w
  = (Ok (rocksdb.mkHandle n (rocksdb.max_column_family (db w) + 1)),
     mkWorld (reopened n (db w)) (bus w)).
Proof.
  intros (Nn & Ni & Fi) A. rewrite Forall_forall in Fi.
  destruct w as [[cfs m] b]. unfold reopened. simpl in *.
  unfold _fresh_cf. rewrite bind_lift. unfold decode_ascii. rewrite A.
  unfold bind at 1, read_db at 1. cbn [db].
  unfold rocksdb.get_column_family at 1. cbn [rocksdb.column_families].
  destruct (find (fun cf => bytes_eqb (rocksdb.cf_name cf) n) cfs) as [cf0|] eqn:F.
  - apply find_some in F as [I0 N0]. apply bytes_eqb_eq in N0.
    assert (filter (fun cf => negb (rocksdb.cf_id cf =? rocksdb.cf_id cf0)%N) cfs
            = filter (fun cf => negb (bytes_eqb (rocksdb.cf_name cf) n)) cfs) as Same.
    { apply filter_ext_in. intros cf I. f_equal.
      destruct (bytes_eqb (rocksdb.cf_name cf) n) eqn:E.
      - apply bytes_eqb_eq in E.
        rewrite (NoDup_map_eq rocksdb.cf_name cfs cf cf0 Nn I I0) by congruence.
        apply N.eqb_refl.
      - apply N.eqb_neq. intro E'.
        rewrite (NoDup_map_eq rocksdb.cf_id cfs cf cf0 Ni I I0 E') in E.
        now rewrite N0, bytes_eqb_refl in E. }
    destruct (find_in_some (fun cf => (rocksdb.cf_id cf =? rocksdb.cf_id cf0)%N)
                cfs cf0 I0 (N.eqb_refl _)) as [y Fy].
    unfold bind, drop_column_family, on_db, rocksdb.drop_column_family,
      rocksdb.is_valid, rocksdb.find_cf, ret, create_column_family,
      rocksdb.create_column_family, rocksdb.get_column_family, read_db, lift.
    cbn [db rocksdb.id rocksdb.column_families rocksdb.max_column_family bus].
    rewrite Fy. cbn [db rocksdb.column_families rocksdb.max_column_family bus].
    rewrite Same.
    destruct (find (fun cf => bytes_eqb (rocksdb.cf_name cf) n)
                (filter (fun cf => negb (bytes_eqb (rocksdb.cf_name cf) n)) cfs))
      as [c|] eqn:Fc.
    { apply find_some in Fc as [Ic Ec]. apply filter_In in Ic as [_ Ic].
      rewrite Ec in Ic. discriminate. }
    cbn [db rocksdb.id rocksdb.column_families rocksdb.max_column_family bus
         find rocksdb.cf_id].
    rewrite N.eqb_refl. cbn [assert option_N_eqb].
    assert ((m + 1 =? rocksdb.cf_id cf0)%N = false) as ->.
    { apply N.eqb_neq. specialize (Fi cf0 I0). lia. }
    reflexivity.
  - rewrite (filter_all (fun cf => negb (bytes_eqb (rocksdb.cf_name cf) n)) cfs)
      by (intros cf I; now rewrite (find_none _ _ F cf I)).
    unfold bind, ret, create_column_family, rocksdb.create_column_family,
      rocksdb.get_column_family, read_db, lift, rocksdb.is_valid, rocksdb.find_cf.
    cbn [db rocksdb.id rocksdb.column_families rocksdb.max_column_family bus].
    rewrite F.
    cbn [db rocksdb.id rocksdb.column_families rocksdb.max_column_family bus
         find rocksdb.cf_id].
    rewrite N.eqb_refl. reflexivity.
Qed.

Lemma db_ok_reopened (n : bytes) (d : rocksdb.DB) : db_ok d -> db_ok (reopened n d).
Proof.
  intros (Nn & Ni & Fi). rewrite Forall_forall in Fi.
  unfold db_ok, reopened. simpl. split; [|split].
  - constructor; [|now apply NoDup_map_filter].
    intro I. apply in_map_iff in I as (cf & E & I).
    apply filter_In in I as [_ I]. now rewrite E, bytes_eqb_refl in I.
  - constructor; [|now apply NoDup_map_filter].
    intro I. apply in_map_iff in I as (cf & E & I).
    apply filter_In in I as [I _]. specialize (Fi cf I). lia.
  - constructor; [simpl; lia|].
    apply Forall_forall. intros cf I. apply filter_In in I as [I _].
    specialize (Fi cf I). lia.
Qed.

Lemma init_exact (cf_name : option bytes) (ps : bool) (w : World) :
  db_ok (db w) -> forallb is_ascii_byte (name_or_default cf_name) = true ->
  let n := name_or_default cf_name in
  __init__ cf_name ps w
  = (Ok (mkIndex n (rocksdb.mkHandle n (rocksdb.max_column_family (db w) + 1)) ps),
     mkWorld (reopened n (db w))
       (mkPubSub
          (subscribers (bus w)
             ++ (if ps then [(STORAGE_TX_VOIDED, n); (STORAGE_TX_WINNER, n)] else []))
          (published (bus w)))).
Proof.
  intros O A n. unfold __init__. fold (name_or_default cf_name). fold n.
  erewrite bind_Ok by (rewrite reset_cf_fresh_cf; apply (fresh_cf_exact n w O A)).
  destruct ps.
  - unfold bind, subscribe_pubsub_events, lift, for_each, subscribe, ret. simpl.
    now rewrite <- app_assoc.
  - unfold bind, ret. simpl. rewrite app_nil_r. now destruct (bus w).
Qed.

Lemma init_bad_name (cf_name : option bytes) (ps : bool) (w : World) :
  forallb is_ascii_byte (name_or_default cf_name) = false ->
  __init__ cf_name ps w = (Raise UnicodeDecodeError, w).
Proof.
  intro A. unfold __init__. fold (name_or_default cf_name).
  unfold _reset_cf. unfold bind at 1. rewrite bind_lift.
  unfold decode_ascii. now rewrite A.
Qed.

(** X15: on a well-formed database, [__init__] with a name that is ASCII
    (the default, ['address-index'], when [cf_name] is [None] or empty)
    returns an index on a valid handle of that name whose keyspace is
    empty; the database stays well formed; with a pubsub the handler is
    subscribed to [STORAGE_TX_VOIDED] and to [STORAGE_TX_WINNER], in that
    order, after the subscribers there were, and without one the bus is as
    it was; nothing is published.  With a name that is not ASCII it raises
    [UnicodeDecodeError] and nothing is dropped or created. *)
Theorem init_outcome (cf_name : option bytes) (ps : bool) (w : World) :
  let n := name_or_default cf_name in
  (db_ok (db w) -> forallb is_ascii_byte n = true ->
   exists self w',
     __init__ cf_name ps w = (Ok self, w') /\
     _cf_name self = n /\ rocksdb.name (_cf self) = n /\ pubsub self = ps /\
     rocksdb.is_valid (_cf self) (db w') = true /\
     keyspace self w' = Some [] /\
     db_ok (db w') /\
     subscribers (bus w')
     = subscribers (bus w)
       ++ (if ps then [(STORAGE_TX_VOIDED, n); (STORAGE_TX_WINNER, n)] else []) /\
     published (bus w') = published (bus w)) /\
  (forallb is_ascii_byte n = false ->
   __init__ cf_name ps w = (Raise UnicodeDecodeError, w)).
Proof.
  intro n. split.
  - intros O A. eexists _, _. split; [apply (init_exact cf_name ps w O A)|].
    fold n. cbn [_cf_name _cf pubsub rocksdb.name db bus subscribers published].
    split; [reflexivity|]. split; [reflexivity|]. split; [reflexivity|].
    split; [|split; [|split; [|split; reflexivity]]].
    + unfold rocksdb.is_valid, rocksdb.find_cf, reopened. simpl.
      now rewrite N.eqb_refl.
    + unfold keyspace, rocksdb.find_cf, reopened. simpl. now rewrite N.eqb_refl.
    + now apply db_ok_reopened.
  - apply init_bad_name.
Qed.

(** X16: a second [__init__] under the name of an index starts from
    nothing and takes the column family of the first away.  After
    [__init__] returned an index on a well-formed database, and after any
    [add_tx] and [remove_tx] calls on it, a second [__init__] with the same
    name returns an index on a column family of another identity that has
    no key: [get_from_address] on it returns the empty list for every
    34-character ASCII address, whatever the first index held.  The
    database no longer has the column family of the first index, and no
    [add_tx] or [remove_tx] on the second index brings it back. *)
Theorem second_init_drops_first (cf_name : option bytes) (ps ps' : bool)
  (w0 w1 : World) (first : RocksDBAddressIndex) (cs : list call) :
  db_ok (db w0) ->
  __init__ cf_name ps w0 = (Ok first, w1) ->
  exists second w2,
    __init__ cf_name ps' (run_calls first cs w1) = (Ok second, w2) /\
    rocksdb.id (_cf second) <> rocksdb.id (_cf first) /\
    keyspace second w2 = Some [] /\
    (forall a,
       length a = 34 -> forallb is_ascii_char a = true ->
       get_from_address second a w2 = (Ok [], w2)) /\
    forall cs', keyspace first (run_calls second cs' w2) = None.
Proof.
  intros O I.
  assert (forallb is_ascii_byte (name_or_default cf_name) = true) as A.
  { destruct (forallb is_ascii_byte (name_or_default cf_name)) eqn:E; trivial.
    pose proof (init_bad_name cf_name ps w0 E) as R. congruence. }
  rewrite (init_exact cf_name ps w0 O A) in I. cbv zeta in I.
  injection I as <- <-.
  set (n := name_or_default cf_name) in *.
  set (i := (rocksdb.max_column_family (db w0) + 1)%N) in *.
  set (first := mkIndex n (rocksdb.mkHandle n i) ps).
  set (w1 := mkWorld (reopened n (db w0)) _).
  pose proof (run_calls_shape first cs w1) as Sh.
  set (w1' := run_calls first cs w1) in *.
  assert (db_ok (db w1')) as O1
    by (apply (db_ok_shape _ _ Sh); now apply db_ok_reopened).
  set (second := mkIndex n
                   (rocksdb.mkHandle n (rocksdb.max_column_family (db w1') + 1)) ps').
  set (w2 := mkWorld (reopened n (db w1'))
               (mkPubSub
                  (subscribers (bus w1')
                     ++ (if ps'
                         then [(STORAGE_TX_VOIDED, n); (STORAGE_TX_WINNER, n)]
                         else []))
                  (published (bus w1')))).
  exists second, w2. split; [apply (init_exact cf_name ps' w1' O1 A)|].
  cbv zeta. fold n. unfold shape in Sh. injection Sh as Sn Si Sm.
  cbn [db w1 reopened rocksdb.column_families rocksdb.max_column_family map
       rocksdb.cf_name rocksdb.cf_id] in Sn, Si, Sm. fold i in Si, Sm.
  cbn [_cf rocksdb.id first].
  assert (rocksdb.find_cf i (rocksdb.column_families (reopened n (db w1'))) = None)
    as Gone.
  { unfold reopened. cbn [rocksdb.column_families]. unfold rocksdb.find_cf.
    cbn [find rocksdb.cf_id]. rewrite Sm.
    replace (i + 1 =? i)%N with false by (symmetry; apply N.eqb_neq; lia).
    destruct (find _ _) as [c|] eqn:Fc; [|reflexivity].
    apply find_some in Fc as [Ic Ec]. apply N.eqb_eq in Ec.
    apply filter_In in Ic as [Ic Nc].
    destruct (rocksdb.column_families (db w1')) as [|c0 rest]; [destruct Ic|].
    cbn [map] in Sn, Si. injection Sn as Sn0 Sn. injection Si as Si0 Si.
    destruct Ic as [<-|Ic].
    - now rewrite Sn0, bytes_eqb_refl in Nc.
    - pose proof (db_ok_reopened n (db w0) O) as (_ & Ni & _).
      unfold reopened in Ni. cbn [rocksdb.column_families map rocksdb.cf_id] in Ni.
      fold i in Ni. inversion Ni as [|? ? Nx _]; subst.
      elim Nx. rewrite <- Si, <- Ec. now apply in_map. }
  assert (keyspace second w2 = Some []) as Fresh.
  { unfold keyspace, rocksdb.find_cf, second, w2, reopened. simpl.
    now rewrite N.eqb_refl. }
  split; [cbn [second _cf rocksdb.id]; rewrite Sm; lia|].
  split; [exact Fresh|]. split.
  - intros a La Aa. unfold get_from_address.
    rewrite (get_from_address_iter_run second a w2 [] Fresh);
      trivial; constructor.
  - intro cs'. unfold keyspace. change (rocksdb.id (_cf first)) with i.
    pose proof (f_equal (fun x => snd (fst x)) (run_calls_shape second cs' w2))
      as Si'.
    now rewrite (find_cf_same_ids i
                   (rocksdb.column_families (reopened n (db w1'))) _ Si' Gone).
Qed.

(** X17: [__init__] under one name leaves the indexes on column families of
    other names as they are: on a well-formed database, an index whose
    column family has a name other than the one being opened has the same
    keyspace after the [__init__] as before. *)
Theorem init_keeps_other_indexes (cf_name : option bytes) (ps : bool)
  (w w' : World) (self other : RocksDBAddressIndex) (cf : rocksdb.ColumnFamily) :
  db_ok (db w) ->
  rocksdb.find_cf (rocksdb.id (_cf other)) (rocksdb.column_families (db w)) = Some cf ->
  rocksdb.cf_name cf <> name_or_default cf_name ->
  __init__ cf_name ps w = (Ok self, w') ->
  keyspace other w' = keyspace other w /\
  rocksdb.id (_cf self) <> rocksdb.id (_cf other).
Proof.
  intros O F N I.
  assert (forallb is_ascii_byte (name_or_default cf_name) = true) as A.
  { destruct (forallb is_ascii_byte (name_or_default cf_name)) eqn:E; trivial.
    pose proof (init_bad_name cf_name ps w E) as R. congruence. }
  rewrite (init_exact cf_name ps w O A) in I. cbv zeta in I.
  injection I as <- <-.
  pose proof F as F'. unfold rocksdb.find_cf in F'.
  apply find_some in F' as [Ic Ec]. apply N.eqb_eq in Ec.
  destruct O as (_ & _ & Fi). rewrite Forall_forall in Fi.
  specialize (Fi cf Ic).
  split; [|cbn [_cf rocksdb.id]; lia].
  unfold keyspace. cbn [db reopened rocksdb.column_families].
  rewrite F. unfold rocksdb.find_cf. cbn [find rocksdb.cf_id].
  replace (rocksdb.max_column_family (db w) + 1 =? rocksdb.id (_cf other))%N
    with false by (symmetry; apply N.eqb_neq; lia).
  erewrite find_filter; [reflexivity|exact F|].
  destruct (bytes_eqb (rocksdb.cf_name cf) (name_or_default cf_name)) eqn:E;
    [|reflexivity].
  now apply bytes_eqb_eq in E.
Qed.

End Opening.

(** ** What the queries raise *)

Section QueryErrors.

Context `{Externals}.

Variable self : RocksDBAddressIndex.

Lemma to_key_bad_length (a : str) (tx : option BaseTransaction) :
  length a <> 34 -> _to_key a tx = Raise AssertionError.
Proof.
  intro N. unfold _to_key. apply Nat.eqb_neq in N. now rewrite N.
Qed.

Lemma to_key_not_ascii (a : str) (tx : option BaseTransaction) :
  length a = 34 -> forallb is_ascii_char a = false ->
  _to_key a tx = Raise UnicodeEncodeError.
Proof.
  intros L A. unfold _to_key, encode_ascii. now rewrite L, A.
Qed.

(** X18: on an index that has its column family, the three queries,
    [get_from_address], [get_sorted_from_address] and [is_address_empty],
    change nothing, whatever they return or raise, and they raise what
    [_to_key] raises for the address, before any key is read:
    [AssertionError] for an address that is not 34 characters long, ASCII
    or not, and [UnicodeEncodeError] for an address of 34 characters with a
    character outside ASCII. *)
Theorem queries_raise (a : str) (w : World) (data : list (bytes * bytes)) :
  keyspace self w = Some data ->
  (snd (get_from_address self a w) = w /\
   snd (get_sorted_from_address self a w) = w /\
   snd (is_address_empty self a w) = w) /\
  (length a <> 34 ->
   fst (get_from_address self a w) = Raise AssertionError /\
   fst (get_sorted_from_address self a w) = Raise AssertionError /\
   fst (is_address_empty self a w) = Raise AssertionError) /\
  (length a = 34 -> forallb is_ascii_char a = false ->
   fst (get_from_address self a w) = Raise UnicodeEncodeError /\
   fst (get_sorted_from_address self a w) = Raise UnicodeEncodeError /\
   fst (is_address_empty self a w) = Raise UnicodeEncodeError).
Proof.
  intro K.
  unfold get_from_address, get_sorted_from_address, _get_from_address_iter,
    is_address_empty.
  split; [|split].
  - unfold bind, lift, ret. rewrite (iterkeys_run self w data K).
    destruct (_to_key a None); [|now repeat split].
    destruct (_from_key _) as [[[? ?] ?]|]; now repeat split.
  - intro L. split; [|split];
      (erewrite bind_Ok by (rewrite (iterkeys_run self w data K); reflexivity));
      rewrite bind_lift, (to_key_bad_length a None L); reflexivity.
  - intros L A. split; [|split];
      (erewrite bind_Ok by (rewrite (iterkeys_run self w data K); reflexivity));
      rewrite bind_lift, (to_key_not_ascii a None L A); reflexivity.
Qed.

End QueryErrors.

(** ** The oracle data encoder *)

Module oracle_facts.

Import oracle_encode_data.

Lemma be_bytes_length (w : nat) : forall n, length (be_bytes w n) = w.
Proof.
  induction w as [|w IH]; intro n; simpl; [reflexivity|].
  rewrite length_app, IH. simpl. lia.
Qed.

Lemma be_value_snoc (l : bytes) (x : byte) :
  be_value (l ++ [x]) = (be_value l * 256 + struct.Z_of_byte x)%Z.
Proof. unfold be_value. now rewrite fold_left_app. Qed.

Lemma be_value_be_bytes (w : nat) :
  forall n, (0 <= n < 256 ^ Z.of_nat w)%Z -> be_value (be_bytes w n) = n.
Proof.
  induction w as [|w IH]; intros n R.
  - simpl in *. unfold be_value. simpl. lia.
  - rewrite Nat2Z.inj_succ, Z.pow_succ_r in R by lia.
    cbn [be_bytes]. rewrite be_value_snoc, IH.
    + rewrite Z_of_byte_of_Z by (Z.div_mod_to_equations; lia).
      Z.div_mod_to_equations; lia.
    + Z.div_mod_to_equations; nia.
Qed.

Ltac width :=
  repeat match goal with
         | |- context [(256 ^ Z.of_nat ?w)%Z] =>
             let v := eval vm_compute in (256 ^ Z.of_nat w)%Z in
             change (256 ^ Z.of_nat w)%Z with v
         end.

Lemma pack_unsigned_in_range (w : nat) (n : Z) :
  (0 <= n < 256 ^ Z.of_nat w)%Z -> pack_unsigned w n = Return (be_bytes w n).
Proof.
  intro R. unfold pack_unsigned.
  replace ((0 <=? n) && (n <? 256 ^ Z.of_nat w))%Z with true; [reflexivity|].
  symmetry. apply andb_true_iff. split; [apply Z.leb_le|apply Z.ltb_lt]; lia.
Qed.

Lemma pack_unsigned_out_of_range (w : nat) (n : Z) :
  (n < 0 \/ 256 ^ Z.of_nat w <= n)%Z -> pack_unsigned w n = Raises struct_error.
Proof.
  intro R. unfold pack_unsigned.
  replace ((0 <=? n) && (n <? 256 ^ Z.of_nat w))%Z with false; [reflexivity|].
  symmetry. apply andb_false_iff.
  destruct R; [left; apply Z.leb_gt|right; apply Z.ltb_ge]; lia.
Qed.

(** The four bytes of ['!I'] here are the four bytes of ['>I'] in the key
    codec. *)
Lemma pack_unsigned_4 (n : Z) :
  (0 <= n < 4294967296)%Z ->
  exists b, pack_unsigned 4 n = Return b /\ struct.pack_I n = Ok b.
Proof.
  intro R. exists (be_bytes 4 n). split.
  - apply pack_unsigned_in_range. width; lia.
  - unfold struct.pack_I.
    replace ((0 <=? n) && (n <? 4294967296))%Z with true
      by (symmetry; apply andb_true_iff; split;
          [apply Z.leb_le|apply Z.ltb_lt]; lia).
    cbn [be_bytes app].
    replace ((n / 256 / 256 / 256) mod 256)%Z with (n / 16777216)%Z
      by (Z.div_mod_to_equations; lia).
    replace ((n / 256 / 256) mod 256)%Z with ((n / 65536) mod 256)%Z
      by (Z.div_mod_to_equations; lia).
    reflexivity.
Qed.

Section Encoder.

Variable int : unicode -> option Z.

(** X19: [encode_int] raises [ValueError] when [int(data)] does.  For
    [d = int(data)] in [0, 2^64) it returns [d] in big-endian, in the
    narrowest of 1, 2, 4 and 8 bytes that holds it; reading the bytes back as
    a number gives [d].  For a negative [d] and for [d >= 2^64] it raises
    [struct.error]. *)
Theorem encode_int_outcome (data : unicode) :
  (int data = None -> encode_int int data = Raises ValueError) /\
  forall d,
    int data = Some d ->
    ((d < 0 \/ 18446744073709551616 <= d)%Z ->
     encode_int int data = Raises struct_error) /\
    ((0 <= d < 18446744073709551616)%Z ->
     exists b,
       encode_int int data = Return b /\
       be_value b = d /\
       length b = if (d <=? 255)%Z then 1
                  else if (d <=? 65535)%Z then 2
                  else if (d <=? 4294967295)%Z then 4
                  else 8).
Proof.
  split; [intro E; unfold encode_int; now rewrite E|].
  intros d E. unfold encode_int. rewrite E.
  rewrite !Z.gtb_ltb.
  destruct (Z.ltb_spec 4294967295 d) as [L8|L8];
    [|destruct (Z.ltb_spec 65535 d) as [L4|L4];
      [|destruct (Z.ltb_spec 255 d) as [L2|L2]]].
  - split.
    + intro R. apply pack_unsigned_out_of_range. width; lia.
    + intro R. exists (be_bytes 8 d).
      split; [apply pack_unsigned_in_range; width; lia|].
      split; [apply be_value_be_bytes; width; lia|].
      rewrite be_bytes_length.
      destruct (Z.leb_spec d 255); destruct (Z.leb_spec d 65535);
        destruct (Z.leb_spec d 4294967295); try lia; reflexivity.
  - split; [intro R; lia|].
    intro R. exists (be_bytes 4 d).
    split; [apply pack_unsigned_in_range; width; lia|].
    split; [apply be_value_be_bytes; width; lia|].
    rewrite be_bytes_length.
    destruct (Z.leb_spec d 255); destruct (Z.leb_spec d 65535);
        destruct (Z.leb_spec d 4294967295); try lia; reflexivity.
  - split; [intro R; lia|].
    intro R. exists (be_bytes 2 d).
    split; [apply pack_unsigned_in_range; width; lia|].
    split; [apply be_value_be_bytes; width; lia|].
    rewrite be_bytes_length.
    destruct (Z.leb_spec d 255); destruct (Z.leb_spec d 65535);
        destruct (Z.leb_spec d 4294967295); try lia; reflexivity.
  - split.
    + intro R. apply pack_unsigned_out_of_range. width; lia.
    + intro R. exists (be_bytes 1 d).
      split; [apply pack_unsigned_in_range; width; lia|].
      split; [apply be_value_be_bytes; width; lia|].
      rewrite be_bytes_length.
      destruct (Z.leb_spec d 255); destruct (Z.leb_spec d 65535);
        destruct (Z.leb_spec d 4294967295); try lia; reflexivity.
Qed.







Lemma read_items_frames (items : list bytes) :
  forall fuel,
    length items < fuel -> Forall (fun item => length item <= 255) items ->
    read_items fuel (frames items) = Some items.
Proof.
  induction items as [|item items IH]; intros [|fuel] L F; simpl in L; try lia.
  - reflexivity.
  - inversion F as [|? ? Li Fi]; subst.
    unfold frames. cbn [map concat]. fold (frames items).
    cbn [read_items app].
    rewrite Z_of_byte_of_Z by lia. rewrite Nat2Z.id.
    replace (length (item ++ frames items) <? length item) with false
      by (symmetry; apply Nat.ltb_ge; rewrite length_app; lia).
    rewrite (skipn_app_length _ _ _ eq_refl), (firstn_app_length _ _ _ eq_refl).
    rewrite IH; trivial. lia.
Qed.

Lemma main_loop_data (data : list unicode) :
  forall acc b,
    main_loop int data acc = Return (Data b) ->
    exists items,
      Forall2 (item_of int) data items /\
      Forall (fun item => length item <= 255) items /\
      b = acc ++ frames items.
Proof.
  induction data as [|d rest IH]; intros acc b.
  - simpl. intro E; injection E as <-. exists []. repeat split; try constructor.
    unfold frames. simpl. now rewrite app_nil_r.
  - cbn [main_loop].
    destruct (split_colon d) as [|t [|x [|? ?]]] eqn:Sp; try discriminate.
    assert (forall item,
              ((t = int_tag /\ encode_int int x = Return item) \/
               (t = str_tag /\ encode_str (inl x) = Return item)) ->
              match bytes_of_length (length item) with
              | Raises e => Raises e
              | Return n => main_loop int rest (acc ++ n ++ item)
              end = Return (Data b) ->
              exists items,
                Forall2 (item_of int) (d :: rest) items /\
                Forall (fun item => length item <= 255) items /\
                b = acc ++ frames items) as Step.
    { intros item Hitem. unfold bytes_of_length.
      destruct (Nat.leb_spec (length item) 255) as [L|L]; [|discriminate].
      intro E. destruct (IH _ _ E) as (items & F2 & F & ->).
      exists (item :: items). split; [|split].
      - constructor; [|exact F2]. now exists t, x.
      - now constructor.
      - unfold frames. cbn [map concat]. now rewrite <- !app_assoc. }
    unfold unicode_eqb.
    destruct (list_eq_dec N.eq_dec t int_tag) as [Ti|Ti].
    + destruct (encode_int int x) as [item|e] eqn:Ei; [|discriminate].
      apply Step. now left.
    + destruct (list_eq_dec N.eq_dec t str_tag) as [Ts|Ts]; [|discriminate].
      destruct (encode_str (inl x)) as [item|e] eqn:Es; [|discriminate].
      apply Step. now right.
Qed.

(** X21: when the loop of [main] runs through all the arguments, the binary
    data is, item after item, one byte holding the item's length and then the
    item; each item is what [encode_int] or [encode_str] returned for the
    argument of that position, and is at most 255 bytes long.  So the
    data reads back into the items without ambiguity. *)
Theorem main_loop_frames (data : list unicode) (b : bytes) :
  main_loop int data [] = Return (Data b) ->
  exists items,
    Forall2 (item_of int) data items /\
    Forall (fun item => length item <= 255) items /\
    b = frames items /\
    read_items (S (length items)) b = Some items.
Proof.
  intro E. destruct (main_loop_data data [] b E) as (items & F2 & F & ->).
  exists items. repeat split; trivial.
  apply read_items_frames; [lia|exact F].
Qed.

Lemma split_colon_length (d : unicode) :
  length (split_colon d) = S (count_occ N.eq_dec d 58%N).
Proof.
  induction d as [|c d IH]; [reflexivity|].
  cbn [split_colon count_occ].
  destruct (N.eqb_spec c 58) as [->|N].
  - destruct (N.eq_dec 58 58); [|easy]. simpl. now rewrite IH.
  - destruct (N.eq_dec c 58); [easy|].
    destruct (split_colon d); simpl in *; [discriminate|exact IH].
Qed.

(** X22: how the loop of [main] stops at an argument.  An argument with no
    colon, or with more than one, raises [ValueError].  One of the form
    [t:x] with [t] neither ['int'] nor ['str'] ends the loop as a wrong type,
    whatever comes after it.  And a ['str'] argument whose UTF-8 bytes are
    more than 255 raises [ValueError]. *)
Theorem main_loop_stops (d : unicode) (rest : list unicode) (acc : bytes) :
  (count_occ N.eq_dec d 58%N <> 1 ->
   main_loop int (d :: rest) acc = Raises ValueError) /\
  (forall t x,
     split_colon d = [t; x] -> t <> int_tag -> t <> str_tag ->
     main_loop int (d :: rest) acc = Return (WrongType d)) /\
  (forall x item,
     split_colon d = [str_tag; x] -> encode_str (inl x) = Return item ->
     255 < length item ->
     main_loop int (d :: rest) acc = Raises ValueError).
Proof.
  split; [|split].
  - intro N. pose proof (split_colon_length d) as L. cbn [main_loop].
    destruct (split_colon d) as [|t [|x [|? ?]]]; try reflexivity.
    simpl in L. lia.
  - intros t x Sp Ti Ts. cbn [main_loop]. rewrite Sp. unfold unicode_eqb.
    destruct (list_eq_dec N.eq_dec t int_tag); [easy|].
    destruct (list_eq_dec N.eq_dec t str_tag); [easy|]. reflexivity.
  - intros x item Sp Es L. cbn [main_loop]. rewrite Sp. unfold unicode_eqb.
    destruct (list_eq_dec N.eq_dec str_tag int_tag); [discriminate|].
    destruct (list_eq_dec N.eq_dec str_tag str_tag); [|easy].
    rewrite Es. unfold bytes_of_length.
    destruct (Nat.leb_spec (length item) 255); [lia|reflexivity].
Qed.

End Encoder.

End oracle_facts.

(** ** Further instances on the sample data *)

Lemma to_key_returns_iff_witness :
  exists key, _to_key sample.A (Some sample.T1) = Ok key.
Proof.
  apply (proj2 (proj1 (to_key_returns_iff sample.A sample.T1))).
  split; [reflexivity|]. split; [reflexivity|]. split.
  - exists sample.hash1. split; reflexivity.
  - simpl. lia.
Defined.

Lemma get_addresses_members_witness : NoDup [sample.A; sample.B].
Proof.
  apply (proj1 (@get_addresses_members sample.externals sample_ledger.T4
                  [sample.A; sample.B] eq_refl)).
Defined.

Lemma get_addresses_returns_iff_witness :
  exists addresses, @_get_addresses sample.externals sample_ledger.T4 = Ok addresses.
Proof.
  apply (proj2 (proj1 (proj2 (@get_addresses_returns_iff sample.externals
                                sample_ledger.T4)
                         sample_ledger.ledger eq_refl))).
  intros txin [<-|[]]. exists sample.T1. split; [reflexivity|]. simpl. lia.
Defined.

Lemma publish_tx_outcome_witness :
  @_get_addresses sample.externals sample_ledger.T4 = Ok [sample.A; sample.B] /\
  exists news,
    publish_tx sample.index sample_ledger.T4 None sample_ledger.world1
    = (Ok tt,
       mkWorld (db sample_ledger.world1)
         (mkPubSub (subscribers (bus sample_ledger.world1))
            (published (bus sample_ledger.world1) ++ news))) /\
    Permutation news (history_of sample_ledger.T4 [sample.A; sample.B]) /\
    NoDup [sample.A; sample.B].
Proof.
  split; [reflexivity|].
  apply (proj1 (proj2 (proj2 (@publish_tx_outcome sample.externals sample.index
                                sample_ledger.T4 None sample_ledger.world1)))
           eq_refl [sample.A; sample.B] eq_refl eq_refl).
Defined.

Lemma add_tx_publishes_witness :
  let w' := after (@add_tx sample.externals sample.index sample_ledger.T4)
              sample_ledger.world1 in
  (pubsub sample.index = true /\
   length (published (bus sample_ledger.world1)) = 1 /\
   length (published (bus w')) = 3) /\
  exists addresses news,
    @_get_addresses sample.externals sample_ledger.T4 = Ok addresses /\
    NoDup addresses /\
    published (bus w') = published (bus sample_ledger.world1) ++ news /\
    Permutation news
      (if pubsub sample.index then history_of sample_ledger.T4 addresses else []).
Proof.
  cbv zeta. split.
  - split; [reflexivity|]. split; vm_compute; reflexivity.
  - apply (proj2 (proj2 (@add_tx_publishes sample.externals sample.index
                           sample_ledger.T4 sample_ledger.world1))).
    vm_compute. reflexivity.
Defined.

Lemma add_tx_returns_iff_witness :
  fst (@add_tx sample.externals sample.index sample.T1 sample.world0) = Ok tt.
Proof.
  apply (proj1 (@add_tx_returns_iff sample.externals sample.index sample.T1
                  sample.world0 [] eq_refl)).
  exists sample.hash1, [sample.A]. split; [reflexivity|]. split; [reflexivity|].
  intros a [<-|[]]. eexists. reflexivity.
Defined.

Lemma add_tx_then_get_from_address_witness :
  let w' := after (@add_tx sample.externals sample.index sample.T1) sample.world0 in
  exists hashes,
    get_from_address sample.index sample.A w' = (Ok hashes, w') /\
    In sample.hash1 hashes.
Proof.
  apply (@add_tx_then_get_from_address sample.externals sample.index sample.T1
           sample.world0 sample.hash1 [sample.A] sample.A).
  - exact sample_facts.world0_ok.
  - reflexivity.
  - reflexivity.
  - reflexivity.
  - now left.
Defined.

Lemma other_address_untouched_witness :
  let w := run_calls sample.index
             [call_add_tx sample.T1; call_add_tx sample.T3] sample.world0 in
  (fst (get_from_address sample.index sample.B w) = Ok [sample.hash3] /\
   fst (get_from_address sample.index sample.A w) = Ok [sample.hash1] /\
   fst (get_from_address sample.index sample.A
          (after (@add_tx sample.externals sample.index sample.T2) w))
   = Ok [sample.hash2; sample.hash1] /\
   fst (get_from_address sample.index sample.A
          (after (remove_tx sample.index sample.T1) w))
   = Ok []) /\
  (fst (get_from_address sample.index sample.B
          (after (add_tx sample.index sample.T2) w))
   = fst (get_from_address sample.index sample.B w) /\
   fst (get_from_address sample.index sample.B
          (after (remove_tx sample.index sample.T2) w))
   = fst (get_from_address sample.index sample.B w)) /\
  (fst (get_from_address sample.index sample.B
          (after (add_tx sample.index sample.T1) w))
   = fst (get_from_address sample.index sample.B w) /\
   fst (get_from_address sample.index sample.B
          (after (remove_tx sample.index sample.T1) w))
   = fst (get_from_address sample.index sample.B w)).
Proof.
  cbv zeta.
  assert (@index_ok sample.externals sample.index
            (run_calls sample.index
               [call_add_tx sample.T1; call_add_tx sample.T3] sample.world0)) as O
    by (apply index_ok_run_calls; exact sample_facts.world0_ok).
  split; [|split].
  - split; [vm_compute; reflexivity|]. split; [vm_compute; reflexivity|].
    split; vm_compute; reflexivity.
  - apply (@other_address_untouched sample.externals sample.index sample.T2
             _ sample.B O).
    + reflexivity.
    + reflexivity.
    + intros addresses E. vm_compute in E. injection E as <-.
      intros [X|[]]. vm_compute in X. discriminate X.
  - apply (@other_address_untouched sample.externals sample.index sample.T1
             _ sample.B O).
    + reflexivity.
    + reflexivity.
    + intros addresses E. vm_compute in E. injection E as <-.
      intros [X|[]]. vm_compute in X. discriminate X.
Defined.

Lemma remove_tx_then_entries_witness :
  let w := sample_ledger.world1 in
  let w' := after (@remove_tx sample.externals sample.index sample.T1) w in
  exists data data',
    keyspace sample.index w = Some data /\ keyspace sample.index w' = Some data' /\
    get_from_address sample.index sample.A w'
    = (Ok (map snd (entries_of sample.A (map fst data'))), w') /\
    forall x,
      In x (entries_of sample.A (map fst data')) <->
      In x (entries_of sample.A (map fst data)) /\ x <> (100%Z, sample.hash1).
Proof.
  apply (@remove_tx_then_entries sample.externals sample.index sample.T1
           sample_ledger.world1 sample.hash1 [sample.A] sample.A).
  - apply index_ok_add_tx. exact sample_facts.world0_ok.
  - vm_compute. reflexivity.
  - reflexivity.
  - reflexivity.
  - now left.
Defined.

Lemma init_outcome_witness :
  exists self w',
    @__init__ sample.externals None true sample.empty_world = (Ok self, w') /\
    _cf_name self = _CF_NAME_ADDRESS_INDEX /\
    rocksdb.name (_cf self) = _CF_NAME_ADDRESS_INDEX /\
    pubsub self = true /\
    rocksdb.is_valid (_cf self) (db w') = true /\
    keyspace self w' = Some [] /\
    db_ok (db w') /\
    subscribers (bus w')
    = subscribers (bus sample.empty_world)
      ++ [(STORAGE_TX_VOIDED, _CF_NAME_ADDRESS_INDEX);
          (STORAGE_TX_WINNER, _CF_NAME_ADDRESS_INDEX)] /\
    published (bus w') = published (bus sample.empty_world).
Proof.
  apply (proj1 (@init_outcome sample.externals None true sample.empty_world)).
  - split; [constructor|]. split; constructor.
  - reflexivity.
Defined.

Lemma second_init_drops_first_witness :
  let w1 := run_calls sample.index [call_add_tx sample.T1] sample.world0 in
  fst (@get_from_address sample.externals sample.index sample.A w1)
  = Ok [sample.hash1] /\
  exists second w2,
    @__init__ sample.externals None false w1 = (Ok second, w2) /\
    rocksdb.id (_cf second) <> rocksdb.id (_cf sample.index) /\
    keyspace second w2 = Some [] /\
    (forall a,
       length a = 34 -> forallb is_ascii_char a = true ->
       get_from_address second a w2 = (Ok [], w2)) /\
    forall cs', keyspace sample.index (run_calls second cs' w2) = None.
Proof.
  cbv zeta. split; [vm_compute; reflexivity|].
  apply (@second_init_drops_first sample.externals None true false
           sample.empty_world sample.world0 sample.index [call_add_tx sample.T1]).
  - split; [constructor|]. split; constructor.
  - reflexivity.
Defined.

Lemma init_keeps_other_indexes_witness :
  exists self w',
    @__init__ sample.externals (Some [x68; x69]) false sample_ledger.world1
    = (Ok self, w') /\
    keyspace sample.index w' = keyspace sample.index sample_ledger.world1 /\
    rocksdb.id (_cf self) <> rocksdb.id (_cf sample.index).
Proof.
  destruct (@__init__ sample.externals (Some [x68; x69]) false sample_ledger.world1)
    as [[self|e] w'] eqn:I; [|vm_compute in I; discriminate].
  exists self, w'. split; [reflexivity|].
  refine (@init_keeps_other_indexes sample.externals (Some [x68; x69]) false
            sample_ledger.world1 w' self sample.index
            (rocksdb.mkColumnFamily _CF_NAME_ADDRESS_INDEX 1
               (put_all (@tx_keys sample.externals sample.T1) []))
            _ _ _ I).
  - split; [|split].
    + vm_compute. constructor; [intros []|constructor].
    + vm_compute. constructor; [intros []|constructor].
    + constructor; [vm_compute; discriminate|constructor].
  - vm_compute. reflexivity.
  - vm_compute. discriminate.
Defined.

Lemma queries_raise_witness :
  let w := sample_ledger.world1 in
  let short := repeat "A"%char 33 in
  let accented := repeat "A"%char 33 ++ [ascii_of_nat 233] in
  (fst (@get_from_address sample.externals sample.index sample.A w)
   = Ok [sample.hash1]) /\
  (fst (get_from_address sample.index short w) = Raise AssertionError /\
   fst (get_sorted_from_address sample.index short w) = Raise AssertionError /\
   fst (is_address_empty sample.index short w) = Raise AssertionError) /\
  (fst (get_from_address sample.index accented w) = Raise UnicodeEncodeError /\
   fst (get_sorted_from_address sample.index accented w)
   = Raise UnicodeEncodeError /\
   fst (is_address_empty sample.index accented w) = Raise UnicodeEncodeError).
Proof.
  cbv zeta.
  assert (exists data,
            @keyspace sample.externals sample.index sample_ledger.world1
            = Some data) as [data K]
    by (eexists; vm_compute; reflexivity).
  split; [vm_compute; reflexivity|]. split.
  - apply (proj1 (proj2 (@queries_raise sample.externals sample.index
                           (repeat "A"%char 33) sample_ledger.world1 data K))).
    simpl. discriminate.
  - apply (proj2 (proj2 (@queries_raise sample.externals sample.index
                           (repeat "A"%char 33 ++ [ascii_of_nat 233])
                           sample_ledger.world1 data K))).
    + reflexivity.
    + reflexivity.
Defined.

Lemma encode_int_outcome_witness :
  exists b,
    oracle_encode_data.encode_int sample_ledger.digits [53; 48; 48]%N
    = oracle_encode_data.Return b /\
    oracle_encode_data.be_value b = 500%Z /\ length b = 2.
Proof.
  apply (proj2 (proj2 (oracle_facts.encode_int_outcome sample_ledger.digits
                         [53; 48; 48]%N) 500%Z eq_refl)).
  lia.
Defined.


Lemma main_loop_frames_witness :
  exists items,
    Forall2 (oracle_encode_data.item_of sample_ledger.digits)
      [[105; 110; 116; 58; 53; 48; 48]; [115; 116; 114; 58; 104; 105]]%N items /\
    Forall (fun item => length item <= 255) items /\
    [x02; x01; xf4; x02; x68; x69] = oracle_encode_data.frames items /\
    oracle_encode_data.read_items (S (length items)) [x02; x01; xf4; x02; x68; x69]
    = Some items.
Proof.
  apply (oracle_facts.main_loop_frames sample_ledger.digits
           [[105; 110; 116; 58; 53; 48; 48]; [115; 116; 114; 58; 104; 105]]%N).
  reflexivity.
Defined.

Lemma main_loop_stops_witness :
  oracle_encode_data.main_loop sample_ledger.digits [[105; 110; 116]%N] []
  = oracle_encode_data.Raises oracle_encode_data.ValueError.
Proof.
  apply (proj1 (oracle_facts.main_loop_stops sample_ledger.digits
                  [105; 110; 116]%N [] [])).
  discriminate.
Defined.
